(** * Ant Colony Optimisation solver of [ACO.py]: embedding and properties

    The development follows [solve_aco] (ACO.py, lines 32-120) and the
    distance recomputation of [plot_route] (lines 141-146), and then the
    code around the solver: [geocode_address] (lines 15-29),
    [plot_route] (lines 123-158) and the script that calls them (lines
    160-186).

    Numbers.  The program computes on IEEE doubles (Python [float],
    [numpy.float64]).  They are embedded as exact rationals extended with
    the special values the program can produce: [+inf], [-inf] and [nan].
    Rounding, overflow, underflow and the sign of zero are not modelled;
    numpy's scalar division never raises, it yields [inf] or [nan].
    The exponents [alpha] and [beta] are integers, as the defaults are.
    A statement that needs a trail, a power, a score or a sum to be
    positive and finite is made for inputs that keep these values
    inside the range of a double ([in_double_range]), where the exact
    values and the rounded ones have the same sign and are both finite.

    Effects.  A raised exception is a [Raise] result.  The values of
    successive [random.random()] calls are given by a function [draws]
    and a position threaded through the run.  A [while] loop takes a bound
    on its number of rounds and yields [OutOfFuel] when it is exceeded.

    The script.  The geocoding service is a function of the number of
    the request and the address; the script threads the number of
    requests and the printed lines through its steps, and ends with a
    value, with [exit()], with an uncaught exception or without end.
    [geodesic] is taken to accept every pair of coordinates.  The clock,
    the file that the map is saved to and the browser are left out. *)

From Stdlib Require String.
From Stdlib Require Import QArith Qpower Qabs ZArith List Lia Lqa Bool Arith.
From Stdlib Require Import PeanoNat ListSet Permutation Sorted.
Import ListNotations.
Import String.StringSyntax.

Set Implicit Arguments.

Close Scope Q_scope.
Open Scope nat_scope.
Delimit Scope string_scope with string.

(** ** Results of fallible computations *)

Inductive exn : Type := IndexError | ValueError.

Inductive result (A : Type) : Type :=
| Ok (a : A)
| Raise (e : exn)
| OutOfFuel.

Arguments Ok {A} a.
Arguments Raise {A} e.
Arguments OutOfFuel {A}.

Definition bind {A B : Type} (m : result A) (k : A -> result B) : result B :=
  match m with
  | Ok a => k a
  | Raise e => Raise e
  | OutOfFuel => OutOfFuel
  end.

Notation "x <- m ;; k" := (bind m (fun x => k))
  (at level 61, m at next level, right associativity).
Notation "' p <- m ;; k" := (bind m (fun x => match x with p => k end))
  (at level 61, p pattern, m at next level, right associativity).

(** ** Extended rationals standing for doubles *)

Module Num.

Local Open Scope Q_scope.

Inductive num : Type :=
| Fin (q : Q)
| PInf
| NInf
| NaN.

Definition Qltb (a b : Q) : bool := negb (Qle_bool b a).

Definition is_finite (x : num) : bool :=
  match x with Fin _ => true | _ => false end.

Definition add (x y : num) : num :=
  match x, y with
  | NaN, _ | _, NaN => NaN
  | Fin a, Fin b => Fin (a + b)
  | PInf, NInf | NInf, PInf => NaN
  | PInf, _ | _, PInf => PInf
  | NInf, _ | _, NInf => NInf
  end.

(** Sign of an infinity multiplied by the finite value [b]. *)
Definition scale_inf (positive : bool) (b : Q) : num :=
  match 0 ?= b with
  | Lt => if positive then PInf else NInf
  | Eq => NaN
  | Gt => if positive then NInf else PInf
  end.

Definition mul (x y : num) : num :=
  match x, y with
  | NaN, _ | _, NaN => NaN
  | Fin a, Fin b => Fin (a * b)
  | PInf, Fin b | Fin b, PInf => scale_inf true b
  | NInf, Fin b | Fin b, NInf => scale_inf false b
  | PInf, PInf | NInf, NInf => PInf
  | PInf, NInf | NInf, PInf => NInf
  end.

(** [x / y] as numpy computes it: a zero divisor gives an infinity or
    [nan], never an exception. *)
Definition div (x y : num) : num :=
  match x, y with
  | NaN, _ | _, NaN => NaN
  | Fin a, Fin b =>
      if Qeq_bool b 0 then
        match 0 ?= a with Lt => PInf | Eq => NaN | Gt => NInf end
      else Fin (a / b)
  | Fin _, PInf | Fin _, NInf => Fin 0
  | PInf, Fin b => if Qltb b 0 then NInf else PInf
  | NInf, Fin b => if Qltb b 0 then PInf else NInf
  | _, _ => NaN
  end.

(** [x ** z] for an integer exponent. *)
Definition pow (x : num) (z : Z) : num :=
  if (z =? 0)%Z then Fin 1 else
  match x with
  | Fin q => if Qeq_bool q 0 && (z <? 0)%Z then PInf else Fin (q ^ z)
  | PInf => if (z <? 0)%Z then Fin 0 else PInf
  | NInf => if (z <? 0)%Z then Fin 0 else if Z.odd z then NInf else PInf
  | NaN => NaN
  end.

(** [x < y]; every comparison with [nan] is false. *)
Definition ltb (x y : num) : bool :=
  match x, y with
  | NaN, _ | _, NaN => false
  | Fin a, Fin b => Qltb a b
  | NInf, NInf | PInf, _ | Fin _, NInf => false
  | NInf, _ | Fin _, PInf => true
  end.

(** [x <= y]. *)
Definition leb (x y : num) : bool :=
  match x, y with
  | NaN, _ | _, NaN => false
  | Fin a, Fin b => Qle_bool a b
  | NInf, _ | _, PInf => true
  | PInf, _ | Fin _, NInf => false
  end.

(** Numeric equality of two values ([Qeq] on finite ones). *)
Definition eqv (x y : num) : Prop :=
  match x, y with
  | Fin a, Fin b => a == b
  | PInf, PInf | NInf, NInf | NaN, NaN => True
  | _, _ => False
  end.

(** Finite and strictly positive, finite and non-negative. *)
Definition positive (x : num) : Prop := exists q, x = Fin q /\ 0 < q.
Definition nonneg (x : num) : Prop := exists q, x = Fin q /\ 0 <= q.

End Num.

Import Num.

(** ** Python and numpy library functions used by the solver *)

Definition matrix : Type := list (list num).

(** [M[i, j]] on a two-dimensional array. *)
Definition get2 (M : matrix) (i j : nat) : result num :=
  match nth_error M i with
  | Some row =>
      match nth_error row j with
      | Some x => Ok x
      | None => Raise IndexError
      end
  | None => Raise IndexError
  end.

(** [l[i] = x] on a list, for [i] in range. *)
Fixpoint set_nth {A : Type} (l : list A) (i : nat) (x : A) : list A :=
  match l, i with
  | [], _ => []
  | _ :: t, O => x :: t
  | h :: t, S i' => h :: set_nth t i' x
  end.

(** [M[i, j] += amount]. *)
Definition add_at (M : matrix) (i j : nat) (amount : num) : result matrix :=
  match nth_error M i with
  | Some row =>
      match nth_error row j with
      | Some x => Ok (set_nth M i (set_nth row j (add x amount)))
      | None => Raise IndexError
      end
  | None => Raise IndexError
  end.

(** [np.ones((n, n))]. *)
Definition ones (n : nat) : matrix := repeat (repeat (Fin 1) n) n.

(** [sum(l)]: additions from the integer 0, left to right. *)
Definition py_sum (l : list num) : num := fold_left add l (Fin 0).

(** [l.index(max(l))].  [max] keeps its first element until a later one
    is strictly greater; [index] then finds that very element, as no
    earlier element compares equal to it.  The position is carried
    along with the running maximum. *)
Fixpoint argmax_from (best : nat) (best_val : num) (i : nat) (l : list num)
  : nat :=
  match l with
  | [] => best
  | x :: t =>
      if ltb best_val x then argmax_from i x (S i) t
      else argmax_from best best_val (S i) t
  end.

Definition index_of_max (l : list num) : result nat :=
  match l with
  | [] => Raise ValueError
  | x :: t => Ok (argmax_from 0 x 1 t)
  end.

(** [itertools.accumulate(l)]: running sums. *)
Fixpoint accumulate_from (acc : num) (l : list num) : list num :=
  match l with
  | [] => []
  | x :: t => add acc x :: accumulate_from (add acc x) t
  end.

Definition accumulate (l : list num) : list num :=
  match l with
  | [] => []
  | x :: t => x :: accumulate_from x t
  end.

(** [bisect.bisect_right(a, x, lo, hi)]: the binary search, which runs
    at most [hi - lo] rounds. *)
Fixpoint bisect_loop (rounds : nat) (a : list num) (x : num) (lo hi : nat)
  : nat :=
  match rounds with
  | O => lo
  | S rounds' =>
      if lo <? hi then
        let mid := (lo + hi) / 2 in
        if ltb x (nth mid a NaN) then bisect_loop rounds' a x lo mid
        else bisect_loop rounds' a x (S mid) hi
      else lo
  end.

Definition bisect (a : list num) (x : num) (lo hi : nat) : nat :=
  bisect_loop (hi - lo) a x lo hi.

(** [random.choices(range(n), weights=weights)[0]], where [u] is the
    value of the [random()] call it makes (CPython 3.9 and later). *)
Definition choices (n : nat) (weights : list num) (u : Q) : result nat :=
  let cum_weights := accumulate weights in
  if negb (length cum_weights =? n) then Raise ValueError
  else
    match cum_weights with
    | [] => Raise IndexError
    | _ :: _ =>
        let total := add (last cum_weights NaN) (Fin 0) in
        if leb total (Fin 0) then Raise ValueError
        else if negb (is_finite total) then Raise ValueError
        else Ok (bisect cum_weights (mul (Fin u) total) 0 (n - 1))
    end.

(** ** The solver *)

(** The state that [solve_aco] keeps across ants and iterations; [rng] is
    the position in the sequence of random draws and [printed] the
    best distances printed so far, one per iteration. *)
Record colony : Type := Colony {
  pheromone_matrix : matrix;
  best_route : option (list nat);
  best_distance : num;
  rng : nat;
  printed : list num
}.

Section Solver.

(** A location (its coordinates) and the distance in kilometres that
    [geopy.distance.geodesic] gives for two of them. *)
Variable loc : Type.
Variable geodesic : loc -> loc -> num.

(** The values returned by successive calls of [random.random()]. *)
Variable draws : nat -> Q.

(** Bound on the rounds of the [while] loop of one ant. *)
Variable fuel : nat.

Variable locations : list loc.
Variable start_index : nat.
Variables n_ants n_iterations : nat.
Variables alpha beta : Z.
Variables rho q0 : Q.

Definition num_locations : nat := length locations.

(** Line 52. *)
Definition distance_matrix : matrix :=
  map (fun a => map (fun b => geodesic a b) locations) locations.

(** Lines 78-84: the score of one candidate. *)
Definition score (P : matrix) (current : nat) (visited : set nat)
  (next_location : nat) : result num :=
  if set_mem Nat.eq_dec next_location visited then Ok (Fin 0)
  else
    p <- get2 P current next_location ;;
    d <- get2 distance_matrix current next_location ;;
    Ok (mul (pow p alpha) (pow d (- beta))).

(** Lines 76-84: the scores of all candidates, in index order. *)
Fixpoint scores (P : matrix) (current : nat) (visited : set nat)
  (candidates : list nat) : result (list num) :=
  match candidates with
  | [] => Ok []
  | next_location :: rest =>
      p <- score P current visited next_location ;;
      ps <- scores P current visited rest ;;
      Ok (p :: ps)
  end.

(** Lines 86-87. *)
Definition normalize (probabilities : list num) : list num :=
  let total_prob := py_sum probabilities in
  map (fun p => div p total_prob) probabilities.

(** Lines 90-93: returns the chosen location and the new position in the
    random draws. *)
Definition choose_next (probabilities : list num) (pos : nat)
  : result (nat * nat) :=
  if Qltb (draws pos) q0 then
    next_location <- index_of_max probabilities ;;
    Ok (next_location, S pos)
  else
    next_location <- choices num_locations probabilities (draws (S pos)) ;;
    Ok (next_location, S (S pos)).

(** Lines 73-98: the [while] loop of one ant. *)
Fixpoint build_route (rounds : nat) (P : matrix) (route : list nat)
  (visited : set nat) (total_distance : num) (pos : nat)
  : result (list nat * num * nat) :=
  if length visited <? num_locations then
    match rounds with
    | O => OutOfFuel
    | S rounds' =>
        let current := last route 0 in
        probabilities <-
          scores P current visited (seq 0 num_locations) ;;
        let probabilities := normalize probabilities in
        '(next_location, pos') <- choose_next probabilities pos ;;
        d <- get2 distance_matrix current next_location ;;
        build_route rounds' P (route ++ [next_location])
          (set_add Nat.eq_dec next_location visited)
          (add total_distance d) pos'
    end
  else Ok (route, total_distance, pos).

(** Lines 68-102: the route of one ant, its total distance and the new
    position in the random draws. *)
Definition construct_route (P : matrix) (pos : nat)
  : result (list nat * num * nat) :=
  '(route, total_distance, pos') <-
    build_route fuel P [start_index] [start_index] (Fin 0) pos ;;
  d <- get2 distance_matrix (last route 0) (hd 0 route) ;;
  Ok (route ++ [hd 0 route], add total_distance d, pos').

(** Lines 107-109. *)
Definition update_best (st : colony) (route : list nat)
  (total_distance : num) (pos : nat) : colony :=
  if ltb total_distance (best_distance st) then
    Colony (pheromone_matrix st) (Some route) total_distance pos (printed st)
  else
    Colony (pheromone_matrix st) (best_route st) (best_distance st) pos
      (printed st).

(** Lines 67-109: the loop over the ants of one iteration. *)
Fixpoint run_ants (n : nat) (st : colony) (all_routes : list (list nat))
  (all_distances : list num)
  : result (colony * list (list nat) * list num) :=
  match n with
  | O => Ok (st, all_routes, all_distances)
  | S n' =>
      '(route, total_distance, pos) <-
        construct_route (pheromone_matrix st) (rng st) ;;
      run_ants n' (update_best st route total_distance pos)
        (all_routes ++ [route]) (all_distances ++ [total_distance])
  end.

(** Line 112. *)
Definition evaporate (P : matrix) : matrix :=
  map (map (fun x => mul x (Fin (1 - rho)%Q))) P.

(** Lines 114-115: the deposits along route number [i]. *)
Fixpoint deposit_route (P : matrix) (route : list nat) (i : nat)
  (all_distances : list num) : result matrix :=
  match route with
  | a :: (b :: _) as rest =>
      match nth_error all_distances i with
      | Some d =>
          P' <- add_at P a b (div (Fin 1) d) ;;
          deposit_route P' rest i all_distances
      | None => Raise IndexError
      end
  | _ => Ok P
  end.

(** Lines 113-115: the deposits of all routes, from route number [i]. *)
Fixpoint deposit_all (P : matrix) (all_routes : list (list nat)) (i : nat)
  (all_distances : list num) : result matrix :=
  match all_routes with
  | [] => Ok P
  | route :: rest =>
      P' <- deposit_route P route i all_distances ;;
      deposit_all P' rest (S i) all_distances
  end.

(** Lines 63-118: one iteration. *)
Definition run_iteration (st : colony) : result colony :=
  '(st', all_routes, all_distances) <- run_ants n_ants st [] [] ;;
  P <- deposit_all (evaporate (pheromone_matrix st')) all_routes 0
         all_distances ;;
  Ok (Colony P (best_route st') (best_distance st') (rng st')
        (printed st' ++ [best_distance st'])).

(** Lines 62-118: [n] iterations. *)
Fixpoint run_iterations (n : nat) (st : colony) : result colony :=
  match n with
  | O => Ok st
  | S n' => st' <- run_iteration st ;; run_iterations n' st'
  end.

(** Lines 55-59. *)
Definition initial : colony :=
  Colony (ones num_locations) None PInf 0 [].

(** Lines 32-120. *)
Definition solve_aco : result (option (list nat)) :=
  st <- run_iterations n_iterations initial ;;
  Ok (best_route st).

(** Lines 141-146 of [plot_route]: the total distance of a route,
    recomputed from the locations. *)
Fixpoint plot_route_total (route : list nat) (total_distance : num)
  : result num :=
  match route with
  | a :: (b :: _) as rest =>
      match nth_error locations a, nth_error locations b with
      | Some start, Some finish =>
          plot_route_total rest (add total_distance (geodesic start finish))
      | _, _ => Raise IndexError
      end
  | _ => Ok total_distance
  end.

End Solver.

(** ** The script around the solver *)

(** A geocoded location: latitude, longitude and address; [p[:2]] is
    [fst p]. *)
Definition place : Type := Q * Q * String.string.

(** What [geolocator.geocode] does: it returns a location or [None], or
    raises [GeocoderTimedOut] or another exception. *)
Inductive reply : Type :=
| Found (latitude longitude : Q) (address : String.string)
| NoMatch
| TimedOut
| ServiceError.

(** The lines that the script prints, apart from the progress lines of
    [solve_aco] (see [printed]) and the elapsed time. *)
Inductive message : Type :=
| Geocoded (address : String.string) (latitude longitude : Q)
| CouldNotGeocode (address : String.string)
| GeocodingTimedOut (address : String.string)
| NotEnoughLocations
| SelectStart
| Numbered (number : nat) (address : String.string)
| InvalidNumber
| Plotting
| TotalRouteDistance (total_distance : num).

(** The exceptions that end the script. *)
Inductive error : Type :=
| Builtin (e : exn)
| TypeError
| GeocoderError.

Inductive outcome (A : Type) : Type :=
| Done (a : A)
| Exit
| Uncaught (e : error)
| Endless.

Arguments Done {A} a.
Arguments Exit {A}.
Arguments Uncaught {A} e.
Arguments Endless {A}.

(** The number of calls of the geocoder so far, and the lines printed
    so far. *)
Record world : Type := World {
  calls : nat;
  output : list message
}.

Definition script (A : Type) : Type := world -> outcome A * world.

Definition ret {A : Type} (a : A) : script A := fun w => (Done a, w).

Definition and_then {A B : Type} (m : script A) (k : A -> script B)
  : script B :=
  fun w =>
    match m w with
    | (Done a, w') => k a w'
    | (Exit, w') => (Exit, w')
    | (Uncaught e, w') => (Uncaught e, w')
    | (Endless, w') => (Endless, w')
    end.

Notation "x <~ m ;; k" := (and_then m (fun x => k))
  (at level 61, m at next level, right associativity).
Notation "' p <~ m ;; k" :=
  (and_then m (fun x => match x with p => k end))
  (at level 61, p pattern, m at next level, right associativity).
Notation "m ;;; k" := (and_then m (fun _ => k))
  (at level 61, right associativity).

Definition print (l : message) : script unit :=
  fun w => (Done tt, World (calls w) (output w ++ [l])).

Definition raise {A : Type} (e : error) : script A :=
  fun w => (Uncaught e, w).

Definition exit {A : Type} : script A := fun w => (Exit, w).

(** A computation of the solver inside the script. *)
Definition lift {A : Type} (m : result A) : script A :=
  fun w =>
    match m with
    | Ok a => (Done a, w)
    | Raise e => (Uncaught (Builtin e), w)
    | OutOfFuel => (Endless, w)
    end.

(** The map that [plot_route] builds: the centre of [folium.Map], the
    locations of the markers, the end points of the lines, and the total
    distance of the label. *)
Record folium_map : Type := Map {
  location : Q * Q;
  markers : list place;
  polylines : list ((Q * Q) * (Q * Q));
  total_distance_label : num
}.

Section Script.

(** The answer of the geocoding service to its [k]-th request. *)
Variable geocoder : nat -> String.string -> reply.

(** [geopy.distance.geodesic(a, b).kilometers] on two pairs of
    coordinates. *)
Variable geodesic : Q * Q -> Q * Q -> num.

Variable draws : nat -> Q.
Variable fuel : nat.

(** [geolocator.geocode(address)]. *)
Definition geocode (address : String.string) : script reply :=
  fun w => (Done (geocoder (calls w) address),
            World (S (calls w)) (output w)).

(** Lines 15-29. *)
Definition geocode_address (address : String.string)
  : script (option place) :=
  location <~ geocode address ;;
  match location with
  | Found latitude longitude found_address =>
      print (Geocoded address latitude longitude) ;;;
      ret (Some (latitude, longitude, found_address))
  | NoMatch => print (CouldNotGeocode address) ;;; ret None
  | TimedOut => print (GeocodingTimedOut address) ;;; ret None
  | ServiceError => raise GeocoderError
  end.

(** Line 173: the list comprehension, which calls [geocode_address] for
    the test, and once more for the element if the test passes. *)
Fixpoint geocode_addresses (addresses : list String.string)
  : script (list (option place)) :=
  match addresses with
  | [] => ret []
  | address :: rest =>
      tested <~ geocode_address address ;;
      match tested with
      | Some _ =>
          element <~ geocode_address address ;;
          locations <~ geocode_addresses rest ;;
          ret (element :: locations)
      | None => geocode_addresses rest
      end
  end.

(** Lines 178-179: the loop that prints the numbered addresses; it
    unpacks every element into three values, which raises on [None].
    The elements are returned as the triples that they are then known
    to be. *)
Fixpoint list_locations (locations : list (option place)) (idx : nat)
  : script (list place) :=
  match locations with
  | [] => ret []
  | Some (lat, lon, address) :: rest =>
      print (Numbered (idx + 1) address) ;;;
      places <~ list_locations rest (S idx) ;;
      ret ((lat, lon, address) :: places)
  | None :: _ => raise TypeError
  end.

(** The distance of two locations as [solve_aco] and [plot_route] take
    it: from their first two components. *)
Definition between (a b : place) : num := geodesic (fst a) (fst b).

(** Lines 141-147 of [plot_route]: the loop over the edges of the
    route. *)
Fixpoint plot_lines (locations : list place) (route : list nat)
  (total_distance : num) (lines : list ((Q * Q) * (Q * Q)))
  : result (num * list ((Q * Q) * (Q * Q))) :=
  match route with
  | a :: (b :: _) as rest =>
      match nth_error locations a, nth_error locations b with
      | Some start, Some finish =>
          plot_lines locations rest
            (add total_distance (geodesic (fst start) (fst finish)))
            (lines ++ [(fst start, fst finish)])
      | _, _ => Raise IndexError
      end
  | _ => Ok (total_distance, lines)
  end.

(** Lines 123-158.  [locations[0]] raises on an empty list and
    [len(route)] on [None]. *)
Definition plot_route (locations : list place) (route : option (list nat))
  : script folium_map :=
  print Plotting ;;;
  match locations with
  | [] => raise (Builtin IndexError)
  | first :: _ =>
      match route with
      | None => raise TypeError
      | Some route =>
          '(total_distance, lines) <~
            lift (plot_lines locations route (Fin 0) []) ;;
          print (TotalRouteDistance total_distance) ;;;
          ret (Map (fst first) locations lines total_distance)
      end
  end.

(** Lines 160-186: the script, where [answer] is the value of
    [int(input(...))], or [None] if that raises [ValueError]; the
    result is the map that is saved. *)
Definition main (addresses : list String.string) (answer : option Z)
  : script folium_map :=
  locations <~ geocode_addresses addresses ;;
  if length locations <? 2 then print NotEnoughLocations ;;; exit
  else
    print SelectStart ;;;
    places <~ list_locations locations 0 ;;
    match answer with
    | None => raise (Builtin ValueError)
    | Some number =>
        let start_location := (number - 1)%Z in
        if (start_location <? 0)%Z
           || (Z.of_nat (length locations) <=? start_location)%Z
        then print InvalidNumber ;;; exit
        else
          route <~ lift (solve_aco between draws fuel places
                           (Z.to_nat start_location) 50 1000 1 2 (1 # 2)
                           (9 # 10)) ;;
          plot_route places route
    end.

End Script.

(** * Predicates of the statements *)

(** ** Inputs *)

(** Distinct locations lie at a positive finite distance. *)
Definition valid_distances (loc : Type) (geodesic : loc -> loc -> num)
  (locations : list loc) : Prop :=
  forall i j a b,
    nth_error locations i = Some a -> nth_error locations j = Some b ->
    i <> j -> positive (geodesic a b).

(** All distances are finite and non-negative. *)
Definition nonneg_distances (loc : Type) (geodesic : loc -> loc -> num)
  (locations : list loc) : Prop :=
  forall a b, In a locations -> In b locations -> nonneg (geodesic a b).

(** [random.random()] returns values of the interval [0, 1). *)
Definition unit_draws (draws : nat -> Q) : Prop :=
  forall k, (0 <= draws k)%Q /\ (draws k < 1)%Q.

(** ** The range of a double *)

(** A double holds positive values from [2 ^ -1074] to just below
    [2 ^ 1024], and those below [2 ^ -1022] with fewer digits; a
    smaller result is rounded to zero and a greater one to [+inf].  The
    arithmetic of [num] is exact and has no such limits.  The statements
    that need trails, scores and sums to be positive and finite in the
    program are therefore made for inputs that keep these values
    inside the range, with a margin for the rounding that is not
    modelled: every power at or above [least_power], every score at or
    above [least_score], every power, score and total distance at most
    [greatest], exponents that a double holds exactly, and at most
    [most_locations] locations. *)
Definition least_power : Q := (2 ^ (-1021))%Q.

Definition least_score : Q := (2 ^ (-1060))%Q.

Definition greatest : Q := (2 ^ 900)%Q.

Definition greatest_exponent : Z := (2 ^ 53)%Z.

Definition most_locations : Q := (2 ^ 20)%Q.

(** The distances between distinct locations are finite and lie
    between [dmin] and [dmax]. *)
Definition distances_within (loc : Type) (geodesic : loc -> loc -> num)
  (locations : list loc) (dmin dmax : Q) : Prop :=
  forall i j a b,
    nth_error locations i = Some a -> nth_error locations j = Some b ->
    i <> j ->
    exists d, geodesic a b = Fin d /\ (dmin <= d)%Q /\ (d <= dmax)%Q.

(** A value below every trail after [n] iterations, each of which
    multiplies the trail by [1 - rho], with a factor for the rounding
    of that product. *)
Definition least_trail (rho : Q) (n : nat) : Q :=
  (((1 - rho) * (1 - 2 ^ (-50))) ^ Z.of_nat n)%Q.

(** A value above every trail after [n] iterations of [n_ants] ants:
    a tour of two or more locations is at least [2 * dmin] long and
    deposits [1 / total] on a trail at most once, so that [1 / dmin]
    for each tour exceeds the deposits and their rounding. *)
Definition greatest_trail (n_ants n : nat) (dmin : Q) : Q :=
  (1 + inject_Z (Z.of_nat (n * n_ants)) / dmin)%Q.

(** With two locations each ant of an iteration deposits at least
    [1 / (2 * dmax)] on both trails, so that for an evaporation rate of
    [0, 1] a trail stays above every value that is below its initial 1
    and below half of that deposit. *)
Definition least_trail_of_two (dmax : Q) : Q :=
  (1 / (1 + 4 * dmax))%Q.

(** Trails between [lo] and [hi] and distances between [dmin] and
    [dmax] give powers, scores, sums of scores and total distances
    inside the range of a double, for exponents that are not negative
    and that a double holds exactly. *)
Definition in_double_range (lo hi dmin dmax : Q) (alpha beta : Z)
  (n : nat) : Prop :=
  (0 <= alpha)%Z /\ (alpha <= greatest_exponent)%Z /\
  (0 <= beta)%Z /\ (beta <= greatest_exponent)%Z /\
  (0 < dmin)%Q /\
  (least_power <= lo ^ alpha)%Q /\ (hi ^ alpha <= greatest)%Q /\
  (least_power <= dmax ^ (- beta))%Q /\ (dmin ^ (- beta) <= greatest)%Q /\
  (least_score <= lo ^ alpha * dmax ^ (- beta))%Q /\
  (hi ^ alpha * dmin ^ (- beta) <= greatest)%Q /\
  (inject_Z (Z.of_nat n) * dmax <= greatest)%Q /\
  (inject_Z (Z.of_nat n) <= most_locations)%Q.

(** The factor by which the rounding of the powers and of the
    probabilities can hide that one distance is less than another. *)
Definition rounding_margin : Q := (1 + 2 ^ (-40))%Q.

(** ** Tours and states *)

(** A closed tour of the [n] locations from [start]. *)
Definition is_tour (n start : nat) (tour : list nat) : Prop :=
  length tour = S n /\
  hd 0 tour = start /\
  last tour 0 = start /\
  Permutation (removelast tour) (seq 0 n).

(** An [n] by [n] matrix. *)
Definition square (n : nat) (M : matrix) : Prop :=
  length M = n /\ Forall (fun row => length row = n) M.

(** Every cell [M[i, j]] satisfies [R i j]. *)
Definition cells_sat (R : nat -> nat -> num -> Prop) (M : matrix) : Prop :=
  forall i j x, get2 M i j = Ok x -> R i j x.

(** Every cell satisfies [Pr]. *)
Definition all_cells (Pr : num -> Prop) (M : matrix) : Prop :=
  cells_sat (fun _ _ x => Pr x) M.

(** Every cell off the diagonal satisfies [Pr]. *)
Definition offdiag_cells (Pr : num -> Prop) (M : matrix) : Prop :=
  cells_sat (fun i j x => i <> j -> Pr x) M.

(** Square, and positive off the diagonal. *)
Definition good_pheromone (n : nat) (P : matrix) : Prop :=
  square n P /\ offdiag_cells positive P.

(** No route yet and an infinite best distance, or a tour. *)
Definition best_ok (n start : nat) (st : colony) : Prop :=
  match best_route st with
  | None => best_distance st = PInf
  | Some tour => is_tour n start tour
  end.


(** Not below zero: a non-negative finite value, [+inf] or [nan]. *)
Definition not_negative (x : num) : Prop := ltb x (Fin 0) = false.

(** Above zero, possibly [+inf]. *)
Definition above_zero (x : num) : Prop := ltb (Fin 0) x = true.

(** What the scores of a step are: zero at a visited location, positive
    at any other one. *)
Definition weight_of (visited : set nat) (j : nat) (q : Q) : Prop :=
  (In j visited -> (q == 0)%Q) /\ (~ In j visited -> (0 < q)%Q).

(** ** The states of the route loop *)

(** The routes and visited sets that the [while] loop of an ant passes
    through, from [start_index] on the pheromone matrix [P]. *)
Inductive loop_state (loc : Type) (geodesic : loc -> loc -> num)
  (draws : nat -> Q) (locations : list loc) (alpha beta : Z) (q0 : Q)
  (P : matrix) (start_index : nat) : list nat -> set nat -> Prop :=
| loop_start :
    loop_state geodesic draws locations alpha beta q0 P start_index
      [start_index] [start_index]
| loop_step (route : list nat) (visited : set nat)
    (probabilities : list num) (next_location pos pos' : nat) :
    loop_state geodesic draws locations alpha beta q0 P start_index
      route visited ->
    length visited < num_locations locations ->
    scores geodesic locations alpha beta P (last route 0) visited
      (seq 0 (num_locations locations)) = Ok probabilities ->
    choose_next draws locations q0 (normalize probabilities) pos
    = Ok (next_location, pos') ->
    loop_state geodesic draws locations alpha beta q0 P start_index
      (route ++ [next_location])
      (set_add Nat.eq_dec next_location visited).

(** ** Sampling by running sums *)

(** Running sums of rationals, as [accumulate] adds them. *)
Fixpoint Qaccumulate_from (acc : Q) (l : list Q) : list Q :=
  match l with
  | [] => []
  | x :: t => (acc + x)%Q :: Qaccumulate_from (acc + x)%Q t
  end.

(** The running sums of a list of weights, the first one being the first
    weight. *)
Definition Qaccumulate (l : list Q) : list Q :=
  match l with
  | [] => []
  | x :: t => x :: Qaccumulate_from x t
  end.

(** ** The deposits in the words of the specification *)

(** The directed edges of a route, in order. *)
Fixpoint edges (route : list nat) : list (nat * nat) :=
  match route with
  | a :: (b :: _) as rest => (a, b) :: edges rest
  | _ => []
  end.

(** Is [e] the edge from [i] to [j]? *)
Definition is_edge (i j : nat) (e : nat * nat) : bool :=
  (fst e =? i) && (snd e =? j).

(** The amounts that a route of total distance [d] deposits on the cell
    [(i, j)]: [1 / d] for each time it goes from [i] to [j]. *)
Definition route_amounts (i j : nat) (route : list nat) (d : num)
  : list num :=
  map (fun _ => div (Fin 1) d) (filter (is_edge i j) (edges route)).

(** The amounts that the routes numbered from [k] deposit on the cell
    [(i, j)], route after route. *)
Fixpoint amounts_on (i j : nat) (all_routes : list (list nat)) (k : nat)
  (all_distances : list num) : list num :=
  match all_routes with
  | [] => []
  | route :: rest =>
      route_amounts i j route (nth k all_distances NaN)
      ++ amounts_on i j rest (S k) all_distances
  end.

(** No route yet, or a closed route from [start] over indices below [n]
    that holds each of them. *)
Definition covers (n start : nat) (route : list nat) : Prop :=
  hd 0 route = start /\ last route 0 = start /\
  Forall (fun j => j < n) route /\
  (forall j, j < n -> In j (removelast route)) /\
  n < length route.

Definition best_recomputed (loc : Type) (geodesic : loc -> loc -> num)
  (locations : list loc) (st : colony) : Prop :=
  match best_route st with
  | Some route =>
      plot_route_total geodesic locations route (Fin 0)
      = Ok (best_distance st)
  | None => best_distance st = PInf
  end.

Section History.

Variable loc : Type.
Variable geodesic : loc -> loc -> num.
Variable draws : nat -> Q.
Variable fuel : nat.
Variable locations : list loc.
Variable start_index : nat.
Variable n_ants : nat.
Variables alpha beta : Z.
Variables rho q0 : Q.


End History.

(** The best-known solution [(r1, d1)] that the routes [rs] of total
    distances [ds] leave when they are compared in order, from the
    solution [(r0, d0)]: none of them is shorter than [d1]; either the
    solution is still [(r0, d0)], or [d1] is shorter than [d0] and [r1]
    is the first of the routes that is as short as [d1]. *)
Definition first_shortest (rs : list (list nat)) (ds : list num)
  (r0 : option (list nat)) (d0 : num) (r1 : option (list nat)) (d1 : num)
  : Prop :=
  length rs = length ds /\
  Forall (fun d => ltb d d1 = false) ds /\
  ((r1 = r0 /\ d1 = d0) \/
   (ltb d1 d0 = true /\
    exists k r,
      nth_error rs k = Some r /\ nth_error ds k = Some d1 /\ r1 = Some r /\
      forall k' d', k' < k -> nth_error ds k' = Some d' ->
        leb d' d1 = false)).

(** Two computations end alike: with results related by [R], with the
    same exception, or both out of fuel. *)
Definition result_rel (A B : Type) (R : A -> B -> Prop) (m1 : result A)
  (m2 : result B) : Prop :=
  match m1, m2 with
  | Ok a, Ok b => R a b
  | Raise e1, Raise e2 => e1 = e2
  | OutOfFuel, OutOfFuel => True
  | _, _ => False
  end.

(** The same route and total distance, after the same number of random
    draws from the positions [pos1] and [pos2]. *)
Definition same_route (pos1 pos2 : nat) (x y : list nat * num * nat)
  : Prop :=
  fst (fst x) = fst (fst y) /\ snd (fst x) = snd (fst y) /\
  snd x + pos2 = snd y + pos1.

(** The same pheromone matrix, best-known solution and printed
    distances. *)
Definition same_solution (st1 st2 : colony) : Prop :=
  pheromone_matrix st1 = pheromone_matrix st2 /\
  best_route st1 = best_route st2 /\
  best_distance st1 = best_distance st2 /\
  printed st1 = printed st2.

(** The best-known solution of a run on one location whose route has
    the total distance [total]: none yet, or the route that returns at
    once. *)
Definition single_best (total : num) (st : colony) : Prop :=
  (best_route st = None /\ best_distance st = PInf) \/
  (best_route st = Some [0; 0] /\ best_distance st = total).

(** The location that a reply holds. *)
Definition found (r : reply) : option place :=
  match r with
  | Found latitude longitude address => Some (latitude, longitude, address)
  | _ => None
  end.

(** The geocoder answers a request for an address always alike, and
    never with an exception other than a timeout. *)
Definition stable (geocoder : nat -> String.string -> reply)
  (addresses : list String.string) : Prop :=
  forall address, In address addresses ->
    (forall k, geocoder k address = geocoder 0 address) /\
    geocoder 0 address <> ServiceError.

(** The locations of the addresses that a stable geocoder finds. *)
Fixpoint known_places (geocoder : nat -> String.string -> reply)
  (addresses : list String.string) : list place :=
  match addresses with
  | [] => []
  | address :: rest =>
      match found (geocoder 0 address) with
      | Some p => p :: known_places geocoder rest
      | None => known_places geocoder rest
      end
  end.

(** The end points of the line that [plot_route] draws for the edge
    [e] of a route. *)
Definition ends (locations : list place) (e : nat * nat)
  : (Q * Q) * (Q * Q) :=
  (fst (nth (fst e) locations (0%Q, 0%Q, String.EmptyString)),
   fst (nth (snd e) locations (0%Q, 0%Q, String.EmptyString))).

(** * Example inputs *)

(** Locations on a line, by their coordinate in kilometres. *)
Definition line (a b : Q) : num := Fin (Qabs (a - b)).

Definition three_points : list Q := [0%Q; 1%Q; 3%Q].

Definition four_points : list Q := [0%Q; 1%Q; 2%Q; 3%Q].

Definition same_points : list Q := [0%Q; 0%Q].

Definition two_points : list Q := [0%Q; 5%Q].
Definition five_points : list Q := [0%Q; 1%Q; 2%Q; 3%Q; 10%Q].

(** Draws under which every step exploits. *)
Definition greedy_draws (k : nat) : Q := 0%Q.

(** Draws that make the second ant explore once in the first iteration
    and the first ant of the second iteration explore twice. *)
Definition exploring_draws (k : nat) : Q :=
  match k with
  | 3 => (19 # 20)%Q
  | 4 => (4 # 5)%Q
  | 8 => (19 # 20)%Q
  | 9 => (9 # 10)%Q
  | 10 => (19 # 20)%Q
  | _ => 0%Q
  end.

(** Draws that make both ants of the first iteration explore twice, and
    every later step exploit. *)
Definition stray_draws (k : nat) : Q :=
  match k with
  | 1 => (19 # 20)%Q
  | 2 => (199 # 200)%Q
  | 3 => (19 # 20)%Q
  | 4 => (1 # 5)%Q
  | 6 => (19 # 20)%Q
  | 7 => (19 # 20)%Q
  | 8 => (19 # 20)%Q
  | 9 => (1 # 10)%Q
  | _ => 0%Q
  end.

(** The states of a run on three locations after 1 and after 3
    iterations. *)
Definition demo_state1 : colony :=
  Eval vm_compute in
    match run_iterations line greedy_draws 3 three_points 0 2 1 2 (1 # 2)
            (9 # 10) 1 (initial three_points) with
    | Ok st => st
    | _ => initial three_points
    end.


(** The ants of the second iteration of the run on three locations, the
    matrix after the deposits of the first route, and after the first
    edge of the second one. *)
Definition demo_ants : colony * list (list nat) * list num :=
  Eval vm_compute in
    match run_ants line greedy_draws 3 three_points 0 1 2 (9 # 10) 2
            demo_state1 [] [] with
    | Ok r => r
    | _ => (demo_state1, [], [])
    end.

Definition demo_deposit1 : matrix :=
  Eval vm_compute in
    match deposit_all
            (evaporate (1 # 2) (pheromone_matrix (fst (fst demo_ants))))
            (firstn 1 (snd (fst demo_ants))) 0 (snd demo_ants) with
    | Ok P => P
    | _ => []
    end.

Definition demo_deposit2 : matrix :=
  Eval vm_compute in
    match deposit_route demo_deposit1
            (firstn 2 (nth 1 (snd (fst demo_ants)) [])) 1 (snd demo_ants)
    with
    | Ok P => P
    | _ => []
    end.

(** The state after one iteration of two ants on four locations with
    the evaporation rate 1. *)
Definition wiped_state : colony :=
  Eval vm_compute in
    match run_iterations line exploring_draws 4 four_points 0 2 1 2 1
            (9 # 10) 1 (initial four_points) with
    | Ok st => st
    | _ => initial four_points
    end.

Definition revisit_draws (k : nat) : Q :=
  match k with
  | 0 => (19 # 20)%Q
  | 1 => (9 # 10)%Q
  | 2 => (19 # 20)%Q
  | 3 => (1 # 2)%Q
  | 6 => (19 # 20)%Q
  | 7 => (1 # 20)%Q
  | 11 => (19 # 20)%Q
  | 12 => (1 # 10)%Q
  | _ => 0%Q
  end.

Definition shuffled_points : list Q := [3%Q; 0%Q; 1%Q; 2%Q; 4%Q].

(** The three ants of a first iteration on four locations with the
    exploitation threshold 1. *)
Definition exploiting_ants : colony * list (list nat) * list num :=
  Eval vm_compute in
    match run_ants line exploring_draws 4 four_points 0 1 2 1 3
            (initial four_points) [] [] with
    | Ok r => r
    | _ => (initial four_points, [], [])
    end.

(** The initial pheromone matrix of three locations with another
    diagonal. *)
Definition marked_ones : matrix :=
  [[Fin 7; Fin 1; Fin 1]; [Fin 1; Fin 7; Fin 1]; [Fin 1; Fin 1; Fin 7]].

(** Places by their latitude in kilometres along one meridian. *)
Definition meridian (a b : Q * Q) : num := Fin (Qabs (fst a - fst b)).

Definition demo_geocoder (k : nat) (address : String.string) : reply :=
  if String.eqb address "Herning"%string then
    Found 0 9 "Herning, Danmark"%string
  else if String.eqb address "Sunds"%string then
    Found 1 9 "Sunds, Danmark"%string
  else if String.eqb address "Ikast"%string then
    Found 3 9 "Ikast, Danmark"%string
  else NoMatch.

(** A geocoder whose second answer is a timeout. *)
Definition flaky_geocoder (k : nat) (address : String.string) : reply :=
  match k with
  | 1 => TimedOut
  | _ => demo_geocoder k address
  end.

Definition demo_addresses : list String.string :=
  ["Herning"%string; "Nowhere"%string; "Sunds"%string; "Ikast"%string].

Definition demo_places : list place :=
  [(0%Q, 9%Q, "Herning, Danmark"%string);
   (1%Q, 9%Q, "Sunds, Danmark"%string);
   (3%Q, 9%Q, "Ikast, Danmark"%string)].

(** * Properties *)

(** The first step of a computation that succeeds. *)
Ltac inv_bind H :=
  match type of H with
  | bind ?m _ = Ok _ =>
      let E := fresh "E" in
      destruct m eqn:E; cbn [bind] in H; try discriminate H
  end.

(** ** The embedding at work *)

Example route_of_three_points :
  construct_route line greedy_draws 3 three_points 0 1 2 (9 # 10) (ones 3) 0
  = Ok ([0; 1; 2; 0], Fin 6, 2).
Proof. vm_compute. reflexivity. Qed.

Example solve_three_points :
  solve_aco line greedy_draws 3 three_points 0 2 2 1 2 (1 # 2) (9 # 10)
  = Ok (Some [0; 1; 2; 0]).
Proof. vm_compute. reflexivity. Qed.

(** The second ant of the first iteration explores once and returns
    another tour than the first. *)
Example routes_of_four_points :
  (r <- run_ants line exploring_draws 4 four_points 0 1 2 (9 # 10) 2
          (initial four_points) [] [] ;;
   Ok (snd (fst r), snd r))
  = Ok ([[0; 1; 2; 3; 0]; [0; 2; 1; 3; 0]], [Fin 6; Fin 8]).
Proof. vm_compute. reflexivity. Qed.

(** [max] keeps a first element that is [nan], and skips a later one. *)
Example index_of_max_nan_first : index_of_max [NaN; Fin 1] = Ok 0.
Proof. reflexivity. Qed.

Example index_of_max_nan_later : index_of_max [Fin 0; NaN; Fin 1] = Ok 2.
Proof. reflexivity. Qed.

Example index_of_max_tie :
  index_of_max [Fin 0; Fin (1 # 2); Fin (1 # 2)] = Ok 1.
Proof. reflexivity. Qed.

Example choices_nan : choices 2 [Fin 0; NaN] (1 # 2) = Raise ValueError.
Proof. reflexivity. Qed.

Example choices_half :
  choices 3 [Fin (1 # 4); Fin (1 # 4); Fin (1 # 2)] (1 # 2) = Ok 2.
Proof. reflexivity. Qed.

(** ** Arithmetic of the extended rationals *)

Section NumFacts.

Local Open Scope Q_scope.

Lemma Qltb_lt (a b : Q) : Qltb a b = true <-> a < b.
Proof.
  unfold Qltb. rewrite negb_true_iff. split; intro H.
  - apply Qnot_le_lt. intro Hle. apply Qle_bool_iff in Hle. congruence.
  - destruct (Qle_bool b a) eqn:E; [|reflexivity].
    apply Qle_bool_iff in E. exfalso. apply (Qlt_not_le _ _ H E).
Qed.

Lemma Qltb_ge (a b : Q) : Qltb a b = false <-> b <= a.
Proof.
  unfold Qltb. rewrite negb_false_iff. apply Qle_bool_iff.
Qed.

Lemma positive_Fin (q : Q) : positive (Fin q) <-> 0 < q.
Proof.
  split.
  - intros [q' [E H]]. injection E as ->. exact H.
  - intro H. exists q. split; [reflexivity | exact H].
Qed.

Lemma nonneg_Fin (q : Q) : nonneg (Fin q) <-> 0 <= q.
Proof.
  split.
  - intros [q' [E H]]. injection E as ->. exact H.
  - intro H. exists q. split; [reflexivity | exact H].
Qed.

Lemma positive_nonneg (x : num) : positive x -> nonneg x.
Proof.
  intros [q [-> H]]. apply nonneg_Fin. apply Qlt_le_weak, H.
Qed.

Lemma nonneg_add (x y : num) : nonneg x -> nonneg y -> nonneg (add x y).
Proof.
  intros [a [-> Ha]] [b [-> Hb]]. apply nonneg_Fin. lra.
Qed.

Lemma positive_add_l (x y : num) :
  positive x -> nonneg y -> positive (add x y).
Proof.
  intros [a [-> Ha]] [b [-> Hb]]. apply positive_Fin. lra.
Qed.

Lemma positive_add_r (x y : num) :
  nonneg x -> positive y -> positive (add x y).
Proof.
  intros [a [-> Ha]] [b [-> Hb]]. apply positive_Fin. lra.
Qed.

Lemma positive_mul (x y : num) :
  positive x -> positive y -> positive (mul x y).
Proof.
  intros [a [-> Ha]] [b [-> Hb]]. apply positive_Fin.
  apply Qmult_lt_0_compat; assumption.
Qed.

Lemma nonneg_mul (x y : num) : nonneg x -> nonneg y -> nonneg (mul x y).
Proof.
  intros [a [-> Ha]] [b [-> Hb]]. apply nonneg_Fin.
  apply Qmult_le_0_compat; assumption.
Qed.

Lemma Qeq_bool_pos (q : Q) : 0 < q -> Qeq_bool q 0 = false.
Proof.
  intro H. destruct (Qeq_bool q 0) eqn:E; [|reflexivity].
  apply Qeq_bool_iff in E. lra.
Qed.

Lemma positive_pow (x : num) (z : Z) : positive x -> positive (pow x z).
Proof.
  intros [a [-> Ha]]. unfold pow.
  destruct (z =? 0)%Z.
  - apply positive_Fin. reflexivity.
  - rewrite (Qeq_bool_pos Ha). simpl. apply positive_Fin.
    apply Qpower_0_lt, Ha.
Qed.

Lemma positive_div (x y : num) :
  positive x -> positive y -> positive (div x y).
Proof.
  intros [a [-> Ha]] [b [-> Hb]]. unfold div.
  rewrite (Qeq_bool_pos Hb). apply positive_Fin.
  apply Qlt_shift_div_l; lra.
Qed.

Lemma div_Fin_pos (a b : Q) : 0 < b -> div (Fin a) (Fin b) = Fin (a / b).
Proof.
  intro Hb. unfold div. now rewrite (Qeq_bool_pos Hb).
Qed.

Lemma Qdiv_pos_pos (a b : Q) : 0 < a -> 0 < b -> 0 < a / b.
Proof.
  intros Ha Hb. apply Qlt_shift_div_l; lra.
Qed.

Lemma Qdiv_zero (a b : Q) : a == 0 -> a / b == 0.
Proof.
  intro H. rewrite H. unfold Qdiv. ring.
Qed.

Lemma ltb_PInf (x : num) : positive x -> ltb x PInf = true.
Proof.
  intros [a [-> _]]. reflexivity.
Qed.

End NumFacts.

(** ** Lists and matrices *)

Lemma length_set_nth (A : Type) (l : list A) (i : nat) (x : A) :
  length (set_nth l i x) = length l.
Proof.
  revert i. induction l as [|h t IH]; intros [|i]; simpl; auto.
Qed.

Lemma nth_error_set_nth (A : Type) (l : list A) (i k : nat) (x : A) :
  i < length l ->
  nth_error (set_nth l i x) k = if k =? i then Some x else nth_error l k.
Proof.
  revert i k. induction l as [|h t IH]; intros i k Hi; simpl in Hi.
  - lia.
  - destruct i as [|i], k as [|k]; simpl; auto.
    apply IH. lia.
Qed.

Lemma get2_Ok_inv (M : matrix) (i j : nat) (x : num) :
  get2 M i j = Ok x ->
  exists row, nth_error M i = Some row /\ nth_error row j = Some x.
Proof.
  unfold get2. destruct (nth_error M i) as [row|]; [|discriminate].
  destruct (nth_error row j) as [y|] eqn:Ey; [|discriminate].
  intro H. injection H as ->. exists row. split; [reflexivity | exact Ey].
Qed.

Lemma get2_square (n : nat) (M : matrix) (i j : nat) :
  square n M -> i < n -> j < n -> exists x, get2 M i j = Ok x.
Proof.
  intros [Hlen Hrows] Hi Hj. unfold get2.
  destruct (nth_error M i) as [row|] eqn:Er.
  - assert (Hrow : length row = n).
    { rewrite Forall_forall in Hrows. apply Hrows.
      eapply nth_error_In; eauto. }
    destruct (nth_error row j) as [x|] eqn:Ex; [eauto|].
    apply nth_error_None in Ex. lia.
  - apply nth_error_None in Er. lia.
Qed.

Lemma get2_Ok_lt (n : nat) (M : matrix) (i j : nat) (x : num) :
  square n M -> get2 M i j = Ok x -> i < n /\ j < n.
Proof.
  intros [Hlen Hrows] H. apply get2_Ok_inv in H.
  destruct H as [row [Er Ex]].
  assert (Hrow : length row = n).
  { rewrite Forall_forall in Hrows. apply Hrows.
    eapply nth_error_In; eauto. }
  split.
  - rewrite <- Hlen. apply nth_error_Some. congruence.
  - rewrite <- Hrow. apply nth_error_Some. congruence.
Qed.

Lemma square_ones (n : nat) : square n (ones n).
Proof.
  unfold square, ones. split.
  - apply repeat_length.
  - apply Forall_forall. intros row Hin.
    apply repeat_spec in Hin. subst. apply repeat_length.
Qed.

Lemma get2_ones (n i j : nat) (x : num) :
  get2 (ones n) i j = Ok x -> x = Fin 1.
Proof.
  intro H. apply get2_Ok_inv in H. destruct H as [row [Er Ex]].
  apply nth_error_In in Er. apply repeat_spec in Er. subst row.
  apply nth_error_In in Ex. apply repeat_spec in Ex. exact Ex.
Qed.

Lemma add_at_Ok (n : nat) (M : matrix) (i j : nat) (a : num) :
  square n M -> i < n -> j < n -> exists M', add_at M i j a = Ok M'.
Proof.
  intros Hsq Hi Hj. destruct (get2_square Hsq Hi Hj) as [x Hx].
  apply get2_Ok_inv in Hx. destruct Hx as [row [Er Ex]].
  unfold add_at. rewrite Er, Ex. eauto.
Qed.

Lemma add_at_square (n : nat) (M M' : matrix) (i j : nat) (a : num) :
  square n M -> add_at M i j a = Ok M' -> square n M'.
Proof.
  intros [Hlen Hrows] H. unfold add_at in H.
  destruct (nth_error M i) as [row|] eqn:Er; [|discriminate].
  destruct (nth_error row j) as [x|] eqn:Ex; [|discriminate].
  injection H as <-. split.
  - now rewrite length_set_nth.
  - apply Forall_forall. intros r Hin.
    apply In_nth_error in Hin. destruct Hin as [k Hk].
    assert (Hi : i < length M) by (apply nth_error_Some; congruence).
    rewrite nth_error_set_nth in Hk by exact Hi.
    rewrite Forall_forall in Hrows.
    destruct (k =? i).
    + injection Hk as <-. rewrite length_set_nth.
      apply Hrows. eapply nth_error_In; eauto.
    + apply Hrows. eapply nth_error_In; eauto.
Qed.

(** Reading a matrix after [M[i, j] += a]. *)
Lemma get2_add_at (M M' : matrix) (i j : nat) (a : num) (k l : nat) :
  add_at M i j a = Ok M' ->
  get2 M' k l =
  if (k =? i) && (l =? j) then x <- get2 M k l ;; Ok (add x a)
  else get2 M k l.
Proof.
  intro H. unfold add_at in H.
  destruct (nth_error M i) as [row|] eqn:Er; [|discriminate].
  destruct (nth_error row j) as [x|] eqn:Ex; [|discriminate].
  injection H as <-.
  assert (Hi : i < length M) by (apply nth_error_Some; congruence).
  assert (Hj : j < length row) by (apply nth_error_Some; congruence).
  unfold get2. rewrite nth_error_set_nth by exact Hi.
  destruct (k =? i) eqn:Eki; simpl.
  - apply Nat.eqb_eq in Eki. subst k. rewrite Er.
    rewrite nth_error_set_nth by exact Hj.
    destruct (l =? j) eqn:Elj; simpl.
    + apply Nat.eqb_eq in Elj. subst l. rewrite Ex. reflexivity.
    + reflexivity.
  - reflexivity.
Qed.

Lemma get2_map (f : num -> num) (M : matrix) (i j : nat) :
  get2 (map (map f) M) i j = x <- get2 M i j ;; Ok (f x).
Proof.
  unfold get2. rewrite nth_error_map.
  destruct (nth_error M i) as [row|]; simpl; [|reflexivity].
  rewrite nth_error_map. destruct (nth_error row j); reflexivity.
Qed.

Lemma square_map (f : num -> num) (n : nat) (M : matrix) :
  square n M -> square n (map (map f) M).
Proof.
  intros [Hlen Hrows]. split.
  - now rewrite length_map.
  - apply Forall_forall. intros r Hin. apply in_map_iff in Hin.
    destruct Hin as [r0 [<- Hin0]]. rewrite length_map.
    rewrite Forall_forall in Hrows. now apply Hrows.
Qed.

Lemma set_add_new (x : nat) (l : set nat) :
  ~ In x l -> set_add Nat.eq_dec x l = l ++ [x].
Proof.
  induction l as [|h t IH]; simpl; intro H; [reflexivity|].
  destruct (Nat.eq_dec x h) as [->|Hne].
  - exfalso. apply H. now left.
  - f_equal. apply IH. intro Hin. apply H. now right.
Qed.

Lemma set_add_old (x : nat) (l : set nat) :
  In x l -> set_add Nat.eq_dec x l = l.
Proof.
  induction l as [|h t IH]; simpl; intro H; [contradiction|].
  destruct (Nat.eq_dec x h) as [->|Hne]; [reflexivity|].
  f_equal. apply IH. destruct H as [H|H]; [congruence|exact H].
Qed.

Lemma set_mem_In (x : nat) (l : set nat) :
  set_mem Nat.eq_dec x l = true <-> In x l.
Proof.
  split.
  - apply set_mem_correct1.
  - apply set_mem_correct2.
Qed.

Lemma last_snoc (l : list nat) (x d : nat) : last (l ++ [x]) d = x.
Proof. apply last_last. Qed.

Lemma hd_snoc (l : list nat) (x d : nat) :
  l <> [] -> hd d (l ++ [x]) = hd d l.
Proof. destruct l; [congruence | reflexivity]. Qed.

(** ** The library functions on finite values *)

Section LibraryFacts.

Local Open Scope Q_scope.

Lemma accumulate_from_Fin (l : list Q) (a : Q) :
  accumulate_from (Fin a) (map Fin l) = map Fin (Qaccumulate_from a l).
Proof.
  revert a. induction l as [|x t IH]; intro a; simpl; [reflexivity|].
  now rewrite IH.
Qed.

Lemma accumulate_Fin (l : list Q) :
  accumulate (map Fin l) = map Fin (Qaccumulate l).
Proof.
  destruct l as [|x t]; simpl; [reflexivity|].
  now rewrite accumulate_from_Fin.
Qed.

Lemma length_Qaccumulate_from (l : list Q) (a : Q) :
  length (Qaccumulate_from a l) = length l.
Proof.
  revert a. induction l as [|x t IH]; intro a; simpl; auto.
Qed.

Lemma length_Qaccumulate (l : list Q) : length (Qaccumulate l) = length l.
Proof.
  destruct l; simpl; [reflexivity|]. now rewrite length_Qaccumulate_from.
Qed.

Lemma nth_Qaccumulate_from (l : list Q) (a : Q) (k : nat) :
  (S k < length l)%nat ->
  nth (S k) (Qaccumulate_from a l) 0 =
  nth k (Qaccumulate_from a l) 0 + nth (S k) l 0.
Proof.
  revert a k. induction l as [|x t IH]; intros a k Hk; simpl in Hk.
  - lia.
  - destruct k as [|k].
    + destruct t as [|y t']; simpl in *; [lia | reflexivity].
    + simpl. apply (IH (a + x) k). lia.
Qed.

(** Each running sum is the previous one plus the next weight. *)
Lemma nth_Qaccumulate_S (l : list Q) (k : nat) :
  (S k < length l)%nat ->
  nth (S k) (Qaccumulate l) 0 = nth k (Qaccumulate l) 0 + nth (S k) l 0.
Proof.
  destruct l as [|x t]; simpl; intro Hk; [lia|].
  destruct k as [|k].
  - destruct t as [|y t']; simpl in *; [lia | reflexivity].
  - apply (nth_Qaccumulate_from t x (k := k)). lia.
Qed.

Lemma nth_Qaccumulate_0 (l : list Q) : nth 0 (Qaccumulate l) 0 = nth 0 l 0.
Proof. destruct l; reflexivity. Qed.

Lemma last_cons_default (c : Q) (cs : list Q) (d d' : Q) :
  last (c :: cs) d = last (c :: cs) d'.
Proof.
  revert c. induction cs as [|c' cs IH]; intro c; simpl.
  - reflexivity.
  - apply (IH c').
Qed.

Lemma last_Qaccumulate_from_ge (l : list Q) (a : Q) :
  Forall (fun q => 0 <= q) l -> a <= last (Qaccumulate_from a l) a.
Proof.
  revert a. induction l as [|x t IH]; intros a Hl; simpl.
  - lra.
  - inversion Hl as [|? ? Hx Ht]; subst.
    specialize (IH (a + x) Ht).
    destruct (Qaccumulate_from (a + x) t) as [|c cs] eqn:E.
    + lra.
    + rewrite (last_cons_default c cs a (a + x)). lra.
Qed.

Lemma last_Qaccumulate_from_gt (l : list Q) (a : Q) :
  Forall (fun q => 0 <= q) l -> Exists (fun q => 0 < q) l ->
  a < last (Qaccumulate_from a l) a.
Proof.
  revert a. induction l as [|x t IH]; intros a Hl He; simpl.
  - inversion He.
  - inversion Hl as [|? ? Hx Ht]; subst.
    destruct (Qaccumulate_from (a + x) t) as [|c cs] eqn:E.
    + destruct t; [|discriminate].
      inversion He as [? ? Hpos|? ? Hex]; subst; [lra | inversion Hex].
    + rewrite (last_cons_default c cs a (a + x)). rewrite <- E.
      inversion He as [? ? Hpos|? ? Hex]; subst.
      * pose proof (last_Qaccumulate_from_ge (a + x) Ht). lra.
      * specialize (IH (a + x) Ht Hex). lra.
Qed.

(** The total of the weights is positive when they are non-negative and
    one of them is positive. *)
Lemma last_Qaccumulate_pos (l : list Q) :
  Forall (fun q => 0 <= q) l -> Exists (fun q => 0 < q) l ->
  0 < last (Qaccumulate l) 0.
Proof.
  destruct l as [|x t]; intros Hl He; simpl.
  - inversion He.
  - inversion Hl as [|? ? Hx Ht]; subst.
    destruct (Qaccumulate_from x t) as [|c cs] eqn:E.
    + destruct t; [|discriminate].
      inversion He as [? ? Hpos|? ? Hex]; subst; [lra | inversion Hex].
    + rewrite (last_cons_default c cs 0 x). rewrite <- E.
      inversion He as [? ? Hpos|? ? Hex]; subst.
      * pose proof (last_Qaccumulate_from_ge x Ht). lra.
      * pose proof (last_Qaccumulate_from_gt x Ht Hex). lra.
Qed.

Lemma last_nth (l : list Q) (d : Q) :
  last l d = nth (length l - 1) l d.
Proof.
  induction l as [|x t IH]; simpl; [reflexivity|].
  destruct t as [|y t']; [reflexivity|].
  rewrite IH. simpl. now rewrite Nat.sub_0_r.
Qed.

(** What the binary search returns, for any list. *)
Lemma bisect_loop_spec (a : list num) (x : num) (n lo hi : nat) :
  (lo <= hi)%nat -> (hi - lo <= n)%nat ->
  let r := bisect_loop n a x lo hi in
  (lo <= r <= hi)%nat /\
  (r = hi \/ ltb x (nth r a NaN) = true) /\
  (r = lo \/ ltb x (nth (r - 1) a NaN) = false).
Proof.
  revert lo hi. induction n as [|n IH]; intros lo hi Hle Hn;
    cbn [bisect_loop]; cbv zeta.
  - assert (lo = hi) by lia. subst. repeat split; auto.
  - destruct (lo <? hi)%nat eqn:Elt.
    + apply Nat.ltb_lt in Elt.
      assert (Hmid : (lo <= (lo + hi) / 2 < hi)%nat).
      { split.
        - apply Nat.div_le_lower_bound; lia.
        - apply Nat.Div0.div_lt_upper_bound; lia. }
      set (mid := ((lo + hi) / 2)%nat) in *. clearbody mid.
      destruct (ltb x (nth mid a NaN)) eqn:Ex.
      * destruct (IH lo mid) as [Hr [Hhi Hlo]]; [lia | lia |].
        repeat split; try lia.
        -- right. destruct Hhi as [->|Hhi]; assumption.
        -- exact Hlo.
      * destruct (IH (S mid) hi) as [Hr [Hhi Hlo]]; [lia | lia |].
        repeat split; try lia.
        -- exact Hhi.
        -- right. destruct Hlo as [->|Hlo]; [|assumption].
           simpl. now rewrite Nat.sub_0_r.
    + apply Nat.ltb_ge in Elt. assert (lo = hi) by lia. subst.
      repeat split; auto.
Qed.

End LibraryFacts.

Section ChoiceFacts.

Local Open Scope Q_scope.

Lemma nth_map_Fin (l : list Q) (k : nat) :
  (k < length l)%nat -> nth k (map Fin l) NaN = Fin (nth k l 0).
Proof.
  intro Hk. rewrite (nth_indep _ NaN (Fin 0)) by now rewrite length_map.
  apply (map_nth Fin).
Qed.

Lemma last_map_Fin (c : Q) (cs : list Q) :
  last (map Fin (c :: cs)) NaN = Fin (last (c :: cs) 0).
Proof.
  revert c. induction cs as [|c' cs IH]; intro c; [reflexivity|].
  apply (IH c').
Qed.

(** [max] and [index] on finite values: the first position that holds
    the greatest value. *)
Lemma argmax_from_Fin (rest pre : list Q) (b : nat) (bv : Q) :
  (b < length pre)%nat -> nth b pre 0 = bv ->
  (forall j, (j < length pre)%nat -> nth j pre 0 <= bv) ->
  (forall j, (j < b)%nat -> nth j pre 0 < bv) ->
  let L := pre ++ rest in
  let r := argmax_from b (Fin bv) (length pre) (map Fin rest) in
  (r < length L)%nat /\
  (forall j, (j < length L)%nat -> nth j L 0 <= nth r L 0) /\
  (forall j, (j < r)%nat -> nth j L 0 < nth r L 0).
Proof.
  revert pre b bv. induction rest as [|x t IH]; intros pre b bv Hb Hbv Hle Hlt.
  - simpl. rewrite app_nil_r. rewrite Hbv. auto.
  - cbn [map argmax_from ltb]. cbv zeta.
    assert (Hlen : length (pre ++ [x]) = S (length pre)).
    { rewrite length_app. simpl. lia. }
    assert (Hx : nth (length pre) (pre ++ [x]) 0 = x).
    { rewrite app_nth2 by lia. now rewrite Nat.sub_diag. }
    assert (Happ : pre ++ x :: t = (pre ++ [x]) ++ t).
    { now rewrite <- app_assoc. }
    rewrite Happ.
    destruct (Qltb bv x) eqn:E.
    + apply Qltb_lt in E. rewrite <- Hlen.
      apply (IH (pre ++ [x]) (length pre) x).
      * lia.
      * exact Hx.
      * intros j Hj. rewrite Hlen in Hj.
        destruct (Nat.eq_dec j (length pre)) as [->|Hne].
        -- rewrite Hx. lra.
        -- rewrite app_nth1 by lia.
           assert (nth j pre 0 <= bv) by (apply Hle; lia). lra.
      * intros j Hj. rewrite app_nth1 by lia.
        assert (nth j pre 0 <= bv) by (apply Hle; lia). lra.
    + apply Qltb_ge in E. rewrite <- Hlen.
      apply (IH (pre ++ [x]) b bv).
      * lia.
      * rewrite app_nth1 by lia. exact Hbv.
      * intros j Hj. rewrite Hlen in Hj.
        destruct (Nat.eq_dec j (length pre)) as [->|Hne].
        -- rewrite Hx. exact E.
        -- rewrite app_nth1 by lia. apply Hle. lia.
      * intros j Hj. rewrite app_nth1 by lia. now apply Hlt.
Qed.

Lemma index_of_max_Fin (l : list Q) :
  l <> [] ->
  exists r, index_of_max (map Fin l) = Ok r /\
    (r < length l)%nat /\
    (forall j, (j < length l)%nat -> nth j l 0 <= nth r l 0) /\
    (forall j, (j < r)%nat -> nth j l 0 < nth r l 0).
Proof.
  destruct l as [|q qs]; [congruence|]. intros _.
  exists (argmax_from 0 (Fin q) 1 (map Fin qs)). split; [reflexivity|].
  apply (argmax_from_Fin qs [q] (b := 0) (bv := q)); simpl.
  - lia.
  - reflexivity.
  - intros j Hj. assert (j = 0)%nat as -> by lia. simpl. lra.
  - intros j Hj. lia.
Qed.

(** What [random.choices] returns on finite non-negative weights that
    are not all zero: the position whose interval of running sums holds
    the drawn point. *)
Lemma choices_Fin (l : list Q) (u : Q) (n : nat) :
  length l = n ->
  Forall (fun q => 0 <= q) l -> Exists (fun q => 0 < q) l ->
  0 <= u < 1 ->
  exists r, choices n (map Fin l) u = Ok r /\
    (r < n)%nat /\
    u * (last (Qaccumulate l) 0 + 0) < nth r (Qaccumulate l) 0 /\
    (r = 0%nat \/
     nth (r - 1) (Qaccumulate l) 0 <= u * (last (Qaccumulate l) 0 + 0)).
Proof.
  intros Hlen Hnn Hex Hu.
  pose proof (last_Qaccumulate_pos Hnn Hex) as HT.
  pose proof (length_Qaccumulate l) as Hlc.
  unfold choices. rewrite accumulate_Fin, length_map, Hlc, Hlen.
  rewrite Nat.eqb_refl. cbn [negb].
  destruct (Qaccumulate l) as [|c cs] eqn:Ec.
  { simpl in HT. lra. }
  cbn [map]. change (Fin c :: map Fin cs) with (map Fin (c :: cs)).
  rewrite last_map_Fin. cbn [add leb is_finite negb].
  set (T := last (c :: cs) 0) in *.
  assert (Hleb : Qle_bool (T + 0) 0 = false).
  { destruct (Qle_bool (T + 0) 0) eqn:E; [|reflexivity].
    apply Qle_bool_iff in E. lra. }
  rewrite Hleb. cbn [mul].
  eexists. split; [reflexivity|].
  unfold bisect.
  assert (Hn : (0 < n)%nat) by (rewrite <- Hlen, <- Hlc; simpl; lia).
  destruct (@bisect_loop_spec (map Fin (c :: cs)) (Fin (u * (T + 0)))
              (n - 1 - 0) 0 (n - 1)) as [Hr [Hhi Hlo]]; [lia | lia |].
  set (r := bisect_loop (n - 1 - 0) (map Fin (c :: cs))
              (Fin (u * (T + 0))) 0 (n - 1)) in *.
  assert (Hlcs : length (c :: cs) = n) by congruence.
  split; [lia|]. split.
  - destruct Hhi as [Hhi|Hhi].
    + assert (nth r (c :: cs) 0 = T) as ->.
      { unfold T. rewrite last_nth. rewrite Hlcs. now rewrite Hhi. }
      assert (u * (T + 0) == u * T) as -> by ring.
      assert (u * T < 1 * T) by (apply Qmult_lt_compat_r; lra). lra.
    + rewrite nth_map_Fin in Hhi by lia. now apply Qltb_lt in Hhi.
  - destruct Hlo as [Hlo|Hlo]; [now left | right].
    rewrite nth_map_Fin in Hlo by lia. now apply Qltb_ge in Hlo.
Qed.

(** The position returned by [random.choices] has a positive weight. *)
Lemma choices_Fin_positive (l : list Q) (u : Q) (n : nat) :
  length l = n ->
  Forall (fun q => 0 <= q) l -> Exists (fun q => 0 < q) l ->
  0 <= u < 1 ->
  exists r, choices n (map Fin l) u = Ok r /\
    (r < n)%nat /\ 0 < nth r l 0.
Proof.
  intros Hlen Hnn Hex Hu.
  destruct (choices_Fin Hlen Hnn Hex Hu) as [r [Hc [Hr [Hup Hlow]]]].
  exists r. split; [exact Hc|]. split; [exact Hr|].
  pose proof (last_Qaccumulate_pos Hnn Hex) as HT.
  set (T := last (Qaccumulate l) 0) in *.
  assert (Hx : 0 <= u * (T + 0)).
  { apply Qmult_le_0_compat; lra. }
  destruct r as [|r].
  - rewrite nth_Qaccumulate_0 in Hup. lra.
  - destruct Hlow as [Hlow|Hlow]; [discriminate|].
    simpl in Hlow. rewrite Nat.sub_0_r in Hlow.
    rewrite nth_Qaccumulate_S in Hup by lia. lra.
Qed.

End ChoiceFacts.

(** ** One step of route construction *)

Section StepFacts.

Local Open Scope Q_scope.

Variable loc : Type.
Variable geodesic : loc -> loc -> num.
Variable draws : nat -> Q.
Variable locations : list loc.
Variables alpha beta : Z.
Variable q0 : Q.

Local Abbreviation N := (num_locations locations).
Local Abbreviation D := (distance_matrix geodesic locations).

Lemma get2_distance (i j : nat) :
  get2 D i j =
  match nth_error locations i, nth_error locations j with
  | Some a, Some b => Ok (geodesic a b)
  | _, _ => Raise IndexError
  end.
Proof.
  unfold get2, distance_matrix. rewrite nth_error_map.
  destruct (nth_error locations i) as [a|]; simpl; [|reflexivity].
  rewrite nth_error_map. destruct (nth_error locations j); reflexivity.
Qed.

Lemma get2_distance_lt (i j : nat) :
  (i < N)%nat -> (j < N)%nat ->
  exists a b, nth_error locations i = Some a /\
    nth_error locations j = Some b /\ get2 D i j = Ok (geodesic a b).
Proof.
  intros Hi Hj. rewrite get2_distance.
  destruct (nth_error locations i) as [a|] eqn:Ea.
  - destruct (nth_error locations j) as [b|] eqn:Eb.
    + exists a, b. auto.
    + apply nth_error_None in Eb. unfold num_locations in Hj. lia.
  - apply nth_error_None in Ea. unfold num_locations in Hi. lia.
Qed.

Lemma get2_distance_Ok (i j : nat) (x : num) :
  get2 D i j = Ok x ->
  exists a b, nth_error locations i = Some a /\
    nth_error locations j = Some b /\ x = geodesic a b /\
    (i < N)%nat /\ (j < N)%nat.
Proof.
  rewrite get2_distance.
  destruct (nth_error locations i) as [a|] eqn:Ea; [|discriminate].
  destruct (nth_error locations j) as [b|] eqn:Eb; [|discriminate].
  intro H. injection H as <-. exists a, b.
  repeat split; auto; unfold num_locations; apply nth_error_Some;
    congruence.
Qed.

Lemma scores_Fin (P : matrix) (current : nat) (visited : set nat)
  (candidates : list nat) :
  square N P -> offdiag_cells positive P ->
  valid_distances geodesic locations ->
  (current < N)%nat -> In current visited ->
  Forall (fun j => (j < N)%nat) candidates ->
  exists qs,
    scores geodesic locations alpha beta P current visited candidates
    = Ok (map Fin qs) /\
    Forall2 (weight_of visited) candidates qs.
Proof.
  intros Hsq Hpos Hval Hcur Hin.
  induction candidates as [|j rest IH]; intro Hc.
  - exists []. split; [reflexivity | constructor].
  - inversion Hc as [|? ? Hj Hrest]; subst.
    destruct (IH Hrest) as [qs [Hs Hw]].
    cbn [scores]. unfold score.
    destruct (set_mem Nat.eq_dec j visited) eqn:Em.
    + apply set_mem_In in Em. cbn [bind]. rewrite Hs. cbn [bind].
      exists (0 :: qs). split; [reflexivity|]. constructor; [|exact Hw].
      split; [reflexivity | contradiction].
    + assert (Hnin : ~ In j visited).
      { intro Hj'. apply set_mem_In in Hj'. congruence. }
      assert (Hne : current <> j) by congruence.
      destruct (get2_square Hsq Hcur Hj) as [p Hp].
      destruct (get2_distance_lt Hcur Hj) as [a [b [Ha [Hb Hd]]]].
      rewrite Hp, Hd. cbn [bind]. rewrite Hs. cbn [bind].
      assert (Hq : positive (mul (pow p alpha) (pow (geodesic a b) (- beta)))).
      { apply positive_mul; apply positive_pow.
        - exact (Hpos _ _ _ Hp Hne).
        - exact (Hval _ _ _ _ Ha Hb Hne). }
      destruct Hq as [q [Eq Hq]]. rewrite Eq.
      exists (q :: qs). split; [reflexivity|]. constructor; [|exact Hw].
      split; [contradiction | auto].
Qed.

Lemma py_sum_from_Fin (l : list Q) (a : Q) :
  fold_left add (map Fin l) (Fin a) = Fin (fold_left Qplus l a).
Proof.
  revert a. induction l as [|x t IH]; intro a; simpl; [reflexivity|].
  apply IH.
Qed.

Lemma fold_Qplus_ge (l : list Q) (a : Q) :
  Forall (fun q => 0 <= q) l -> a <= fold_left Qplus l a.
Proof.
  revert a. induction l as [|x t IH]; intros a Hl; simpl; [lra|].
  inversion Hl as [|? ? Hx Ht]; subst.
  specialize (IH (a + x) Ht). lra.
Qed.

Lemma fold_Qplus_gt (l : list Q) (a : Q) :
  Forall (fun q => 0 <= q) l -> Exists (fun q => 0 < q) l ->
  a < fold_left Qplus l a.
Proof.
  revert a. induction l as [|x t IH]; intros a Hl He; simpl.
  - inversion He.
  - inversion Hl as [|? ? Hx Ht]; subst.
    inversion He as [? ? Hpos|? ? Hex]; subst.
    + pose proof (fold_Qplus_ge (a + x) Ht). lra.
    + specialize (IH (a + x) Ht Hex). lra.
Qed.

Lemma normalize_Fin (l : list Q) :
  0 < fold_left Qplus l 0 ->
  normalize (map Fin l)
  = map Fin (map (fun q => q / fold_left Qplus l 0) l).
Proof.
  intro HS. unfold normalize, py_sum. rewrite py_sum_from_Fin.
  rewrite !map_map. apply map_ext. intro q. now apply div_Fin_pos.
Qed.

End StepFacts.

Section ChooseFacts.

Local Open Scope Q_scope.

Variable draws : nat -> Q.
Variable loc : Type.
Variable locations : list loc.
Variable q0 : Q.

Local Abbreviation N := (num_locations locations).

Lemma Forall2_seq_nth (R : nat -> Q -> Prop) (qs : list Q) (a n : nat) :
  Forall2 R (seq a n) qs ->
  length qs = n /\ forall k, (k < n)%nat -> R (a + k)%nat (nth k qs 0).
Proof.
  revert a qs. induction n as [|n IH]; intros a qs H; simpl in H.
  - inversion H; subst. split; [reflexivity | intros; lia].
  - inversion H as [|? q ? qs' Hq Hrest]; subst.
    destruct (IH _ _ Hrest) as [Hlen Hnth]. split.
    + simpl. now rewrite Hlen.
    + intros [|k] Hk; simpl.
      * now rewrite Nat.add_0_r.
      * replace (a + S k)%nat with (S a + k)%nat by lia.
        apply Hnth. lia.
Qed.

(** Some location is unvisited as long as the visited set is not full. *)
Lemma exists_unvisited (visited : set nat) (n : nat) :
  (length visited < n)%nat -> exists j, (j < n)%nat /\ ~ In j visited.
Proof.
  intro Hlen.
  destruct (find (fun j => negb (set_mem Nat.eq_dec j visited)) (seq 0 n))
    as [j|] eqn:E.
  - apply find_some in E. destruct E as [Hin Hj].
    apply in_seq in Hin. exists j. split; [lia|].
    intro Hv. apply set_mem_In in Hv. rewrite Hv in Hj. discriminate.
  - exfalso.
    assert (Hincl : incl (seq 0 n) visited).
    { intros j Hj. pose proof (find_none _ _ E _ Hj) as Hn.
      apply negb_false_iff in Hn. now apply set_mem_In. }
    pose proof (NoDup_incl_length (seq_NoDup n 0) Hincl) as Hle.
    rewrite length_seq in Hle. lia.
Qed.

Section Weights.

Variable visited : set nat.
Variable qs : list Q.
Hypothesis qs_length : length qs = N.
Hypothesis qs_weights :
  forall j, (j < N)%nat -> weight_of visited j (nth j qs 0).

Lemma weights_nonneg : Forall (fun q => 0 <= q) qs.
Proof.
  apply Forall_forall. intros q Hin.
  apply (In_nth _ _ 0) in Hin. destruct Hin as [j [Hj <-]].
  rewrite qs_length in Hj. destruct (qs_weights Hj) as [Hv Hu].
  destruct (in_dec Nat.eq_dec j visited) as [Hin|Hnin].
  - rewrite (Hv Hin). lra.
  - apply Qlt_le_weak. auto.
Qed.

Lemma weights_exists (j : nat) :
  (j < N)%nat -> ~ In j visited -> Exists (fun q => 0 < q) qs.
Proof.
  intros Hj Hnin. apply Exists_exists. exists (nth j qs 0). split.
  - apply nth_In. now rewrite qs_length.
  - now apply (qs_weights Hj).
Qed.

Lemma weights_positive_unvisited (j : nat) :
  (j < N)%nat -> 0 < nth j qs 0 -> ~ In j visited.
Proof.
  intros Hj Hpos Hin. destruct (qs_weights Hj) as [Hv _].
  rewrite (Hv Hin) in Hpos. lra.
Qed.

(** The location chosen from such weights is an unvisited one. *)
Lemma choose_next_weights (pos : nat) :
  unit_draws draws ->
  (exists j, (j < N)%nat /\ ~ In j visited) ->
  exists next pos',
    choose_next draws locations q0 (map Fin qs) pos = Ok (next, pos') /\
    (next < N)%nat /\ ~ In next visited.
Proof.
  intros Hu [j0 [Hj0 Hn0]].
  pose proof weights_nonneg as Hnn.
  pose proof (weights_exists Hj0 Hn0) as Hex.
  unfold choose_next. destruct (Qltb (draws pos) q0).
  - assert (Hne : qs <> []).
    { intro E. rewrite E in qs_length. simpl in qs_length. lia. }
    destruct (index_of_max_Fin Hne) as [r [Hr [Hlt [Hmax _]]]].
    rewrite Hr. cbn [bind]. exists r, (S pos). split; [reflexivity|].
    rewrite qs_length in *. split; [exact Hlt|].
    apply (weights_positive_unvisited Hlt).
    pose proof (Hmax j0 Hj0) as Hle.
    destruct (qs_weights Hj0) as [_ Hpos]. specialize (Hpos Hn0). lra.
  - destruct (choices_Fin_positive qs_length Hnn Hex (Hu (S pos)))
      as [r [Hr [Hlt Hpos]]].
    rewrite Hr. cbn [bind]. exists r, (S (S pos)).
    split; [reflexivity|]. split; [exact Hlt|].
    now apply (weights_positive_unvisited Hlt).
Qed.

End Weights.

(** Normalising keeps the shape of the weights. *)
Lemma normalize_weights (visited : set nat) (qs : list Q) :
  length qs = N ->
  (forall j, (j < N)%nat -> weight_of visited j (nth j qs 0)) ->
  (exists j, (j < N)%nat /\ ~ In j visited) ->
  exists ps, normalize (map Fin qs) = map Fin ps /\
    length ps = N /\
    (forall j, (j < N)%nat -> weight_of visited j (nth j ps 0)) /\
    0 < fold_left Qplus qs 0.
Proof.
  intros Hlen Hw [j0 [Hj0 Hn0]].
  assert (HS : 0 < fold_left Qplus qs 0).
  { apply fold_Qplus_gt.
    - exact (weights_nonneg qs Hlen Hw).
    - exact (weights_exists qs Hlen Hw Hj0 Hn0). }
  exists (map (fun q => q / fold_left Qplus qs 0) qs).
  split; [now apply normalize_Fin|]. split; [now rewrite length_map|].
  split; [|exact HS].
  intros j Hj.
  set (f := fun q : Q => q / fold_left Qplus qs 0).
  rewrite (nth_indep _ 0 (f 0)) by (rewrite length_map; lia).
  rewrite map_nth. unfold f.
  destruct (Hw j Hj) as [Hv Hu]. split.
  - intro Hin. apply Qdiv_zero. auto.
  - intro Hnin. apply Qdiv_pos_pos; auto.
Qed.

End ChooseFacts.

(** ** The route of one ant *)

Section RouteFacts.

Local Open Scope Q_scope.

Variable loc : Type.
Variable geodesic : loc -> loc -> num.
Variable draws : nat -> Q.
Variable locations : list loc.
Variables alpha beta : Z.
Variable q0 : Q.

Local Abbreviation N := (num_locations locations).
Local Abbreviation D := (distance_matrix geodesic locations).

Lemma last_In (l : list nat) (d : nat) : l <> [] -> In (last l d) l.
Proof.
  induction l as [|x t IH]; [congruence|]. intros _.
  destruct t as [|y t']; [now left|].
  right. apply IH. discriminate.
Qed.

Section GoodPheromone.

Variable P : matrix.
Hypothesis P_square : square N P.
Hypothesis P_positive : offdiag_cells positive P.
Hypothesis D_valid : valid_distances geodesic locations.
Hypothesis draws_unit : unit_draws draws.

(** One round of the loop: the scores are finite with a positive sum and
    the chosen location is a new one at a positive distance. *)
Lemma step_ok (current : nat) (visited : set nat) (pos : nat) :
  (current < N)%nat -> In current visited -> (length visited < N)%nat ->
  exists qs next pos' d,
    scores geodesic locations alpha beta P current visited (seq 0 N)
    = Ok (map Fin qs) /\
    0 < fold_left Qplus qs 0 /\
    choose_next draws locations q0 (normalize (map Fin qs)) pos
    = Ok (next, pos') /\
    (next < N)%nat /\ ~ In next visited /\
    get2 D current next = Ok d /\ positive d.
Proof.
  intros Hcur Hin Hlen.
  assert (Hc : Forall (fun j => (j < N)%nat) (seq 0 N)).
  { apply Forall_forall. intros j Hj. apply in_seq in Hj. lia. }
  destruct (scores_Fin alpha beta visited P_square P_positive D_valid
              Hcur Hin Hc) as [qs [Hs Hw]].
  apply Forall2_seq_nth in Hw. destruct Hw as [Hql Hw]. simpl in Hw.
  pose proof (exists_unvisited visited Hlen) as Hun.
  destruct (normalize_weights locations qs Hql Hw Hun)
    as [ps [Hnorm [Hpl [Hpw HS]]]].
  destruct (choose_next_weights locations q0 ps Hpl Hpw pos draws_unit Hun)
    as [next [pos' [Hch [Hnext Hnew]]]].
  destruct (get2_distance_lt geodesic locations Hcur Hnext)
    as [a [b [Ha [Hb Hd]]]].
  exists qs, next, pos', (geodesic a b).
  rewrite Hnorm. repeat split; auto.
  apply (D_valid Ha Hb). congruence.
Qed.

(** The loop ends within [N - length route] rounds with a route that
    holds every location once. *)
Lemma build_route_ok (rounds : nat) (route : list nat) (total : num)
  (pos : nat) :
  route <> [] -> NoDup route -> (forall x, In x route -> (x < N)%nat) ->
  (N - length route <= rounds)%nat -> nonneg total ->
  exists route' total' pos',
    build_route geodesic draws locations alpha beta q0 rounds P route
      route total pos = Ok (route', total', pos') /\
    NoDup route' /\ (forall x, In x route' -> (x < N)%nat) /\
    (N <= length route')%nat /\ hd 0%nat route' = hd 0%nat route /\
    nonneg total' /\
    (positive total -> positive total') /\
    ((length route < N)%nat -> positive total').
Proof.
  revert route total pos.
  induction rounds as [|rounds IH];
    intros route total pos Hne Hnd Hlt Hfuel Htot; cbn [build_route].
  - destruct (length route <? N)%nat eqn:E.
    + apply Nat.ltb_lt in E. lia.
    + apply Nat.ltb_ge in E. exists route, total, pos.
      repeat split; auto. intro. lia.
  - destruct (length route <? N)%nat eqn:E.
    + apply Nat.ltb_lt in E.
      assert (Hcur : In (last route 0%nat) route) by now apply last_In.
      destruct (@step_ok (last route 0%nat) route pos (Hlt _ Hcur) Hcur E)
        as [qs [next [pos' [d [Hs [_ [Hch [Hnext [Hnew [Hd Hpos]]]]]]]]]].
      rewrite Hs. cbn [bind]. rewrite Hch. cbn [bind]. rewrite Hd.
      cbn [bind]. rewrite set_add_new by exact Hnew.
      destruct (IH (route ++ [next]) (add total d) pos')
        as [route' [total' [pos'' [Hb [Hnd' [Hlt' [Hlen' [Hhd [Hnn [Hp1 Hp2]]]]]]]]]].
      * destruct route; discriminate.
      * apply NoDup_app; [exact Hnd | constructor; [intros [] | constructor] |].
        intros x Hx [<-|[]]. contradiction.
      * intros x Hx. apply in_app_or in Hx.
        destruct Hx as [Hx|[<-|[]]]; auto.
      * rewrite length_app. simpl. lia.
      * apply nonneg_add; [exact Htot | now apply positive_nonneg].
      * exists route', total', pos''. rewrite Hb.
        assert (Hpt : positive total').
        { apply Hp1. now apply positive_add_r. }
        repeat split; auto.
        rewrite Hhd. now apply hd_snoc.
    + apply Nat.ltb_ge in E. exists route, total, pos.
      repeat split; auto. intro. lia.
Qed.

End GoodPheromone.

End RouteFacts.

(** ** Ants, deposits and iterations on a positive pheromone matrix *)

Section ColonyFacts.

Local Open Scope Q_scope.

Variable loc : Type.
Variable geodesic : loc -> loc -> num.
Variable draws : nat -> Q.
Variable fuel : nat.
Variable locations : list loc.
Variable start_index : nat.
Variables alpha beta : Z.
Variable q0 : Q.

Local Abbreviation N := (num_locations locations).
Local Abbreviation D := (distance_matrix geodesic locations).

Hypothesis D_valid : valid_distances geodesic locations.
Hypothesis draws_unit : unit_draws draws.
Hypothesis N_ge_2 : (2 <= N)%nat.
Hypothesis start_lt : (start_index < N)%nat.
Hypothesis fuel_ge : (N <= fuel)%nat.

Lemma NoDup_last_hd (l : list nat) :
  NoDup l -> (2 <= length l)%nat -> last l 0%nat <> hd 0%nat l.
Proof.
  intros Hnd Hlen. destruct l as [|h t]; simpl in Hlen; [lia|].
  destruct t as [|y t']; simpl in Hlen; [lia|].
  inversion Hnd as [|? ? Hh _]; subst. intro E. apply Hh.
  change (last (h :: y :: t') 0%nat) with (last (y :: t') 0%nat) in E.
  cbn [hd] in E. rewrite <- E. apply last_In. discriminate.
Qed.

Lemma full_route_permutation (route : list nat) :
  NoDup route -> (forall x, In x route -> (x < N)%nat) ->
  (N <= length route)%nat ->
  length route = N /\ Permutation route (seq 0 N).
Proof.
  intros Hnd Hlt Hlen.
  assert (Hincl : incl route (seq 0 N)).
  { intros x Hx. apply in_seq. specialize (Hlt x Hx). lia. }
  pose proof (NoDup_incl_length Hnd Hincl) as Hle.
  rewrite length_seq in Hle. split; [lia|].
  apply NoDup_Permutation; [exact Hnd | apply seq_NoDup |].
  intro x. split; [apply Hincl|].
  apply (NoDup_length_incl Hnd); [rewrite length_seq; lia | exact Hincl].
Qed.

(** On a good pheromone matrix an ant returns a tour of positive
    length. *)
Lemma construct_route_ok (P : matrix) (pos : nat) :
  good_pheromone N P ->
  exists tour total pos',
    construct_route geodesic draws fuel locations start_index alpha beta q0
      P pos = Ok (tour, total, pos') /\
    is_tour N start_index tour /\ positive total.
Proof.
  intros [Hsq Hpos]. unfold construct_route.
  destruct (@build_route_ok loc geodesic draws locations alpha beta q0 P
              Hsq Hpos D_valid draws_unit fuel [start_index] (Fin 0) pos)
    as [route [total [pos' [Hb [Hnd [Hlt [Hlen [Hhd [Hnn [_ Hp]]]]]]]]]].
  - discriminate.
  - constructor; [intros [] | constructor].
  - intros x [<-|[]]. exact start_lt.
  - simpl. lia.
  - apply nonneg_Fin. lra.
  - rewrite Hb. cbn [bind].
    destruct (full_route_permutation Hnd Hlt Hlen) as [HlenN Hperm].
    assert (Hne : route <> []).
    { intro E. rewrite E in HlenN. simpl in HlenN. lia. }
    assert (Hl : (last route 0 < N)%nat) by (apply Hlt, last_In, Hne).
    assert (Hh : (hd 0 route < N)%nat).
    { simpl in Hhd. rewrite Hhd. exact start_lt. }
    destruct (get2_distance_lt geodesic locations Hl Hh)
      as [a [b [Ha [Hb' Hd]]]].
    rewrite Hd. cbn [bind].
    exists (route ++ [hd 0%nat route]), (add total (geodesic a b)), pos'.
    split; [reflexivity|]. split.
    + unfold is_tour. rewrite length_app, HlenN. simpl. simpl in Hhd.
      repeat split.
      * lia.
      * rewrite hd_snoc by exact Hne. exact Hhd.
      * rewrite last_snoc. exact Hhd.
      * rewrite removelast_last. exact Hperm.
    + apply positive_add_l; [apply Hp; simpl; lia|].
      apply positive_nonneg. apply (D_valid Ha Hb').
      apply NoDup_last_hd; [exact Hnd | lia].
Qed.

Lemma update_best_fields (st : colony) (route : list nat) (total : num)
  (pos : nat) :
  pheromone_matrix (update_best st route total pos) = pheromone_matrix st /\
  printed (update_best st route total pos) = printed st /\
  rng (update_best st route total pos) = pos.
Proof.
  unfold update_best. destruct (ltb total (best_distance st)); auto.
Qed.

Lemma update_best_ok (st : colony) (route : list nat) (total : num)
  (pos : nat) :
  best_ok N start_index st -> is_tour N start_index route ->
  positive total ->
  best_ok N start_index (update_best st route total pos) /\
  best_route (update_best st route total pos) <> None.
Proof.
  unfold best_ok, update_best. intros Hb Ht Hp.
  destruct (ltb total (best_distance st)) eqn:E; simpl.
  - split; [exact Ht | discriminate].
  - destruct (best_route st) as [t|].
    + split; [exact Hb | discriminate].
    + rewrite Hb in E. rewrite (ltb_PInf Hp) in E. discriminate.
Qed.

(** The ants of an iteration on a good pheromone matrix: each returns a
    tour of positive length, and the matrix is left as it was. *)
Lemma run_ants_ok (n : nat) (st : colony) (all_routes : list (list nat))
  (all_distances : list num) :
  good_pheromone N (pheromone_matrix st) ->
  best_ok N start_index st ->
  exists st' new_routes new_distances,
    run_ants geodesic draws fuel locations start_index alpha beta q0 n st
      all_routes all_distances
    = Ok (st', all_routes ++ new_routes, all_distances ++ new_distances) /\
    pheromone_matrix st' = pheromone_matrix st /\
    printed st' = printed st /\
    best_ok N start_index st' /\
    Forall2 (fun r d => is_tour N start_index r /\ positive d)
      new_routes new_distances /\
    length new_routes = n /\
    (best_route st <> None \/ (0 < n)%nat -> best_route st' <> None).
Proof.
  revert st all_routes all_distances.
  induction n as [|n IH]; intros st routes dists HP Hb; cbn [run_ants].
  - exists st, [], []. rewrite !app_nil_r.
    repeat split; auto. intros [H|H]; [exact H | lia].
  - destruct (construct_route_ok (rng st) HP)
      as [tour [total [pos' [Hc [Ht Hp]]]]].
    rewrite Hc. cbn [bind].
    destruct (update_best_fields st tour total pos') as [HfP [Hfp _]].
    destruct (@update_best_ok st tour total pos' Hb Ht Hp) as [Hb' Hsome].
    destruct (IH (update_best st tour total pos') (routes ++ [tour])
                (dists ++ [total])) as
      [st' [nr [nd [Hr [HP' [Hpr [Hbo [Hall [Hlen Hbest]]]]]]]]].
    + now rewrite HfP.
    + exact Hb'.
    + exists st', (tour :: nr), (total :: nd).
      rewrite <- !app_assoc in Hr. simpl in Hr.
      repeat split; auto.
      * congruence.
      * congruence.
      * simpl. now rewrite Hlen.
Qed.

End ColonyFacts.

(** ** Deposits keep what additions of the deposited amounts keep *)

Section DepositFacts.

Variable n : nat.
Variable R : nat -> nat -> num -> Prop.
Variable A : num -> Prop.
Hypothesis R_add : forall i j x a, R i j x -> A a -> R i j (add x a).

Lemma add_at_sat (M M' : matrix) (i j : nat) (a : num) :
  cells_sat R M -> A a -> add_at M i j a = Ok M' -> cells_sat R M'.
Proof.
  intros Hsat Ha Hadd k l x Hx.
  erewrite get2_add_at in Hx by exact Hadd.
  destruct ((k =? i) && (l =? j)).
  - destruct (get2 M k l) as [y| |] eqn:Ey; try discriminate.
    cbn [bind] in Hx. injection Hx as <-. apply R_add; auto.
  - auto.
Qed.

Lemma deposit_route_cons (M : matrix) (a b : nat) (t : list nat) (i : nat)
  (dists : list num) :
  deposit_route M (a :: b :: t) i dists =
  match nth_error dists i with
  | Some d =>
      M' <- add_at M a b (div (Fin 1) d) ;; deposit_route M' (b :: t) i dists
  | None => Raise IndexError
  end.
Proof. reflexivity. Qed.

(** Deposits that succeed. *)
Lemma deposit_route_keeps (route : list nat) (i : nat) (dists : list num)
  (M M' : matrix) :
  Forall (fun d => A (div (Fin 1) d)) dists ->
  deposit_route M route i dists = Ok M' ->
  cells_sat R M -> cells_sat R M'.
Proof.
  intro Hds. revert M. induction route as [|a t IH]; intros M Hd Hsat.
  - now injection Hd as <-.
  - destruct t as [|b t'].
    + now injection Hd as <-.
    + rewrite deposit_route_cons in Hd.
      destruct (nth_error dists i) as [d|] eqn:Ed; [|discriminate].
      destruct (add_at M a b (div (Fin 1) d)) as [M1| |] eqn:E;
        cbn [bind] in Hd; try discriminate.
      apply (IH M1 Hd). eapply add_at_sat; [exact Hsat | | exact E].
      rewrite Forall_forall in Hds. apply Hds.
      eapply nth_error_In; eassumption.
Qed.

Lemma deposit_all_keeps (routes : list (list nat)) (i : nat)
  (dists : list num) (M M' : matrix) :
  Forall (fun d => A (div (Fin 1) d)) dists ->
  deposit_all M routes i dists = Ok M' ->
  cells_sat R M -> cells_sat R M'.
Proof.
  intro Hds. revert i M.
  induction routes as [|r rs IH]; intros i M Hd Hsat; cbn [deposit_all] in Hd.
  - now injection Hd as <-.
  - destruct (deposit_route M r i dists) as [M1| |] eqn:E;
      cbn [bind] in Hd; try discriminate.
    apply (IH _ _ Hd). eapply deposit_route_keeps; eassumption.
Qed.

(** Deposits along routes of locations in range succeed. *)
Lemma deposit_route_sat (route : list nat) (i : nat) (dists : list num)
  (d : num) (M : matrix) :
  nth_error dists i = Some d -> A (div (Fin 1) d) ->
  (forall x, In x route -> x < n) ->
  square n M -> cells_sat R M ->
  exists M', deposit_route M route i dists = Ok M' /\
    square n M' /\ cells_sat R M'.
Proof.
  intros Hd Hpos. revert M.
  induction route as [|a t IH]; intros M Hlt Hsq Hsat.
  - exists M. auto.
  - destruct t as [|b t'].
    + exists M. auto.
    + rewrite deposit_route_cons, Hd.
      assert (Ha : a < n) by (apply Hlt; now left).
      assert (Hb : b < n) by (apply Hlt; right; now left).
      destruct (add_at_Ok (div (Fin 1) d) Hsq Ha Hb) as [M1 HM1].
      rewrite HM1. cbn [bind].
      apply IH.
      * intros x Hx. apply Hlt. now right.
      * eapply add_at_square; eassumption.
      * eapply add_at_sat; [exact Hsat | exact Hpos | exact HM1].
Qed.

Lemma deposit_all_sat (routes : list (list nat)) (ds : list num) :
  Forall2 (fun r d => (forall x, In x r -> x < n) /\ A (div (Fin 1) d))
    routes ds ->
  forall (pre : list num) (M : matrix),
  square n M -> cells_sat R M ->
  exists M', deposit_all M routes (length pre) (pre ++ ds) = Ok M' /\
    square n M' /\ cells_sat R M'.
Proof.
  induction 1 as [|r d rs ds' [Hr Hd] Hrest IH]; intros pre M Hsq Hsat.
  - exists M. auto.
  - cbn [deposit_all].
    assert (Hnth : nth_error (pre ++ d :: ds') (length pre) = Some d).
    { rewrite nth_error_app2 by lia. now rewrite Nat.sub_diag. }
    edestruct deposit_route_sat as [M1 [HM1 [Hsq1 Hsat1]]];
      [exact Hnth | exact Hd | exact Hr | exact Hsq | exact Hsat |].
    rewrite HM1. cbn [bind].
    specialize (IH (pre ++ [d]) M1 Hsq1 Hsat1).
    rewrite <- app_assoc in IH. simpl in IH.
    rewrite length_app in IH. simpl in IH.
    replace (S (length pre)) with (length pre + 1) by lia. exact IH.
Qed.

End DepositFacts.

Lemma positive_amount (d : num) : positive d -> positive (div (Fin 1) d).
Proof.
  intro Hd. apply positive_div; [|exact Hd]. now apply positive_Fin.
Qed.

Lemma is_tour_lt (n start : nat) (tour : list nat) :
  start < n -> is_tour n start tour -> forall x, In x tour -> x < n.
Proof.
  intros Hs [Hlen [_ [Hlast Hperm]]] x Hx.
  assert (Hne : tour <> []) by (destruct tour; [discriminate | congruence]).
  destruct (exists_last Hne) as [l [y E]]. subst tour.
  rewrite last_last in Hlast. rewrite removelast_last in Hperm. subst y.
  apply in_app_or in Hx. destruct Hx as [Hx|[<-|[]]]; [|exact Hs].
  apply (Permutation_in _ Hperm) in Hx. apply in_seq in Hx. lia.
Qed.

Lemma evaporate_square (rho : Q) (n : nat) (P : matrix) :
  square n P -> square n (evaporate rho P).
Proof. apply square_map. Qed.

Lemma evaporate_sat (rho : Q) (R R' : nat -> nat -> num -> Prop)
  (P : matrix) :
  (forall i j x, R i j x -> R' i j (mul x (Fin (1 - rho)%Q))) ->
  cells_sat R P -> cells_sat R' (evaporate rho P).
Proof.
  intros HR Hsat i j x Hx. unfold evaporate in Hx.
  rewrite get2_map in Hx.
  destruct (get2 P i j) as [y| |] eqn:Ey; try discriminate.
  cbn [bind] in Hx. injection Hx as <-. apply HR. now apply Hsat.
Qed.

(** ** Whole runs with an evaporation rate below 1 *)

Section RunFacts.

Local Open Scope Q_scope.

Variable loc : Type.
Variable geodesic : loc -> loc -> num.
Variable draws : nat -> Q.
Variable fuel : nat.
Variable locations : list loc.
Variable start_index : nat.
Variable n_ants : nat.
Variables alpha beta : Z.
Variables rho q0 : Q.

Local Abbreviation N := (num_locations locations).

Hypothesis D_valid : valid_distances geodesic locations.
Hypothesis draws_unit : unit_draws draws.
Hypothesis N_ge_2 : (2 <= N)%nat.
Hypothesis start_lt : (start_index < N)%nat.
Hypothesis fuel_ge : (N <= fuel)%nat.
Hypothesis rho_range : rho < 1.

Lemma evaporate_good (P : matrix) :
  good_pheromone N P -> good_pheromone N (evaporate rho P).
Proof.
  intros [Hsq Hpos]. split; [now apply evaporate_square|].
  unfold offdiag_cells.
  apply (evaporate_sat rho (R := fun i j x => i <> j -> positive x)).
  - intros i j x Hx Hne. apply positive_mul; [auto|].
    apply positive_Fin. lra.
  - exact Hpos.
Qed.

Lemma offdiag_positive_add (i j : nat) (x a : num) :
  (i <> j -> positive x) -> positive a -> i <> j -> positive (add x a).
Proof.
  intros Hx Ha Hne. apply positive_add_l; [auto|].
  now apply positive_nonneg.
Qed.

(** An iteration from a good state ends in a good state. *)
Lemma run_iteration_ok (st : colony) :
  good_pheromone N (pheromone_matrix st) ->
  best_ok N start_index st ->
  exists st',
    run_iteration geodesic draws fuel locations start_index n_ants alpha
      beta rho q0 st = Ok st' /\
    good_pheromone N (pheromone_matrix st') /\
    best_ok N start_index st' /\
    (best_route st <> None \/ (0 < n_ants)%nat -> best_route st' <> None).
Proof.
  intros HP Hb. unfold run_iteration.
  destruct (run_ants_ok alpha beta q0 D_valid draws_unit N_ge_2 start_lt
              fuel_ge n_ants st [] [] HP Hb)
    as [st1 [nr [nd [Hr [HP1 [_ [Hb1 [Hall [_ Hbest]]]]]]]]].
  simpl in Hr. rewrite Hr. cbn [bind].
  assert (Hgood : good_pheromone N (evaporate rho (pheromone_matrix st1))).
  { apply evaporate_good. now rewrite HP1. }
  destruct Hgood as [Hsq Hpos].
  assert (Hall' : Forall2 (fun r d => (forall x, In x r -> (x < N)%nat) /\
                                      positive (div (Fin 1) d)) nr nd).
  { eapply Forall2_impl; [|exact Hall]. intros r d [Ht Hd].
    split; [now apply (is_tour_lt start_lt) | now apply positive_amount]. }
  destruct (deposit_all_sat positive offdiag_positive_add Hall' [] Hsq
              Hpos) as [P' [HP' [Hsq' Hpos']]].
  simpl in HP'. rewrite HP'. cbn [bind].
  eexists. split; [reflexivity|]. simpl.
  split; [split; assumption|]. split; [exact Hb1 | exact Hbest].
Qed.

Lemma run_iterations_ok (n : nat) (st : colony) :
  good_pheromone N (pheromone_matrix st) ->
  best_ok N start_index st ->
  exists st',
    run_iterations geodesic draws fuel locations start_index n_ants alpha
      beta rho q0 n st = Ok st' /\
    good_pheromone N (pheromone_matrix st') /\
    best_ok N start_index st' /\
    (best_route st <> None \/ (0 < n_ants)%nat /\ (0 < n)%nat ->
     best_route st' <> None).
Proof.
  revert st. induction n as [|n IH]; intros st HP Hb; cbn [run_iterations].
  - exists st. split; [reflexivity|]. split; [exact HP|].
    split; [exact Hb|]. intros [H|[_ H]]; [exact H | lia].
  - destruct (run_iteration_ok st HP Hb) as [st1 [Hr [HP1 [Hb1 Hbest1]]]].
    rewrite Hr. cbn [bind].
    destruct (IH st1 HP1 Hb1) as [st' [Hr' [HP' [Hb' Hbest']]]].
    exists st'. split; [exact Hr'|]. split; [exact HP'|].
    split; [exact Hb'|].
    intros [H|[Ha _]]; apply Hbest'; left; apply Hbest1; auto.
Qed.

Lemma initial_good : good_pheromone N (pheromone_matrix (initial locations)).
Proof.
  split; [apply square_ones|].
  intros i j x Hx _. apply get2_ones in Hx. subst.
  apply positive_Fin. lra.
Qed.

End RunFacts.

(** ** The returned tour *)

Ltac solve_line_distances :=
  let i := fresh "i" in
  let j := fresh "j" in
  let a := fresh "a" in
  let b := fresh "b" in
  let Ha := fresh "Ha" in
  let Hb := fresh "Hb" in
  let Hne := fresh "Hne" in
  intros i j a b Ha Hb Hne;
  repeat (destruct i as [|i]; simpl in Ha; try discriminate Ha);
  repeat (destruct j as [|j]; simpl in Hb; try discriminate Hb);
  try (exfalso; apply Hne; reflexivity);
  injection Ha as <-; injection Hb as <-;
  apply positive_Fin; reflexivity.

Lemma four_points_valid : valid_distances line four_points.
Proof. solve_line_distances. Qed.

Lemma five_points_valid : valid_distances line five_points.
Proof. solve_line_distances. Qed.

Lemma distances_within_valid (loc : Type) (geodesic : loc -> loc -> num)
  (locations : list loc) (dmin dmax : Q) :
  (0 < dmin)%Q -> distances_within geodesic locations dmin dmax ->
  valid_distances geodesic locations.
Proof.
  intros Hd H i j a b Ha Hb Hne.
  destruct (H i j a b Ha Hb Hne) as [d [Hg [Hlo _]]].
  rewrite Hg. apply positive_Fin. eapply Qlt_le_trans; eassumption.
Qed.

Lemma in_double_range_distance (lo hi dmin dmax : Q) (alpha beta : Z)
  (n : nat) :
  in_double_range lo hi dmin dmax alpha beta n -> (0 < dmin)%Q.
Proof. intros [_ [_ [_ [_ [H _]]]]]. exact H. Qed.

Ltac decide_order :=
  let X := fresh "X" in
  vm_compute; first [reflexivity | intro X; discriminate X].

Ltac solve_line_within :=
  let i := fresh "i" in
  let j := fresh "j" in
  let a := fresh "a" in
  let b := fresh "b" in
  let Ha := fresh "Ha" in
  let Hb := fresh "Hb" in
  let Hne := fresh "Hne" in
  intros i j a b Ha Hb Hne;
  repeat (destruct i as [|i]; simpl in Ha; try discriminate Ha);
  repeat (destruct j as [|j]; simpl in Hb; try discriminate Hb);
  try (exfalso; apply Hne; reflexivity);
  injection Ha as <-; injection Hb as <-;
  eexists; (split; [reflexivity | split; decide_order]).

Lemma three_points_within : distances_within line three_points 1 3.
Proof. solve_line_within. Qed.

Lemma four_points_within : distances_within line four_points 1 3.
Proof. solve_line_within. Qed.

Lemma two_points_within : distances_within line two_points 5 5.
Proof. solve_line_within. Qed.

(** Rounding [n] times loses at most [n] times the loss of one
    rounding. *)
Lemma Qpower_bernoulli (e : Q) (n : nat) :
  (0 <= e)%Q -> (e <= 1)%Q ->
  (1 - inject_Z (Z.of_nat n) * e <= (1 - e) ^ Z.of_nat n)%Q.
Proof.
  intros He0 He1. induction n as [|n IH].
  - change (inject_Z (Z.of_nat 0)) with 0%Q.
    change ((1 - e) ^ Z.of_nat 0)%Q with 1%Q. lra.
  - rewrite Nat2Z.inj_succ, <- Z.add_1_l.
    assert (H1 : (0 <= inject_Z (Z.of_nat n))%Q).
    { change 0%Q with (inject_Z 0). rewrite <- Zle_Qle. lia. }
    destruct (Qeq_dec (1 - e) 0) as [E|E].
    + rewrite inject_Z_plus. assert (e == 1)%Q by lra.
      assert (H0 : (0 <= (1 - e) ^ (1 + Z.of_nat n))%Q).
      { apply Qpower_pos. lra. }
      change (inject_Z 1) with 1%Q. nra.
    + rewrite Qpower_plus by exact E. rewrite inject_Z_plus.
      change (inject_Z 1) with 1%Q. change ((1 - e) ^ 1)%Q with (1 - e)%Q.
      set (x := ((1 - e) ^ Z.of_nat n)%Q) in *.
      set (k := inject_Z (Z.of_nat n)) in *.
      nra.
Qed.

Lemma least_trail_default : (2 ^ (-1001) <= least_trail (1 # 2) 1000)%Q.
Proof.
  unfold least_trail. rewrite Qmult_power.
  assert (H1 : ((1 - (1 # 2)) ^ Z.of_nat 1000 == 2 ^ (-1000))%Q)
    by (vm_compute; reflexivity).
  rewrite H1.
  assert (H2 : (1 # 2 <= (1 - 2 ^ (-50)) ^ Z.of_nat 1000)%Q).
  { eapply Qle_trans; [|apply Qpower_bernoulli]; decide_order. }
  assert (H3 : (2 ^ (-1001) == 2 ^ (-1000) * (1 # 2))%Q)
    by (vm_compute; reflexivity).
  rewrite H3. apply Qmult_le_l; [reflexivity | exact H2].
Qed.

(** The default parameters of [solve_aco], 50 ants, 1000 iterations,
    [alpha = 1], [beta = 2] and [rho = 0.5], keep a run inside the range
    of a double on up to 1000 locations that lie between one metre and
    20100 kilometres apart, which is more than half of the equator. *)
Lemma default_parameters_in_range :
  in_double_range (least_trail (1 # 2) 1000)
    (greatest_trail 50 1000 (1 # 1000)) (1 # 1000) 20100 1 2 1000.
Proof.
  pose proof least_trail_default as H. unfold in_double_range.
  do 5 (apply conj; [decide_order|]).
  apply conj.
  { change (least_power <= least_trail (1 # 2) 1000)%Q.
    eapply Qle_trans; [|exact H]. decide_order. }
  do 3 (apply conj; [decide_order|]).
  apply conj.
  { change (least_score <= least_trail (1 # 2) 1000 * 20100 ^ (-2))%Q.
    eapply Qle_trans; [|apply Qmult_le_compat_r; [exact H|]];
      decide_order. }
  repeat apply conj; decide_order.
Qed.

Lemma stray_draws_unit : unit_draws stray_draws.
Proof.
  intro k. unfold stray_draws.
  do 10 (destruct k as [|k]; [split; reflexivity || discriminate|]).
  split; reflexivity || discriminate.
Qed.

Lemma greedy_draws_unit : unit_draws greedy_draws.
Proof. intro k. split; reflexivity || discriminate. Qed.

Lemma exploring_draws_unit : unit_draws exploring_draws.
Proof.
  intro k. unfold exploring_draws.
  do 11 (destruct k as [|k]; [split; reflexivity || discriminate|]).
  split; reflexivity || discriminate.
Qed.

(** C1, as amended: for at least 2 locations at pairwise distances
    between [dmin > 0] and [dmax], a start index in range, an
    evaporation rate of [0, 1), at least one ant and one iteration, and
    parameters under which the trails of [n_iterations] iterations and
    the scores made of them stay inside the range of a double,
    [solve_aco] returns a tour of length N+1 that starts and ends at
    [start_index] and holds every location once before it closes; N
    rounds are enough for each ant. *)
Theorem solve_aco_returns_tour (loc : Type) (geodesic : loc -> loc -> num)
  (draws : nat -> Q) (fuel : nat) (locations : list loc)
  (start_index n_ants n_iterations : nat) (alpha beta : Z) (rho q0 : Q)
  (dmin dmax : Q) :
  distances_within geodesic locations dmin dmax ->
  2 <= num_locations locations ->
  start_index < num_locations locations ->
  unit_draws draws ->
  num_locations locations <= fuel ->
  (0 <= rho)%Q -> (rho < 1)%Q ->
  in_double_range (least_trail rho n_iterations)
    (greatest_trail n_ants n_iterations dmin) dmin dmax alpha beta
    (num_locations locations) ->
  0 < n_ants -> 0 < n_iterations ->
  exists tour,
    solve_aco geodesic draws fuel locations start_index n_ants n_iterations
      alpha beta rho q0 = Ok (Some tour) /\
    is_tour (num_locations locations) start_index tour.
Proof.
  intros Hin HN Hstart Hdraws Hfuel _ Hrho Hrange Hants Hiter.
  assert (Hval : valid_distances geodesic locations).
  { eapply distances_within_valid; [|exact Hin].
    eapply in_double_range_distance. exact Hrange. }
  unfold solve_aco.
  destruct (run_iterations_ok n_ants alpha beta q0 Hval Hdraws HN Hstart
              Hfuel Hrho n_iterations (initial locations))
    as [st [Hr [_ [Hb Hbest]]]].
  - apply initial_good.
  - reflexivity.
  - rewrite Hr. cbn [bind]. unfold best_ok in Hb.
    destruct (best_route st) as [tour|].
    + exists tour. auto.
    + exfalso. apply Hbest; [right; split; assumption | reflexivity].
Qed.

Lemma solve_aco_returns_tour_witness :
  exists tour,
    solve_aco line greedy_draws 3 three_points 0 2 2 1 2 (1 # 2) (9 # 10)
    = Ok (Some tour) /\
    is_tour (num_locations three_points) 0 tour.
Proof.
  apply (@solve_aco_returns_tour Q line greedy_draws 3 three_points 0 2 2
           1%Z 2%Z (1 # 2)%Q (9 # 10)%Q 1%Q 3%Q).
  - exact three_points_within.
  - simpl. lia.
  - simpl. lia.
  - exact greedy_draws_unit.
  - simpl. lia.
  - vm_compute. discriminate.
  - reflexivity.
  - unfold in_double_range; repeat apply conj; decide_order.
  - lia.
  - lia.
Defined.

(** C1 as stated fails: with the evaporation rate 1 a second-iteration
    ant reaches a location from which every pheromone trail to the
    unvisited one is wiped; if it explores there the run raises, and on
    five locations an ant that exploits goes back to the start and
    stays there for as many rounds as it is given, the two tours of the
    first iteration being 0, 1, 4, 2, 3, 0 and 0, 3, 1, 2, 4, 0; with no
    iteration or no ant, [None] is returned. *)
Lemma solve_aco_returns_tour_counterexample :
  valid_distances line four_points /\
  2 <= num_locations four_points /\
  unit_draws exploring_draws /\
  solve_aco line exploring_draws 4 four_points 0 2 2 1 2 1 (9 # 10)
  = Raise ValueError /\
  valid_distances line five_points /\
  unit_draws stray_draws /\
  solve_aco line stray_draws 100 five_points 0 2 2 1 2 1 (9 # 10)
  = OutOfFuel /\
  solve_aco line greedy_draws 4 four_points 0 50 0 1 2 (1 # 2) (9 # 10)
  = Ok None /\
  solve_aco line greedy_draws 4 four_points 0 0 1000 1 2 (1 # 2) (9 # 10)
  = Ok None.
Proof.
  split; [exact four_points_valid|].
  split; [simpl; lia|].
  split; [exact exploring_draws_unit|].
  split; [vm_compute; reflexivity|].
  split; [exact five_points_valid|].
  split; [exact stray_draws_unit|].
  repeat split; vm_compute; reflexivity.
Qed.

(** ** The best-known solution *)

Section OrderFacts.

Local Open Scope Q_scope.


Lemma ltb_not_nan (x y : num) : ltb x y = true -> x <> NaN.
Proof. destruct x; simpl; discriminate. Qed.



End OrderFacts.

Section BestFacts.

Variable loc : Type.
Variable geodesic : loc -> loc -> num.
Variable draws : nat -> Q.
Variable fuel : nat.
Variable locations : list loc.
Variable start_index : nat.
Variable n_ants : nat.
Variables alpha beta : Z.
Variables rho q0 : Q.






End BestFacts.

(** The routes of a run compared in order. *)

Section ShortestFacts.

Local Open Scope Q_scope.




Lemma first_shortest_not_nan (rs : list (list nat)) (ds : list num)
  (r0 r1 : option (list nat)) (d0 d1 : num) :
  first_shortest rs ds r0 d0 r1 d1 -> d0 <> NaN -> d1 <> NaN.
Proof.
  intros [_ [_ [[_ ->]|[H _]]]] H0; [exact H0|].
  eapply ltb_not_nan. exact H.
Qed.



End ShortestFacts.

Section ShortestRun.

Variable loc : Type.
Variable geodesic : loc -> loc -> num.
Variable draws : nat -> Q.
Variable fuel : nat.
Variable locations : list loc.
Variable start_index : nat.
Variable n_ants : nat.
Variables alpha beta : Z.
Variables rho q0 : Q.



End ShortestRun.



(** ** No ant or no iteration *)

Lemma run_iterations_no_ant (loc : Type) (geodesic : loc -> loc -> num)
  (draws : nat -> Q) (fuel : nat) (locations : list loc) (start_index : nat)
  (alpha beta : Z) (rho q0 : Q) (n : nat) (st : colony) :
  exists st',
    run_iterations geodesic draws fuel locations start_index 0 alpha beta
      rho q0 n st = Ok st' /\
    best_route st' = best_route st.
Proof.
  revert st. induction n as [|n IH]; intro st; cbn [run_iterations].
  - exists st. auto.
  - unfold run_iteration. cbn [run_ants bind deposit_all].
    destruct (IH (Colony (evaporate rho (pheromone_matrix st))
                    (best_route st) (best_distance st) (rng st)
                    (printed st ++ [best_distance st])))
      as [st' [Hr Hb]].
    exists st'. auto.
Qed.

(** C10: with no iteration or no ant, [solve_aco] returns [None]. *)
Theorem solve_aco_none (loc : Type) (geodesic : loc -> loc -> num)
  (draws : nat -> Q) (fuel : nat) (locations : list loc)
  (start_index n_ants n_iterations : nat) (alpha beta : Z) (rho q0 : Q) :
  n_iterations = 0 \/ n_ants = 0 ->
  solve_aco geodesic draws fuel locations start_index n_ants n_iterations
    alpha beta rho q0 = Ok None.
Proof.
  intros [-> | ->]; unfold solve_aco.
  - reflexivity.
  - destruct (run_iterations_no_ant geodesic draws fuel locations
                start_index alpha beta rho q0 n_iterations
                (initial locations)) as [st' [Hr Hb]].
    rewrite Hr. cbn [bind]. now rewrite Hb.
Qed.

Lemma solve_aco_none_witness :
  (1000 = 0 \/ 0 = 0) /\
  solve_aco line greedy_draws 3 three_points 0 0 1000 1 2 (1 # 2) (9 # 10)
  = Ok None.
Proof.
  split; [right; reflexivity|].
  apply solve_aco_none. right. reflexivity.
Defined.

(** ** The tracked distance of a route *)

Section DistanceFacts.

Variable loc : Type.
Variable geodesic : loc -> loc -> num.
Variable draws : nat -> Q.
Variable fuel : nat.
Variable locations : list loc.
Variable start_index : nat.
Variables alpha beta : Z.
Variable q0 : Q.

Local Abbreviation D := (distance_matrix geodesic locations).

Lemma plot_route_total_cons (a b : nat) (t : list nat) (acc : num) :
  plot_route_total geodesic locations (a :: b :: t) acc =
  match nth_error locations a, nth_error locations b with
  | Some start, Some finish =>
      plot_route_total geodesic locations (b :: t)
        (add acc (geodesic start finish))
  | _, _ => Raise IndexError
  end.
Proof. reflexivity. Qed.

(** Extending a route by one location adds one edge to its total. *)
Lemma plot_route_total_snoc (route : list nat) (x : nat) (acc total d : num) :
  route <> [] ->
  plot_route_total geodesic locations route acc = Ok total ->
  get2 D (last route 0) x = Ok d ->
  plot_route_total geodesic locations (route ++ [x]) acc = Ok (add total d).
Proof.
  revert acc. induction route as [|a t IH]; intros acc Hne Hp Hd.
  - congruence.
  - destruct t as [|b t'].
    + simpl in Hp. injection Hp as <-. simpl app.
      rewrite plot_route_total_cons. simpl last in Hd.
      rewrite get2_distance in Hd.
      destruct (nth_error locations a); [|discriminate].
      destruct (nth_error locations x); [|discriminate].
      injection Hd as <-. reflexivity.
    + change ((a :: b :: t') ++ [x]) with (a :: b :: (t' ++ [x])).
      rewrite plot_route_total_cons in *.
      destruct (nth_error locations a); [|discriminate].
      destruct (nth_error locations b); [|discriminate].
      apply (IH _ ltac:(discriminate) Hp). exact Hd.
Qed.

Lemma build_route_total (rounds : nat) (P : matrix) (route : list nat)
  (visited : set nat) (total : num) (pos : nat) (route' : list nat)
  (total' : num) (pos' : nat) :
  build_route geodesic draws locations alpha beta q0 rounds P route visited
    total pos = Ok (route', total', pos') ->
  route <> [] ->
  plot_route_total geodesic locations route (Fin 0) = Ok total ->
  route' <> [] /\ hd 0 route' = hd 0 route /\
  plot_route_total geodesic locations route' (Fin 0) = Ok total'.
Proof.
  revert route visited total pos.
  induction rounds as [|rounds IH]; intros route visited total pos H Hne Hp;
    cbn [build_route] in H.
  - destruct (length visited <? num_locations locations);
      [discriminate|]. injection H as <- <- <-. auto.
  - destruct (length visited <? num_locations locations).
    + inv_bind H. inv_bind H. destruct a0 as [next pos1]. inv_bind H.
      destruct (IH _ _ _ _ H) as [Hne' [Hhd Hp']].
      * destruct route; discriminate.
      * now apply plot_route_total_snoc.
      * repeat split; auto. rewrite Hhd. now apply hd_snoc.
    + injection H as <- <- <-. auto.
Qed.

End DistanceFacts.

(** C7: the total distance an ant accumulates edge by edge, closing edge
    included, is the one [plot_route] recomputes from the locations
    over the consecutive pairs of the route. *)
Theorem tracked_distance_recomputed (loc : Type)
  (geodesic : loc -> loc -> num) (draws : nat -> Q) (fuel : nat)
  (locations : list loc) (start_index : nat) (alpha beta : Z) (q0 : Q)
  (P : matrix) (pos : nat) (route : list nat) (total_distance : num)
  (pos' : nat) :
  construct_route geodesic draws fuel locations start_index alpha beta q0 P
    pos = Ok (route, total_distance, pos') ->
  plot_route_total geodesic locations route (Fin 0) = Ok total_distance.
Proof.
  unfold construct_route. intro H.
  inv_bind H. destruct a as [[r total] pos1]. inv_bind H.
  injection H as <- <- <-.
  edestruct build_route_total as [Hne [Hhd Hp]];
    [exact E | discriminate | reflexivity |].
  apply plot_route_total_snoc; assumption.
Qed.

Lemma tracked_distance_recomputed_witness :
  construct_route line greedy_draws 3 three_points 0 1 2 (9 # 10) (ones 3) 0
  = Ok ([0; 1; 2; 0], Fin 6, 2) /\
  plot_route_total line three_points [0; 1; 2; 0] (Fin 0) = Ok (Fin 6).
Proof.
  assert (H : construct_route line greedy_draws 3 three_points 0 1 2
                (9 # 10) (ones 3) 0 = Ok ([0; 1; 2; 0], Fin 6, 2))
    by (vm_compute; reflexivity).
  split; [exact H|].
  exact (@tracked_distance_recomputed _ _ _ _ _ _ _ _ _ _ _ _ _ _ H).
Defined.

(** ** The score sum along the route loop *)

Section LoopFacts.

Variable loc : Type.
Variable geodesic : loc -> loc -> num.
Variable draws : nat -> Q.
Variable locations : list loc.
Variables alpha beta : Z.
Variable q0 : Q.
Variable P : matrix.
Variable start_index : nat.

Local Abbreviation N := (num_locations locations).

Hypothesis P_good : good_pheromone N P.
Hypothesis D_valid : valid_distances geodesic locations.
Hypothesis draws_unit : unit_draws draws.
Hypothesis start_lt : (start_index < N)%nat.

(** On a good pheromone matrix the visited set is the route, which
    holds distinct locations. *)
Lemma loop_state_route (route : list nat) (visited : set nat) :
  loop_state geodesic draws locations alpha beta q0 P start_index route
    visited ->
  route <> [] /\ visited = route /\ NoDup route /\
  (forall x, In x route -> (x < N)%nat).
Proof.
  destruct P_good as [Hsq Hpos].
  induction 1 as [|route visited probabilities next pos pos' Hs IH Hlen
                    Hsc Hch].
  - repeat split.
    + discriminate.
    + constructor; [intros [] | constructor].
    + intros x [<-|[]]. exact start_lt.
  - destruct IH as [Hne [-> [Hnd Hlt]]].
    assert (Hcur : In (last route 0%nat) route) by now apply last_In.
    destruct (@step_ok loc geodesic draws locations alpha beta q0 P Hsq
                Hpos D_valid draws_unit (last route 0%nat) route pos
                (Hlt _ Hcur) Hcur Hlen)
      as [qs [next' [pos1 [d [Hs' [_ [Hch' [Hnext [Hnew _]]]]]]]]].
    rewrite Hs' in Hsc. injection Hsc as <-.
    rewrite Hch' in Hch. injection Hch as <- <-.
    rewrite set_add_new by exact Hnew. repeat split.
    + destruct route; discriminate.
    + apply NoDup_app; [exact Hnd | constructor; [intros [] | constructor] |].
      intros x Hx [<-|[]]. contradiction.
    + intros x Hx. apply in_app_or in Hx.
      destruct Hx as [Hx|[<-|[]]]; auto.
Qed.

Lemma loop_state_sum (route : list nat) (visited : set nat) :
  loop_state geodesic draws locations alpha beta q0 P start_index route
    visited ->
  (length visited < N)%nat ->
  exists probabilities,
    scores geodesic locations alpha beta P (last route 0) visited (seq 0 N)
    = Ok probabilities /\
    positive (py_sum probabilities).
Proof.
  intros Hs Hlen. destruct P_good as [Hsq Hpos].
  destruct (loop_state_route Hs) as [Hne [-> [Hnd Hlt]]].
  assert (Hcur : In (last route 0%nat) route) by now apply last_In.
  destruct (@step_ok loc geodesic draws locations alpha beta q0 P Hsq
              Hpos D_valid draws_unit (last route 0%nat) route 0%nat
              (Hlt _ Hcur) Hcur Hlen)
    as [qs [_ [_ [_ [Hs' [HS _]]]]]].
  exists (map Fin qs). split; [exact Hs'|].
  unfold py_sum. rewrite py_sum_from_Fin. now apply positive_Fin.
Qed.

End LoopFacts.

(** C4, as amended: for at least 2 locations at pairwise distances
    between [dmin > 0] and [dmax], an evaporation rate of [0, 1) and
    parameters under which the trails of [n] iterations and the scores
    made of them stay inside the range of a double, on the pheromone
    matrix that a run reaches after [n] iterations and at every state of
    the route loop whose visited set is not full, the scores are
    computed and their sum is finite and strictly positive. *)
Theorem scores_sum_positive (loc : Type) (geodesic : loc -> loc -> num)
  (draws : nat -> Q) (fuel : nat) (locations : list loc)
  (start_index n_ants : nat) (alpha beta : Z) (rho q0 : Q)
  (dmin dmax : Q)
  (n : nat) (st : colony) (route : list nat) (visited : set nat) :
  distances_within geodesic locations dmin dmax ->
  2 <= num_locations locations ->
  start_index < num_locations locations ->
  unit_draws draws ->
  num_locations locations <= fuel ->
  (0 <= rho)%Q -> (rho < 1)%Q ->
  in_double_range (least_trail rho n) (greatest_trail n_ants n dmin)
    dmin dmax alpha beta (num_locations locations) ->
  run_iterations geodesic draws fuel locations start_index n_ants alpha
    beta rho q0 n (initial locations) = Ok st ->
  loop_state geodesic draws locations alpha beta q0 (pheromone_matrix st)
    start_index route visited ->
  length visited < num_locations locations ->
  exists probabilities,
    scores geodesic locations alpha beta (pheromone_matrix st)
      (last route 0) visited (seq 0 (num_locations locations))
    = Ok probabilities /\
    positive (py_sum probabilities).
Proof.
  intros Hin HN Hstart Hdraws Hfuel _ Hrho Hrange Hrun Hloop Hlen.
  assert (Hval : valid_distances geodesic locations).
  { eapply distances_within_valid; [|exact Hin].
    eapply in_double_range_distance. exact Hrange. }
  destruct (run_iterations_ok n_ants alpha beta q0 Hval Hdraws HN Hstart
              Hfuel Hrho n (initial locations))
    as [st' [Hr [HP _]]].
  - apply initial_good.
  - reflexivity.
  - rewrite Hr in Hrun. injection Hrun as <-.
    eapply loop_state_sum;
      [exact HP | exact Hval | exact Hdraws | exact Hstart | exact Hloop
      | exact Hlen].
Qed.

Lemma scores_sum_positive_witness :
  run_iterations line greedy_draws 3 three_points 0 2 1 2 (1 # 2) (9 # 10)
    1 (initial three_points) = Ok demo_state1 /\
  loop_state line greedy_draws three_points 1 2 (9 # 10)
    (pheromone_matrix demo_state1) 0 [0] [0] /\
  exists probabilities,
    scores line three_points 1 2 (pheromone_matrix demo_state1)
      (last [0] 0) [0] (seq 0 (num_locations three_points))
    = Ok probabilities /\
    positive (py_sum probabilities).
Proof.
  assert (H1 : run_iterations line greedy_draws 3 three_points 0 2 1 2
                 (1 # 2) (9 # 10) 1 (initial three_points)
               = Ok demo_state1) by (vm_compute; reflexivity).
  split; [exact H1|]. split; [constructor|].
  apply (@scores_sum_positive Q line greedy_draws 3 three_points 0 2 1%Z 2%Z
           (1 # 2)%Q (9 # 10)%Q 1%Q 3%Q 1 demo_state1 [0] [0]).
  - exact three_points_within.
  - simpl. lia.
  - simpl. lia.
  - exact greedy_draws_unit.
  - simpl. lia.
  - vm_compute. discriminate.
  - reflexivity.
  - unfold in_double_range; repeat apply conj; decide_order.
  - exact H1.
  - constructor.
  - simpl. lia.
Defined.

(** C4 as stated fails for the evaporation rate 1: after one iteration
    only the edges of the two tours hold pheromone, the next ant moves
    0, 1, 3, and at 3 the only unvisited location 2 has score 0, so the
    sum of the scores is 0 and normalising divides 0 by 0. *)
Lemma scores_sum_positive_counterexample :
  valid_distances line four_points /\
  unit_draws exploring_draws /\
  run_iterations line exploring_draws 4 four_points 0 2 1 2 1 (9 # 10) 1
    (initial four_points) = Ok wiped_state /\
  loop_state line exploring_draws four_points 1 2 (9 # 10)
    (pheromone_matrix wiped_state) 0 [0; 1; 3] [0; 1; 3] /\
  length [0; 1; 3] < num_locations four_points /\
  scores line four_points 1 2 (pheromone_matrix wiped_state)
    (last [0; 1; 3] 0) [0; 1; 3] (seq 0 (num_locations four_points))
  = Ok [Fin 0; Fin 0; Fin 0; Fin 0] /\
  py_sum [Fin 0; Fin 0; Fin 0; Fin 0] = Fin 0 /\
  ~ positive (Fin 0) /\
  normalize [Fin 0; Fin 0; Fin 0; Fin 0] = [NaN; NaN; NaN; NaN].
Proof.
  split; [exact four_points_valid|].
  split; [exact exploring_draws_unit|].
  split; [vm_compute; reflexivity|].
  split.
  - assert (H0 : loop_state line exploring_draws four_points 1 2 (9 # 10)
                   (pheromone_matrix wiped_state) 0 [0] [0])
      by constructor.
    assert (H1 : loop_state line exploring_draws four_points 1 2 (9 # 10)
                   (pheromone_matrix wiped_state) 0 [0; 1] [0; 1]).
    { refine (@loop_step _ _ _ _ _ _ _ _ _ [0] [0]
                [Fin 0; Fin (1 # 6); Fin (1 # 32); Fin (0 # 9)] 1 7 8 H0
                _ _ _).
      - simpl. lia.
      - vm_compute. reflexivity.
      - vm_compute. reflexivity. }
    refine (@loop_step _ _ _ _ _ _ _ _ _ [0; 1] [0; 1]
              [Fin 0; Fin 0; Fin (1 # 6); Fin (1 # 32)] 3 8 10 H1 _ _ _).
    + simpl. lia.
    + vm_compute. reflexivity.
    + vm_compute. reflexivity.
  - split; [simpl; lia|].
    split; [vm_compute; reflexivity|].
    split; [vm_compute; reflexivity|].
    split; [|vm_compute; reflexivity].
    intro H. apply positive_Fin in H. discriminate H.
Qed.

(** ** A zero distance between distinct locations *)

Section ZeroDistance.

Local Open Scope Q_scope.

Lemma pow_zero_negative (d : Q) (z : Z) :
  d == 0 -> (z < 0)%Z -> pow (Fin d) z = PInf.
Proof.
  intros Hd Hz. unfold pow.
  assert ((z =? 0)%Z = false) as -> by (apply Z.eqb_neq; lia).
  assert (Qeq_bool d 0 = true) as -> by now apply Qeq_bool_iff.
  assert ((z <? 0)%Z = true) as -> by now apply Z.ltb_lt.
  reflexivity.
Qed.

Lemma mul_positive_PInf (x : num) : positive x -> mul x PInf = PInf.
Proof.
  intros [q [-> Hq]]. unfold mul, scale_inf.
  now rewrite (proj1 (Qlt_alt 0 q) Hq).
Qed.

Lemma fold_add_PInf (l : list num) :
  Forall (fun e => nonneg e \/ e = PInf) l ->
  fold_left add l PInf = PInf.
Proof.
  induction 1 as [|e l He _ IH]; simpl; [reflexivity|].
  destruct He as [[q [-> _]]| ->]; exact IH.
Qed.

(** A sum of non-negative and infinite scores that holds an infinite
    one is infinite. *)
Lemma py_sum_PInf (l : list num) :
  Forall (fun e => nonneg e \/ e = PInf) l -> In PInf l ->
  py_sum l = PInf.
Proof.
  unfold py_sum. generalize 0 as acc.
  induction l as [|e l IH]; intros acc Hall Hin; [destruct Hin|].
  inversion Hall as [|? ? He Hl]; subst. simpl.
  destruct Hin as [->|Hin].
  - simpl. now apply fold_add_PInf.
  - destruct He as [[q [-> _]]| ->]; simpl.
    + now apply IH.
    + now apply fold_add_PInf.
Qed.

End ZeroDistance.

(** Between two locations with the same coordinates an ant that always
    exploits returns to the start in every round: no bound on the rounds
    lets its loop end. *)
Lemma same_points_loop (rounds : nat) (route : list nat) (total : num)
  (pos : nat) :
  last route 0 = 0 ->
  build_route line greedy_draws same_points 1 2 (9 # 10) rounds (ones 2)
    route [0] total pos = OutOfFuel.
Proof.
  revert route total pos.
  induction rounds as [|rounds IH]; intros route total pos Hlast;
    cbn [build_route].
  - reflexivity.
  - rewrite Hlast.
    change (length [0] <? num_locations same_points) with true.
    change (scores line same_points 1 2 (ones 2) 0 [0]
              (seq 0 (num_locations same_points)))
      with (Ok [Fin 0; PInf]).
    cbn [bind].
    change (normalize [Fin 0; PInf]) with [Fin 0; NaN].
    change (choose_next greedy_draws same_points (9 # 10) [Fin 0; NaN] pos)
      with (Ok (0, S pos)).
    cbn [bind].
    change (get2 (distance_matrix line same_points) 0 0)
      with (Ok (Fin (Qabs (0 - 0)))).
    cbn [bind].
    change (set_add Nat.eq_dec 0 [0]) with [0].
    apply IH. apply last_snoc.
Qed.

Lemma same_points_never_returns (fuel : nat) :
  construct_route line greedy_draws fuel same_points 0 1 2 (9 # 10) (ones 2)
    0 = OutOfFuel.
Proof.
  unfold construct_route. now rewrite same_points_loop.
Qed.

(** C3, as amended: no defensive policy is applied to a zero distance.
    For exponents that a double holds exactly and [beta > 0], an
    unvisited candidate at distance 0 from the current location,
    reached by a positive pheromone value whose power is not below the
    range of a double, gets the score [+inf], without any exception;
    and among scores that are non-negative or [+inf], its probability
    after normalisation is [nan]. *)
Theorem zero_distance_score_infinite (loc : Type)
  (geodesic : loc -> loc -> num) (locations : list loc) (alpha beta : Z)
  (P : matrix) (current : nat) (visited : set nat) (next_location : nat)
  (p d : Q) :
  ~ In next_location visited ->
  get2 P current next_location = Ok (Fin p) ->
  (0 < p)%Q -> (least_power <= p ^ alpha)%Q ->
  get2 (distance_matrix geodesic locations) current next_location
  = Ok (Fin d) ->
  (d == 0)%Q ->
  (- greatest_exponent <= alpha)%Z -> (alpha <= greatest_exponent)%Z ->
  (0 < beta)%Z -> (beta <= greatest_exponent)%Z ->
  score geodesic locations alpha beta P current visited next_location
  = Ok PInf /\
  forall probabilities,
    Forall (fun e => nonneg e \/ e = PInf) probabilities ->
    nth_error probabilities next_location = Some PInf ->
    nth_error (normalize probabilities) next_location = Some NaN.
Proof.
  intros Hnew Hp Hpos _ Hd Hzero _ _ Hbeta _. split.
  - unfold score.
    assert (set_mem Nat.eq_dec next_location visited = false) as ->.
    { destruct (set_mem Nat.eq_dec next_location visited) eqn:E;
        [|reflexivity].
      apply set_mem_In in E. contradiction. }
    rewrite Hp, Hd. cbn [bind].
    rewrite (pow_zero_negative Hzero) by lia.
    rewrite mul_positive_PInf; [reflexivity|].
    apply positive_pow. apply positive_Fin. exact Hpos.
  - intros probabilities Hall Hnth. unfold normalize.
    rewrite nth_error_map, Hnth. simpl.
    rewrite py_sum_PInf; [reflexivity | exact Hall |].
    eapply nth_error_In; eassumption.
Qed.

Lemma zero_distance_score_infinite_witness :
  score line same_points 1 2 (ones 2) 0 [0] 1 = Ok PInf /\
  nth_error (normalize [Fin 0; PInf]) 1 = Some NaN.
Proof.
  destruct (@zero_distance_score_infinite Q line same_points 1%Z 2%Z
              (ones 2) 0 [0] 1 1%Q 0%Q) as [Hs Hn].
  - simpl. intros [H|[]]. discriminate H.
  - reflexivity.
  - reflexivity.
  - vm_compute. discriminate.
  - reflexivity.
  - reflexivity.
  - vm_compute. discriminate.
  - vm_compute. discriminate.
  - reflexivity.
  - vm_compute. discriminate.
  - split; [exact Hs|]. apply Hn.
    + constructor; [left; apply nonneg_Fin; discriminate|].
      constructor; [right; reflexivity | constructor].
    + reflexivity.
Defined.

(** C3 as stated fails: for two locations with the same coordinates the
    score of the second one from the first is [+inf], not a finite
    value, its normalised probability is [nan], and an ant that always
    exploits stays at the start for as many rounds as it is given. *)
Lemma zero_distance_score_infinite_counterexample :
  get2 (distance_matrix line same_points) 0 1 = Ok (Fin 0) /\
  scores line same_points 1 2 (ones 2) 0 [0] (seq 0 2) = Ok [Fin 0; PInf] /\
  is_finite PInf = false /\
  normalize [Fin 0; PInf] = [Fin 0; NaN] /\
  construct_route line greedy_draws 100 same_points 0 1 2 (9 # 10) (ones 2)
    0 = OutOfFuel.
Proof.
  repeat split; vm_compute; reflexivity.
Qed.

(** ** The choice of the next location *)

(** C6: a step draws [r]; if [r < q0] it takes the first index that
    holds the greatest probability; otherwise it draws [u] and takes the
    index whose interval of running sums of the probabilities holds the
    point [u * total], which is sampling from the distribution by
    inversion.  The probabilities are finite, non-negative and not all
    zero. *)
Theorem choose_next_rule (loc : Type) (draws : nat -> Q)
  (locations : list loc) (q0 : Q) (probabilities : list Q) (pos : nat) :
  length probabilities = num_locations locations ->
  Forall (fun p => (0 <= p)%Q) probabilities ->
  Exists (fun p => (0 < p)%Q) probabilities ->
  (0 <= draws (S pos))%Q /\ (draws (S pos) < 1)%Q ->
  exists next_location pos',
    choose_next draws locations q0 (map Fin probabilities) pos
    = Ok (next_location, pos') /\
    next_location < num_locations locations /\
    ((draws pos < q0)%Q ->
     pos' = S pos /\
     (forall j, j < num_locations locations ->
        (nth j probabilities 0 <= nth next_location probabilities 0)%Q) /\
     (forall j, j < next_location ->
        (nth j probabilities 0 < nth next_location probabilities 0)%Q)) /\
    ((q0 <= draws pos)%Q ->
     pos' = S (S pos) /\
     (draws (S pos) * (last (Qaccumulate probabilities) 0 + 0)
      < nth next_location (Qaccumulate probabilities) 0)%Q /\
     (next_location = 0 \/
      (nth (next_location - 1) (Qaccumulate probabilities) 0
       <= draws (S pos) * (last (Qaccumulate probabilities) 0 + 0))%Q)).
Proof.
  intros Hlen Hnn Hex Hu. unfold choose_next.
  destruct (Qltb (draws pos) q0) eqn:E.
  - apply Qltb_lt in E.
    assert (Hne : probabilities <> []).
    { intro H. subst. inversion Hex. }
    destruct (index_of_max_Fin Hne) as [r [Hr [Hlt [Hmax Hfirst]]]].
    rewrite Hr. cbn [bind]. exists r, (S pos).
    rewrite Hlen in *. split; [reflexivity|]. split; [exact Hlt|]. split.
    + intros _. auto.
    + intro Hge. exfalso. apply (Qlt_not_le _ _ E Hge).
  - apply Qltb_ge in E.
    destruct (choices_Fin Hlen Hnn Hex Hu) as [r [Hr [Hlt [Hup Hlow]]]].
    rewrite Hr. cbn [bind]. exists r, (S (S pos)).
    split; [reflexivity|]. split; [exact Hlt|]. split.
    + intro Hlt'. exfalso. apply (Qlt_not_le _ _ Hlt' E).
    + intros _. auto.
Qed.

Lemma choose_next_rule_witness :
  exists next_location pos',
    choose_next greedy_draws three_points (9 # 10)
      (map Fin [0; 1 # 4; 3 # 4]%Q) 0
    = Ok (next_location, pos') /\
    next_location < num_locations three_points.
Proof.
  destruct (@choose_next_rule Q greedy_draws three_points (9 # 10)%Q
              [0; 1 # 4; 3 # 4]%Q 0)
    as [next [pos' [Hc [Hlt _]]]].
  - reflexivity.
  - repeat constructor; discriminate.
  - right. left. reflexivity.
  - split; reflexivity || discriminate.
  - exists next, pos'. split; assumption.
Defined.

(** ** The pheromone update of an iteration *)

Lemma edges_cons (a b : nat) (t : list nat) :
  edges (a :: b :: t) = (a, b) :: edges (b :: t).
Proof. reflexivity. Qed.

Lemma deposit_route_get (route : list nat) (k : nat) (dists : list num)
  (P P' : matrix) (i j : nat) (x : num) :
  deposit_route P route k dists = Ok P' ->
  get2 P' i j = Ok x ->
  exists x0, get2 P i j = Ok x0 /\
    x = fold_left add (route_amounts i j route (nth k dists NaN)) x0.
Proof.
  revert P. induction route as [|a t IH]; intros P Hd Hx.
  - injection Hd as <-. exists x. auto.
  - destruct t as [|b t'].
    + injection Hd as <-. exists x. auto.
    + rewrite deposit_route_cons in Hd.
      destruct (nth_error dists k) as [d|] eqn:Ed; [|discriminate].
      assert (Hnth : nth k dists NaN = d) by now apply nth_error_nth.
      unfold route_amounts in *. rewrite Hnth in *.
      set (amount := div (Fin 1) d) in *. clearbody amount.
      inv_bind Hd. rename a0 into P1.
      destruct (IH _ Hd Hx) as [x1 [Hx1 Hfold]].
      erewrite get2_add_at in Hx1 by exact E.
      rewrite edges_cons. cbn [filter].
      unfold is_edge at 1. cbn [fst snd].
      rewrite (Nat.eqb_sym a i), (Nat.eqb_sym b j).
      destruct ((i =? a) && (j =? b)).
      * inv_bind Hx1. injection Hx1 as <-. exists a0.
        split; [reflexivity|]. cbn [map fold_left]. exact Hfold.
      * exists x1. auto.
Qed.

Lemma deposit_all_get (routes : list (list nat)) (k : nat)
  (dists : list num) (P P' : matrix) (i j : nat) (x : num) :
  deposit_all P routes k dists = Ok P' ->
  get2 P' i j = Ok x ->
  exists x0, get2 P i j = Ok x0 /\
    x = fold_left add (amounts_on i j routes k dists) x0.
Proof.
  revert k P. induction routes as [|r rs IH]; intros k P Hd Hx;
    cbn [deposit_all] in Hd.
  - injection Hd as <-. exists x. auto.
  - inv_bind Hd. rename a into P1.
    destruct (IH _ _ Hd Hx) as [x1 [Hx1 Hfold]].
    edestruct deposit_route_get as [x0 [Hx0 Hfold0]];
      [exact E | exact Hx1 |].
    exists x0. split; [exact Hx0|].
    cbn [amounts_on]. rewrite fold_left_app. now rewrite <- Hfold0.
Qed.

(** The deposits keep every cell of the matrix. *)
Lemma deposit_route_defined (route : list nat) (k : nat) (dists : list num)
  (P P' : matrix) (i j : nat) (x0 : num) :
  deposit_route P route k dists = Ok P' ->
  get2 P i j = Ok x0 -> exists x, get2 P' i j = Ok x.
Proof.
  revert P x0. induction route as [|a t IH]; intros P x0 Hd Hx.
  - injection Hd as <-. eauto.
  - destruct t as [|b t'].
    + injection Hd as <-. eauto.
    + rewrite deposit_route_cons in Hd.
      destruct (nth_error dists k) as [d|]; [|discriminate].
      inv_bind Hd. rename a0 into P1.
      assert (H1 : exists x1, get2 P1 i j = Ok x1).
      { erewrite get2_add_at by exact E. rewrite Hx.
        destruct ((i =? a) && (j =? b)); cbn [bind]; eauto. }
      destruct H1 as [x1 Hx1]. eapply IH; eassumption.
Qed.

Lemma deposit_all_defined (routes : list (list nat)) (k : nat)
  (dists : list num) (P P' : matrix) (i j : nat) (x0 : num) :
  deposit_all P routes k dists = Ok P' ->
  get2 P i j = Ok x0 -> exists x, get2 P' i j = Ok x.
Proof.
  revert k P x0. induction routes as [|r rs IH]; intros k P x0 Hd Hx;
    cbn [deposit_all] in Hd.
  - injection Hd as <-. eauto.
  - inv_bind Hd. rename a into P1.
    edestruct deposit_route_defined as [x1 Hx1]; [exact E | exact Hx |].
    eapply IH; eassumption.
Qed.

(** The ants leave the pheromone matrix as it was. *)
Lemma run_ants_pheromone (loc : Type) (geodesic : loc -> loc -> num)
  (draws : nat -> Q) (fuel : nat) (locations : list loc) (start_index : nat)
  (alpha beta : Z) (q0 : Q) (n : nat) (st st' : colony)
  (rs rs' : list (list nat)) (ds ds' : list num) :
  run_ants geodesic draws fuel locations start_index alpha beta q0 n st rs
    ds = Ok (st', rs', ds') ->
  pheromone_matrix st' = pheromone_matrix st.
Proof.
  revert st rs ds. induction n as [|n IH]; intros st rs ds H;
    cbn [run_ants] in H.
  - now injection H as <- _ _.
  - inv_bind H. destruct a as [[route total] pos].
    rewrite (IH _ _ _ H).
    now destruct (update_best_fields st route total pos) as [-> _].
Qed.

Section SnapshotFacts.

Variable loc : Type.
Variable geodesic : loc -> loc -> num.
Variable draws : nat -> Q.
Variable fuel : nat.
Variable locations : list loc.
Variable start_index : nat.
Variables alpha beta : Z.
Variable q0 : Q.

Lemma construct_route_closed (P : matrix) (pos : nat) (route : list nat)
  (total : num) (pos' : nat) :
  construct_route geodesic draws fuel locations start_index alpha beta q0 P
    pos = Ok (route, total, pos') ->
  hd 0 route = start_index /\ last route 0 = start_index.
Proof.
  unfold construct_route. intro H.
  inv_bind H. destruct a as [[r t] p]. inv_bind H.
  injection H as <- <- <-.
  edestruct build_route_total as [Hne [Hhd _]];
    [exact E | discriminate | reflexivity |].
  simpl in Hhd. rewrite last_snoc, hd_snoc by exact Hne. auto.
Qed.

(** Every route of an iteration is built on the pheromone matrix that
    the iteration started with, which the ants leave as it was. *)
Lemma run_ants_snapshot (n : nat) (st st' : colony) (rs rs' : list (list nat))
  (ds ds' : list num) :
  run_ants geodesic draws fuel locations start_index alpha beta q0 n st rs
    ds = Ok (st', rs', ds') ->
  exists new_routes new_distances,
    rs' = rs ++ new_routes /\ ds' = ds ++ new_distances /\
    length new_routes = n /\
    Forall2
      (fun route total => exists pos pos',
         construct_route geodesic draws fuel locations start_index alpha
           beta q0 (pheromone_matrix st) pos = Ok (route, total, pos'))
      new_routes new_distances.
Proof.
  revert st rs ds. induction n as [|n IH]; intros st rs ds H;
    cbn [run_ants] in H.
  - injection H as <- <- <-. exists [], []. rewrite !app_nil_r.
    repeat split; auto.
  - inv_bind H. destruct a as [[route total] pos].
    destruct (IH _ _ _ H) as [nr [nd [Hrs [Hds [Hlen Hall]]]]].
    destruct (update_best_fields st route total pos) as [HP _].
    rewrite HP in Hall.
    exists (route :: nr), (total :: nd).
    rewrite <- app_assoc in Hrs, Hds. simpl in Hrs, Hds.
    repeat split; auto.
    + simpl. now rewrite Hlen.
    + constructor; [|exact Hall]. exists (rng st), pos. exact E.
Qed.

End SnapshotFacts.

(** C5: in an iteration every ant builds its route on the pheromone
    matrix that the iteration started with, and the ants leave it
    untouched; afterwards the matrix has the cells that it had, and
    each cell [(i, j)] holds its former value multiplied by [1 - rho],
    to which [1 / total_distance] of a route is added once for each
    time that route goes from [i] to [j], the closing edge back to the
    start included. *)
Theorem pheromone_update (loc : Type) (geodesic : loc -> loc -> num)
  (draws : nat -> Q) (fuel : nat) (locations : list loc)
  (start_index n_ants : nat) (alpha beta : Z) (rho q0 : Q)
  (st st' : colony) :
  run_iteration geodesic draws fuel locations start_index n_ants alpha beta
    rho q0 st = Ok st' ->
  exists st1 all_routes all_distances,
    run_ants geodesic draws fuel locations start_index alpha beta q0 n_ants
      st [] [] = Ok (st1, all_routes, all_distances) /\
    pheromone_matrix st1 = pheromone_matrix st /\
    length all_routes = n_ants /\
    Forall2
      (fun route total =>
         (exists pos pos',
            construct_route geodesic draws fuel locations start_index alpha
              beta q0 (pheromone_matrix st) pos = Ok (route, total, pos')) /\
         hd 0 route = start_index /\ last route 0 = start_index)
      all_routes all_distances /\
    (forall i j x0,
       get2 (pheromone_matrix st) i j = Ok x0 ->
       get2 (pheromone_matrix st') i j
       = Ok (fold_left add (amounts_on i j all_routes 0 all_distances)
               (mul x0 (Fin (1 - rho)%Q)))) /\
    (forall i j x,
       get2 (pheromone_matrix st') i j = Ok x ->
       exists x0,
         get2 (pheromone_matrix st) i j = Ok x0 /\
         x = fold_left add (amounts_on i j all_routes 0 all_distances)
               (mul x0 (Fin (1 - rho)%Q))).
Proof.
  unfold run_iteration. intro H.
  inv_bind H. destruct a as [[st1 rs] ds]. inv_bind H. rename a into P'.
  injection H as <-. cbn [pheromone_matrix].
  edestruct run_ants_snapshot as [nr [nd [Hrs [Hds [Hlen Hall]]]]];
    [exact E|].
  simpl in Hrs, Hds. subst rs ds.
  assert (HP : pheromone_matrix st1 = pheromone_matrix st)
    by (eapply run_ants_pheromone; exact E).
  assert (Hback : forall i j x,
            get2 P' i j = Ok x ->
            exists x0,
              get2 (pheromone_matrix st) i j = Ok x0 /\
              x = fold_left add (amounts_on i j nr 0 nd)
                    (mul x0 (Fin (1 - rho)%Q))).
  { intros i j x Hx.
    edestruct deposit_all_get as [x1 [Hx1 Hfold]]; [exact E0 | exact Hx |].
    unfold evaporate in Hx1. rewrite get2_map, HP in Hx1.
    inv_bind Hx1. injection Hx1 as <-. exists a. auto. }
  exists st1, nr, nd. split; [reflexivity|]. split; [exact HP|].
  split; [exact Hlen|]. split; [|split].
  - eapply Forall2_impl; [|exact Hall]. intros route total [pos [pos' Hc]].
    split; [eauto|]. eapply construct_route_closed; eassumption.
  - intros i j x0 Hx0.
    assert (He : get2 (evaporate rho (pheromone_matrix st1)) i j
                 = Ok (mul x0 (Fin (1 - rho)%Q))).
    { unfold evaporate. rewrite get2_map, HP, Hx0. reflexivity. }
    edestruct deposit_all_defined as [x Hx]; [exact E0 | exact He |].
    destruct (Hback i j x Hx) as [x0' [Hx0' ->]].
    rewrite Hx0 in Hx0'. injection Hx0' as <-. exact Hx.
  - exact Hback.
Qed.

Lemma pheromone_update_witness :
  run_iteration line greedy_draws 3 three_points 0 2 1 2 (1 # 2) (9 # 10)
    (initial three_points) = Ok demo_state1 /\
  exists all_routes all_distances,
    length all_routes = 2 /\
    (forall i j x0,
       get2 (pheromone_matrix (initial three_points)) i j = Ok x0 ->
       get2 (pheromone_matrix demo_state1) i j
       = Ok (fold_left add (amounts_on i j all_routes 0 all_distances)
               (mul x0 (Fin (1 - (1 # 2))%Q)))) /\
    (forall i j x,
       get2 (pheromone_matrix demo_state1) i j = Ok x ->
       exists x0,
         get2 (pheromone_matrix (initial three_points)) i j = Ok x0 /\
         x = fold_left add (amounts_on i j all_routes 0 all_distances)
               (mul x0 (Fin (1 - (1 # 2))%Q))).
Proof.
  assert (H : run_iteration line greedy_draws 3 three_points 0 2 1 2
                (1 # 2) (9 # 10) (initial three_points) = Ok demo_state1)
    by (vm_compute; reflexivity).
  split; [exact H|].
  destruct (@pheromone_update _ _ _ _ _ _ _ _ _ _ _ _ _ H)
    as [st1 [rs [ds [_ [_ [Hlen [_ [Hcells Hback]]]]]]]].
  exists rs, ds. split; [exact Hlen|]. split; [exact Hcells | exact Hback].
Defined.

(** ** Cells of the pheromone matrix along a run *)

Section SignFacts.

Local Open Scope Q_scope.

Lemma not_negative_cases (x : num) :
  not_negative x <-> nonneg x \/ x = PInf \/ x = NaN.
Proof.
  unfold not_negative. destruct x as [q| | |]; simpl.
  - rewrite Qltb_ge. split.
    + intro H. left. now apply nonneg_Fin.
    + intros [H|[H|H]]; try discriminate. now apply nonneg_Fin.
  - split; auto.
  - split; [discriminate|]. intros [[q [H _]]|[H|H]]; discriminate.
  - split; auto.
Qed.

Lemma above_zero_cases (x : num) :
  above_zero x <-> positive x \/ x = PInf.
Proof.
  unfold above_zero. destruct x as [q| | |]; simpl.
  - rewrite Qltb_lt. split.
    + intro H. left. now apply positive_Fin.
    + intros [H|H]; try discriminate. now apply positive_Fin.
  - split; auto.
  - split; [discriminate|]. intros [[q [H _]]|H]; discriminate.
  - split; [discriminate|]. intros [[q [H _]]|H]; discriminate.
Qed.

Lemma not_negative_add (x a : num) :
  not_negative x -> above_zero a -> not_negative (add x a).
Proof.
  rewrite !not_negative_cases, above_zero_cases.
  intros [Hx|[->| ->]] [Ha| ->].
  - left. apply nonneg_add; [exact Hx | now apply positive_nonneg].
  - destruct Hx as [q [-> _]]. auto.
  - destruct Ha as [q [-> _]]. auto.
  - auto.
  - auto.
  - auto.
Qed.

Lemma not_negative_scale (x : num) (c : Q) :
  0 <= c -> not_negative x -> not_negative (mul x (Fin c)).
Proof.
  intro Hc. rewrite !not_negative_cases. intros [Hx|[->| ->]].
  - left. apply nonneg_mul; [exact Hx | now apply nonneg_Fin].
  - unfold mul, scale_inf. destruct (0 ?= c) eqn:E; auto.
    exfalso. apply Qgt_alt in E. lra.
  - auto.
Qed.

Lemma above_zero_amount (d : num) : nonneg d -> above_zero (div (Fin 1) d).
Proof.
  intros [q [-> Hq]]. apply above_zero_cases. unfold div.
  destruct (Qeq_bool q 0) eqn:E.
  - right. reflexivity.
  - left. apply positive_Fin. apply Qeq_bool_neq in E.
    apply Qdiv_pos_pos; lra.
Qed.

Lemma nonneg_scale (x : num) (c : Q) :
  0 <= c -> nonneg x -> nonneg (mul x (Fin c)).
Proof.
  intros Hc Hx. apply nonneg_mul; [exact Hx | now apply nonneg_Fin].
Qed.

Lemma nonneg_add_positive (x a : num) :
  nonneg x -> positive a -> nonneg (add x a).
Proof.
  intros Hx Ha. apply nonneg_add; [exact Hx | now apply positive_nonneg].
Qed.

End SignFacts.

Section TotalFacts.

Variable loc : Type.
Variable geodesic : loc -> loc -> num.
Variable draws : nat -> Q.
Variable fuel : nat.
Variable locations : list loc.
Variable start_index : nat.
Variables alpha beta : Z.
Variable q0 : Q.

Local Abbreviation N := (num_locations locations).
Local Abbreviation D := (distance_matrix geodesic locations).

Hypothesis D_nonneg : nonneg_distances geodesic locations.

Lemma distance_nonneg (i j : nat) (d : num) :
  get2 D i j = Ok d -> nonneg d.
Proof.
  intro H. apply get2_distance_Ok in H.
  destruct H as [a [b [Ha [Hb [-> _]]]]].
  apply D_nonneg; eapply nth_error_In; eassumption.
Qed.

Lemma distance_positive (i j : nat) (d : num) :
  valid_distances geodesic locations ->
  get2 D i j = Ok d -> i <> j -> positive d.
Proof.
  intros Hval H Hne. apply get2_distance_Ok in H.
  destruct H as [a [b [Ha [Hb [-> _]]]]].
  exact (Hval _ _ _ _ Ha Hb Hne).
Qed.

Lemma length_set_add (x : nat) (l : set nat) :
  length (set_add Nat.eq_dec x l) = if in_dec Nat.eq_dec x l then length l
                                    else S (length l).
Proof.
  destruct (in_dec Nat.eq_dec x l) as [Hin|Hnin].
  - now rewrite set_add_old.
  - rewrite set_add_new by exact Hnin. rewrite length_app. simpl. lia.
Qed.

(** Whatever the pheromone matrix, a route that the loop returns has a
    finite non-negative total, which is positive once a second location
    has been visited. *)
Lemma build_route_distance (rounds : nat) (P : matrix) (route : list nat)
  (visited : set nat) (total : num) (pos : nat) (route' : list nat)
  (total' : num) (pos' : nat) :
  build_route geodesic draws locations alpha beta q0 rounds P route visited
    total pos = Ok (route', total', pos') ->
  route <> [] -> In (last route 0) visited ->
  nonneg total ->
  (valid_distances geodesic locations -> 2 <= length visited ->
   positive total) ->
  nonneg total' /\
  (valid_distances geodesic locations -> 2 <= N -> positive total').
Proof.
  revert route visited total pos.
  induction rounds as [|rounds IH];
    intros route visited total pos H Hne Hin Hnn Hpos;
    cbn [build_route] in H.
  - destruct (length visited <? N) eqn:El; [discriminate|].
    injection H as <- <- <-. apply Nat.ltb_ge in El.
    split; [exact Hnn|]. intros Hval HN. apply Hpos; [exact Hval | lia].
  - destruct (length visited <? N) eqn:El.
    + inv_bind H. inv_bind H. destruct a0 as [next pos1]. inv_bind H.
      rename a0 into d.
      apply (IH _ _ _ _ H).
      * destruct route; discriminate.
      * rewrite last_snoc. apply set_add_intro2. reflexivity.
      * apply nonneg_add; [exact Hnn | now apply distance_nonneg in E1].
      * intros Hval Hlen. rewrite length_set_add in Hlen.
        destruct (in_dec Nat.eq_dec next visited) as [Hold|Hnew].
        -- apply positive_add_l; [now apply Hpos|].
           now apply distance_nonneg in E1.
        -- apply positive_add_r; [exact Hnn|].
           apply (distance_positive Hval E1). congruence.
    + injection H as <- <- <-. apply Nat.ltb_ge in El.
      split; [exact Hnn|]. intros Hval HN. apply Hpos; [exact Hval | lia].
Qed.

Lemma construct_route_distance (P : matrix) (pos : nat) (route : list nat)
  (total : num) (pos' : nat) :
  construct_route geodesic draws fuel locations start_index alpha beta q0 P
    pos = Ok (route, total, pos') ->
  nonneg total /\
  (valid_distances geodesic locations -> 2 <= N -> positive total).
Proof.
  unfold construct_route. intro H.
  inv_bind H. destruct a as [[r t] p]. inv_bind H. rename a into d.
  injection H as <- <- <-.
  edestruct build_route_distance as [Hnn Hpos];
    [exact E | discriminate | now left | apply nonneg_Fin; discriminate
    | simpl; intros; lia |].
  apply distance_nonneg in E0. split.
  - now apply nonneg_add.
  - intros Hval HN. apply positive_add_l; auto.
Qed.

End TotalFacts.

Section CellInvariant.

Variable loc : Type.
Variable geodesic : loc -> loc -> num.
Variable draws : nat -> Q.
Variable fuel : nat.
Variable locations : list loc.
Variable start_index : nat.
Variable n_ants : nat.
Variables alpha beta : Z.
Variables rho q0 : Q.

(** A class of cell values, of deposited amounts and of total
    distances, such that no step of an iteration leaves the first. *)
Variables Cell Amount Total : num -> Prop.
Hypothesis Cell_one : Cell (Fin 1).
Hypothesis Cell_evaporate :
  forall x, Cell x -> Cell (mul x (Fin (1 - rho)%Q)).
Hypothesis Cell_add : forall x a, Cell x -> Amount a -> Cell (add x a).
Hypothesis Total_amount : forall d, Total d -> Amount (div (Fin 1) d).
Hypothesis Total_construct :
  forall P pos route total pos',
    construct_route geodesic draws fuel locations start_index alpha beta q0
      P pos = Ok (route, total, pos') ->
    Total total.

Lemma run_ants_totals (st st' : colony) (rs : list (list nat))
  (ds : list num) :
  run_ants geodesic draws fuel locations start_index alpha beta q0 n_ants
    st [] [] = Ok (st', rs, ds) ->
  Forall Total ds.
Proof.
  intro H.
  edestruct run_ants_snapshot as [nr [nd [_ [Hds [_ Hall]]]]]; [exact H|].
  simpl in Hds. subst ds. clear H.
  induction Hall as [|r d nr nd [pos [pos' Hc]] _ IH]; constructor.
  - eapply Total_construct; eassumption.
  - exact IH.
Qed.

(** Every intermediate matrix of the pheromone update of an iteration
    has its cells in the class. *)
Lemma iteration_cells (st st1 : colony) (rs : list (list nat))
  (ds : list num) (m l : nat) (Pm Pl : matrix) :
  all_cells Cell (pheromone_matrix st) ->
  run_ants geodesic draws fuel locations start_index alpha beta q0 n_ants
    st [] [] = Ok (st1, rs, ds) ->
  deposit_all (evaporate rho (pheromone_matrix st1)) (firstn m rs) 0 ds
  = Ok Pm ->
  deposit_route Pm (firstn l (nth m rs [])) m ds = Ok Pl ->
  all_cells Cell (pheromone_matrix st1) /\
  all_cells Cell (evaporate rho (pheromone_matrix st1)) /\
  all_cells Cell Pm /\ all_cells Cell Pl /\
  Forall (fun d => Amount (div (Fin 1) d)) ds.
Proof.
  intros HC Hants Hm Hl.
  assert (HP : pheromone_matrix st1 = pheromone_matrix st)
    by (eapply run_ants_pheromone; eassumption).
  assert (Hds : Forall (fun d => Amount (div (Fin 1) d)) ds).
  { eapply Forall_impl; [|eapply run_ants_totals; eassumption].
    intros d Hd. now apply Total_amount. }
  assert (He : all_cells Cell (evaporate rho (pheromone_matrix st1))).
  { rewrite HP. unfold all_cells.
    apply (evaporate_sat rho (R := fun _ _ x => Cell x)); [|exact HC].
    intros _ _ x Hx. now apply Cell_evaporate. }
  assert (HPm : all_cells Cell Pm).
  { unfold all_cells in *.
    eapply (deposit_all_keeps (R := fun _ _ x => Cell x) Amount);
      [exact (fun _ _ => Cell_add) | exact Hds | exact Hm | exact He]. }
  split; [now rewrite HP|]. split; [exact He|]. split; [exact HPm|].
  split; [|exact Hds].
  unfold all_cells in *.
  eapply (deposit_route_keeps (R := fun _ _ x => Cell x) Amount);
    [exact (fun _ _ => Cell_add) | exact Hds | exact Hl | exact HPm].
Qed.

Lemma run_iteration_cells (st st' : colony) :
  run_iteration geodesic draws fuel locations start_index n_ants alpha beta
    rho q0 st = Ok st' ->
  all_cells Cell (pheromone_matrix st) ->
  all_cells Cell (pheromone_matrix st').
Proof.
  unfold run_iteration. intros H HC.
  inv_bind H. destruct a as [[st1 rs] ds]. inv_bind H. rename a into P'.
  injection H as <-. cbn [pheromone_matrix].
  assert (Hm : deposit_all (evaporate rho (pheromone_matrix st1))
                 (firstn (length rs) rs) 0 ds = Ok P')
    by now rewrite firstn_all.
  assert (Hl : deposit_route P' (firstn 0 (nth (length rs) rs []))
                 (length rs) ds = Ok P') by reflexivity.
  edestruct iteration_cells as [_ [_ [HP' _]]];
    [exact HC | exact E | exact Hm | exact Hl |].
  exact HP'.
Qed.

Lemma run_iterations_cells (n : nat) (st st' : colony) :
  run_iterations geodesic draws fuel locations start_index n_ants alpha
    beta rho q0 n st = Ok st' ->
  all_cells Cell (pheromone_matrix st) ->
  all_cells Cell (pheromone_matrix st').
Proof.
  revert st. induction n as [|n IH]; intros st H HC;
    cbn [run_iterations] in H.
  - now injection H as <-.
  - inv_bind H. apply (IH _ H). eapply run_iteration_cells; eassumption.
Qed.

Lemma initial_cells : all_cells Cell (pheromone_matrix (initial locations)).
Proof.
  intros i j x Hx. apply get2_ones in Hx. subst. exact Cell_one.
Qed.

End CellInvariant.

(** C9: for an evaporation rate of at most 1 (as every rate of [0, 1]
    is) and non-negative distances, no cell of the pheromone matrix is below zero at any point of a run:
    the initial cells are 1; after any number of iterations, after the
    ants of the next one, after its evaporation, after the deposits of
    its first [m] routes and of the first edges of the following route,
    every cell is not negative, each deposited amount [1 / total] being
    above zero.  For at least 2 locations at positive pairwise
    distances the cells are moreover finite and the amounts finite and
    positive. *)
Theorem pheromone_never_negative (loc : Type)
  (geodesic : loc -> loc -> num) (draws : nat -> Q) (fuel : nat)
  (locations : list loc) (start_index n_ants : nat) (alpha beta : Z)
  (rho q0 : Q) (n : nat) (st st1 : colony) (all_routes : list (list nat))
  (all_distances : list num) (m l : nat) (Pm Pl : matrix) :
  nonneg_distances geodesic locations ->
  (rho <= 1)%Q ->
  run_iterations geodesic draws fuel locations start_index n_ants alpha
    beta rho q0 n (initial locations) = Ok st ->
  run_ants geodesic draws fuel locations start_index alpha beta q0 n_ants
    st [] [] = Ok (st1, all_routes, all_distances) ->
  deposit_all (evaporate rho (pheromone_matrix st1)) (firstn m all_routes)
    0 all_distances = Ok Pm ->
  deposit_route Pm (firstn l (nth m all_routes [])) m all_distances
  = Ok Pl ->
  all_cells (fun x => x = Fin 1) (pheromone_matrix (initial locations)) /\
  all_cells not_negative (pheromone_matrix st) /\
  all_cells not_negative (pheromone_matrix st1) /\
  all_cells not_negative (evaporate rho (pheromone_matrix st1)) /\
  all_cells not_negative Pm /\
  all_cells not_negative Pl /\
  Forall (fun d => above_zero (div (Fin 1) d)) all_distances /\
  (valid_distances geodesic locations -> 2 <= num_locations locations ->
   all_cells nonneg Pl /\
   Forall (fun d => positive (div (Fin 1) d)) all_distances).
Proof.
  intros Hnn Hrho1 Hrun Hants Hm Hl.
  assert (Hc : (0 <= 1 - rho)%Q) by lra.
  split.
  { intros i j x Hx. now apply get2_ones in Hx. }
  assert (Hst : all_cells not_negative (pheromone_matrix st)).
  { eapply (run_iterations_cells geodesic draws fuel locations start_index
              n_ants alpha beta rho q0 (Cell := not_negative) above_zero
              nonneg).
    - intros x Hx. now apply not_negative_scale.
    - exact not_negative_add.
    - exact above_zero_amount.
    - intros P pos route total pos' Hcr.
      eapply (proj1 (construct_route_distance _ _ _ _ _ _ Hnn _ _ Hcr)).
    - exact Hrun.
    - apply initial_cells. reflexivity. }
  split; [exact Hst|].
  edestruct (iteration_cells geodesic draws fuel locations start_index
               n_ants alpha beta rho q0 (Cell := not_negative) above_zero
               nonneg) as [H1 [He [HPm [HPl Hds]]]];
    [ intros x Hx; now apply not_negative_scale
    | exact not_negative_add
    | exact above_zero_amount
    | intros P pos route total pos' Hcr;
      eapply (proj1 (construct_route_distance _ _ _ _ _ _ Hnn _ _ Hcr))
    | exact Hst | exact Hants | exact Hm | exact Hl |].
  split; [exact H1|]. split; [exact He|]. split; [exact HPm|].
  split; [exact HPl|]. split; [exact Hds|].
  intros Hval HN.
  assert (Hst' : all_cells nonneg (pheromone_matrix st)).
  { eapply (run_iterations_cells geodesic draws fuel locations start_index
              n_ants alpha beta rho q0 (Cell := nonneg) positive positive).
    - intros x Hx. now apply nonneg_scale.
    - exact nonneg_add_positive.
    - exact positive_amount.
    - intros P pos route total pos' Hcr.
      eapply (proj2 (construct_route_distance _ _ _ _ _ _ Hnn _ _ Hcr));
        assumption.
    - exact Hrun.
    - apply initial_cells. apply nonneg_Fin. discriminate. }
  edestruct (iteration_cells geodesic draws fuel locations start_index
               n_ants alpha beta rho q0 (Cell := nonneg) positive positive)
    as [_ [_ [_ [HPl' Hds']]]];
    [ intros x Hx; now apply nonneg_scale
    | exact nonneg_add_positive
    | exact positive_amount
    | intros P pos route total pos' Hcr;
      eapply (proj2 (construct_route_distance _ _ _ _ _ _ Hnn _ _ Hcr));
      assumption
    | exact Hst' | exact Hants | exact Hm | exact Hl |].
  split; [exact HPl' | exact Hds'].
Qed.

Lemma line_nonneg (locations : list Q) : nonneg_distances line locations.
Proof.
  intros a b _ _. apply nonneg_Fin. apply Qabs_nonneg.
Qed.

Lemma pheromone_never_negative_witness :
  run_ants line greedy_draws 3 three_points 0 1 2 (9 # 10) 2 demo_state1
    [] [] = Ok demo_ants /\
  deposit_route demo_deposit1 (firstn 2 (nth 1 (snd (fst demo_ants)) [])) 1
    (snd demo_ants) = Ok demo_deposit2 /\
  all_cells not_negative demo_deposit2 /\
  Forall (fun d => above_zero (div (Fin 1) d)) (snd demo_ants).
Proof.
  assert (H1 : run_iterations line greedy_draws 3 three_points 0 2 1 2
                 (1 # 2) (9 # 10) 1 (initial three_points)
               = Ok demo_state1) by (vm_compute; reflexivity).
  assert (H2 : run_ants line greedy_draws 3 three_points 0 1 2 (9 # 10) 2
                 demo_state1 [] []
               = Ok (fst (fst demo_ants), snd (fst demo_ants),
                     snd demo_ants)) by (vm_compute; reflexivity).
  assert (H3 : deposit_all
                 (evaporate (1 # 2) (pheromone_matrix (fst (fst demo_ants))))
                 (firstn 1 (snd (fst demo_ants))) 0 (snd demo_ants)
               = Ok demo_deposit1) by (vm_compute; reflexivity).
  assert (H4 : deposit_route demo_deposit1
                 (firstn 2 (nth 1 (snd (fst demo_ants)) [])) 1
                 (snd demo_ants) = Ok demo_deposit2)
    by (vm_compute; reflexivity).
  split; [exact H2|]. split; [exact H4|].
  destruct (@pheromone_never_negative Q line greedy_draws 3 three_points 0 2
              1%Z 2%Z (1 # 2)%Q (9 # 10)%Q 1 demo_state1
              (fst (fst demo_ants)) (snd (fst demo_ants)) (snd demo_ants)
              1 2 demo_deposit1 demo_deposit2 (line_nonneg three_points)
              (Qle_bool_imp_le (1 # 2) 1 eq_refl) H1 H2 H3 H4)
    as [_ [_ [_ [_ [_ [Hl [Hd _]]]]]]].
  split; [exact Hl | exact Hd].
Defined.

(** ** Two locations *)

Lemma tour_of_two (start : nat) (tour : list nat) :
  start < 2 -> is_tour 2 start tour -> tour = [start; 1 - start; start].
Proof.
  intros Hs [Hlen [Hhd [Hlast Hperm]]].
  destruct tour as [|x [|y [|z [|w t]]]]; simpl in Hlen; try lia.
  simpl in Hhd, Hlast. subst x z.
  change (removelast [start; y; start]) with [start; y] in Hperm.
  assert (Hy : In y [0; 1]).
  { apply (Permutation_in _ Hperm). right. now left. }
  assert (Hnd : NoDup [start; y]).
  { apply (Permutation_NoDup (Permutation_sym Hperm)).
    apply (seq_NoDup 2 0). }
  inversion Hnd as [|? ? Hnin _]; subst.
  assert (y <> start) by (intro; subst; apply Hnin; now left).
  destruct Hy as [<-|[<-|[]]]; repeat f_equal; lia.
Qed.

(** The helper behind the recomputation of a route's distance. *)
Lemma construct_route_total (loc : Type) (geodesic : loc -> loc -> num)
  (draws : nat -> Q) (fuel : nat) (locations : list loc) (start_index : nat)
  (alpha beta : Z) (q0 : Q) (P : matrix) (pos : nat) (route : list nat)
  (total_distance : num) (pos' : nat) :
  construct_route geodesic draws fuel locations start_index alpha beta q0 P
    pos = Ok (route, total_distance, pos') ->
  plot_route_total geodesic locations route (Fin 0) = Ok total_distance.
Proof.
  unfold construct_route. intro H.
  inv_bind H. destruct a as [[r total] pos1]. inv_bind H.
  injection H as <- <- <-.
  edestruct build_route_total as [Hne [Hhd Hp]];
    [exact E | discriminate | reflexivity |].
  apply plot_route_total_snoc; assumption.
Qed.

Section TwoLocations.

Local Open Scope Q_scope.

Variable loc : Type.
Variable geodesic : loc -> loc -> num.
Variable draws : nat -> Q.
Variable fuel : nat.
Variables a b : loc.
Variable start_index : nat.
Variable n_ants : nat.
Variables alpha beta : Z.
Variables rho q0 : Q.

Local Abbreviation locations := [a; b].
Local Abbreviation tour := [start_index; (1 - start_index)%nat; start_index].

Hypothesis D_valid : valid_distances geodesic locations.
Hypothesis draws_unit : unit_draws draws.
Hypothesis start_lt : (start_index < 2)%nat.
Hypothesis fuel_ge : (2 <= fuel)%nat.
Hypothesis rho_range : rho <= 1.

(** The deposits of one tour make every cell off the diagonal
    positive. *)
Lemma two_deposit_positive (P P1 : matrix) (dists : list num) (d : num) :
  square 2 P -> offdiag_cells nonneg P ->
  nth_error dists 0 = Some d -> positive d ->
  deposit_route P tour 0 dists = Ok P1 ->
  offdiag_cells positive P1.
Proof.
  intros Hsq Hnn Hd Hpos Hdep i j x Hx Hne.
  assert (Hsq1 : square 2 P1).
  { destruct (@deposit_route_sat 2 (fun _ _ _ => True) positive
                (fun _ _ _ _ _ _ => I) tour 0%nat dists d P Hd
                (positive_amount Hpos)) as [P1' [HP1' [Hsq1 _]]].
    - intros y [<-|[<-|[<-|[]]]]; lia.
    - exact Hsq.
    - intros ? ? ? ?. exact I.
    - rewrite Hdep in HP1'. now injection HP1' as <-. }
  destruct (@get2_Ok_lt 2 P1 i j x Hsq1 Hx) as [Hi Hj].
  edestruct deposit_route_get as [x0 [Hx0 Hfold]]; [exact Hdep | exact Hx |].
  rewrite (nth_error_nth _ _ _ Hd) in Hfold.
  specialize (Hnn _ _ _ Hx0 Hne).
  pose proof (positive_amount Hpos) as Ha.
  assert (Hcases : (i = start_index /\ j = 1 - start_index)%nat \/
                   (i = 1 - start_index /\ j = start_index)%nat) by lia.
  assert (Hx' : x = add x0 (div (Fin 1) d)).
  { rewrite Hfold. unfold route_amounts, is_edge.
    destruct Hcases as [[-> ->]|[-> ->]];
      destruct start_index as [|[|k]]; try lia; reflexivity. }
  rewrite Hx'. now apply positive_add_r.
Qed.

Lemma two_iteration_ok (st : colony) :
  (0 < n_ants)%nat ->
  good_pheromone 2 (pheromone_matrix st) ->
  best_ok 2 start_index st ->
  exists st',
    run_iteration geodesic draws fuel locations start_index n_ants alpha
      beta rho q0 st = Ok st' /\
    good_pheromone 2 (pheromone_matrix st') /\
    best_ok 2 start_index st' /\ best_route st' <> None.
Proof.
  intros ants HP Hb. unfold run_iteration.
  destruct (@run_ants_ok loc geodesic draws fuel locations start_index
              alpha beta q0 D_valid draws_unit (le_n 2) start_lt fuel_ge
              n_ants st [] [] HP Hb)
    as [st1 [nr [nd [Hr [HP1 [_ [Hb1 [Hall [Hlen Hbest]]]]]]]]].
  simpl in Hr. rewrite Hr. cbn [bind].
  destruct HP as [Hsq Hpos]. rewrite HP1.
  assert (Hsqe : square 2 (evaporate rho (pheromone_matrix st)))
    by now apply evaporate_square.
  assert (Hnne : offdiag_cells nonneg (evaporate rho (pheromone_matrix st))).
  { unfold offdiag_cells.
    apply (evaporate_sat rho (R := fun i j x => i <> j -> positive x));
      [|exact Hpos].
    intros i j x Hx Hne. apply nonneg_scale; [lra|].
    apply positive_nonneg. auto. }
  destruct Hall as [|r1 d1 nr' nd' [Ht1 Hd1] Hall']; simpl in Hlen; [lia|].
  apply (tour_of_two start_lt) in Ht1. subst r1.
  cbn [deposit_all].
  destruct (@deposit_route_sat 2 (fun i j x => i <> j -> nonneg x) positive
              (fun i j x a Hx Ha Hne => nonneg_add_positive (Hx Hne) Ha)
              tour 0%nat (d1 :: nd') d1
              (evaporate rho (pheromone_matrix st)) eq_refl
              (positive_amount Hd1)) as [P1 [HP1' [Hsq1 _]]].
  - intros y [<-|[<-|[<-|[]]]]; lia.
  - exact Hsqe.
  - exact Hnne.
  - rewrite HP1'. cbn [bind].
    assert (Hpos1 : offdiag_cells positive P1).
    { exact (@two_deposit_positive (evaporate rho (pheromone_matrix st)) P1
               (d1 :: nd') d1 Hsqe Hnne eq_refl Hd1 HP1'). }
    assert (Hall2 : Forall2 (fun r d => (forall x, In x r -> (x < 2)%nat) /\
                                        positive (div (Fin 1) d)) nr' nd').
    { eapply Forall2_impl; [|exact Hall']. intros r d [Ht Hd].
      split; [now apply (is_tour_lt start_lt) | now apply positive_amount]. }
    destruct (deposit_all_sat positive
                (fun i j x a (Hx : i <> j -> positive x) Ha Hne =>
                   positive_add_l (Hx Hne) (positive_nonneg Ha))
                Hall2 [d1] Hsq1 Hpos1) as [P' [HP' [Hsq' Hpos']]].
    simpl in HP'. rewrite HP'. cbn [bind].
    eexists. split; [reflexivity|]. simpl.
    split; [split; assumption|]. split; [exact Hb1|].
    apply Hbest. right. exact ants.
Qed.

Lemma two_iterations_ok (n : nat) (st : colony) :
  (0 < n_ants)%nat ->
  good_pheromone 2 (pheromone_matrix st) ->
  best_ok 2 start_index st ->
  exists st',
    run_iterations geodesic draws fuel locations start_index n_ants alpha
      beta rho q0 n st = Ok st' /\
    good_pheromone 2 (pheromone_matrix st') /\
    best_ok 2 start_index st' /\
    ((0 < n)%nat -> best_route st' <> None).
Proof.
  intro ants. revert st.
  induction n as [|n IH]; intros st HP Hb; cbn [run_iterations].
  - exists st. split; [reflexivity|]. split; [exact HP|].
    split; [exact Hb|]. intro. lia.
  - destruct (two_iteration_ok st ants HP Hb)
      as [st1 [Hr [HP1 [Hb1 Hsome]]]].
    rewrite Hr. cbn [bind].
    destruct (IH st1 HP1 Hb1) as [st' [Hr' [HP' [Hb' Hsome']]]].
    exists st'. split; [exact Hr'|]. split; [exact HP'|].
    split; [exact Hb'|]. intros _.
    destruct n as [|n'].
    + cbn [run_iterations] in Hr'. injection Hr' as <-. exact Hsome.
    + apply Hsome'. lia.
Qed.

(** The tracked total of the tour over two locations. *)
Lemma two_route_total (total : num) :
  plot_route_total geodesic locations tour (Fin 0) = Ok total ->
  exists d d',
    get2 (distance_matrix geodesic locations) start_index (1 - start_index)
    = Ok d /\
    get2 (distance_matrix geodesic locations) (1 - start_index) start_index
    = Ok d' /\
    total = add (add (Fin 0) d) d' /\
    (Num.eqv d d' -> Num.eqv total (mul (Fin 2) d)).
Proof.
  clear fuel_ge draws_unit rho_range. intro Hplot.
  assert (Hab : positive (geodesic a b)).
  { apply (D_valid (i := 0%nat) (j := 1%nat)); [reflexivity.. | lia]. }
  assert (Hba : positive (geodesic b a)).
  { apply (D_valid (i := 1%nat) (j := 0%nat)); [reflexivity.. | lia]. }
  destruct Hab as [dab [Eab Hab]]. destruct Hba as [dba [Eba Hba]].
  destruct start_index as [|[|k]]; [| |lia].
  - exists (geodesic a b), (geodesic b a).
    split; [reflexivity|]. split; [reflexivity|].
    simpl in Hplot. injection Hplot as <-. split; [reflexivity|].
    rewrite Eab, Eba. simpl. lra.
  - exists (geodesic b a), (geodesic a b).
    split; [reflexivity|]. split; [reflexivity|].
    simpl in Hplot. injection Hplot as <-. split; [reflexivity|].
    rewrite Eab, Eba. simpl. lra.
Qed.

(** The ants of an iteration over two locations. *)
Lemma two_run_ants (st : colony) :
  good_pheromone 2 (pheromone_matrix st) ->
  best_ok 2 start_index st ->
  exists st1 all_routes all_distances,
    run_ants geodesic draws fuel locations start_index alpha beta q0 n_ants
      st [] [] = Ok (st1, all_routes, all_distances) /\
    length all_routes = n_ants /\
    Forall2
      (fun route total =>
         route = tour /\
         plot_route_total geodesic locations tour (Fin 0) = Ok total)
      all_routes all_distances.
Proof.
  intros HP Hb.
  destruct (@run_ants_ok loc geodesic draws fuel locations start_index
              alpha beta q0 D_valid draws_unit (le_n 2) start_lt fuel_ge
              n_ants st [] [] HP Hb)
    as [st1 [nr [nd [Hr [_ [_ [_ [Hall [Hlen _]]]]]]]]].
  simpl in Hr. exists st1, nr, nd.
  split; [exact Hr|]. split; [exact Hlen|].
  edestruct run_ants_snapshot as [nr' [nd' [Hnr [Hnd [_ Hsnap]]]]];
    [exact Hr|].
  simpl in Hnr, Hnd. subst nr' nd'.
  clear Hr Hlen. induction Hall as [|r d nr nd [Ht _] _ IH].
  - constructor.
  - inversion Hsnap as [|? ? ? ? [pos [pos' Hc]] Hsnap']; subst.
    apply (tour_of_two start_lt) in Ht. subst r.
    constructor; [|now apply IH].
    split; [reflexivity|]. eapply construct_route_total. exact Hc.
Qed.

End TwoLocations.

(** C8, as amended: for two locations at a distance between
    [dmin > 0] and [dmax], a start index in range, an evaporation rate
    of [0, 1] and parameters under which the two trails and the scores
    made of them stay inside the range of a double during
    [n_iterations] iterations, every iteration is reached and every
    route that its ants build is [start, other, start], with the total
    distance [D[start][other] + D[other][start]], which is
    [2 * D[start][other]] as the distance is symmetric; with at least
    one ant and one iteration [solve_aco] returns that tour. *)
Theorem two_locations_tour (loc : Type) (geodesic : loc -> loc -> num)
  (draws : nat -> Q) (fuel : nat) (a b : loc)
  (start_index n_ants n_iterations : nat) (alpha beta : Z) (rho q0 : Q)
  (dmin dmax : Q) :
  distances_within geodesic [a; b] dmin dmax ->
  start_index < 2 ->
  unit_draws draws ->
  2 <= fuel ->
  (0 <= rho)%Q -> (rho <= 1)%Q ->
  in_double_range (least_trail_of_two dmax)
    (greatest_trail n_ants n_iterations dmin) dmin dmax alpha beta 2 ->
  (forall n, n < n_iterations ->
   exists st st1 all_routes all_distances,
     run_iterations geodesic draws fuel [a; b] start_index n_ants alpha beta
       rho q0 n (initial [a; b]) = Ok st /\
     run_ants geodesic draws fuel [a; b] start_index alpha beta q0 n_ants st
       [] [] = Ok (st1, all_routes, all_distances) /\
     length all_routes = n_ants /\
     Forall2
       (fun route total =>
          route = [start_index; 1 - start_index; start_index] /\
          exists d d',
            get2 (distance_matrix geodesic [a; b]) start_index
              (1 - start_index) = Ok d /\
            get2 (distance_matrix geodesic [a; b]) (1 - start_index)
              start_index = Ok d' /\
            total = add (add (Fin 0) d) d' /\
            (Num.eqv d d' -> Num.eqv total (mul (Fin 2) d)))
       all_routes all_distances) /\
  (0 < n_ants -> 0 < n_iterations ->
   solve_aco geodesic draws fuel [a; b] start_index n_ants n_iterations
     alpha beta rho q0
   = Ok (Some [start_index; 1 - start_index; start_index])).
Proof.
  intros Hin Hstart Hdraws Hfuel _ Hrho Hrange.
  assert (Hval : valid_distances geodesic [a; b]).
  { eapply distances_within_valid; [|exact Hin].
    eapply in_double_range_distance. exact Hrange. }
  assert (Hinit : good_pheromone 2 (pheromone_matrix (initial [a; b])))
    by apply (initial_good [a; b]).
  split.
  - intros n _. destruct n_ants as [|m] eqn:Em.
    + destruct (run_iterations_no_ant geodesic draws fuel [a; b]
                  start_index alpha beta rho q0 n (initial [a; b]))
        as [st [Hr _]].
      exists st, st, [], []. split; [exact Hr|].
      split; [reflexivity|]. split; [reflexivity | constructor].
    + rewrite <- Em.
      destruct (@two_iterations_ok loc geodesic draws fuel a b start_index
                  n_ants alpha beta rho q0 Hval Hdraws Hstart Hfuel Hrho n
                  (initial [a; b]) ltac:(lia) Hinit eq_refl)
        as [st [Hr [HP [Hb _]]]].
      destruct (@two_run_ants loc geodesic draws fuel a b start_index
                  n_ants alpha beta q0 Hval Hdraws Hstart Hfuel st HP Hb)
        as [st1 [rs [ds [Hants [Hlen Hall]]]]].
      exists st, st1, rs, ds. split; [exact Hr|]. split; [exact Hants|].
      split; [exact Hlen|].
      eapply Forall2_impl; [|exact Hall]. intros r d [-> Hplot].
      split; [reflexivity|].
      exact (@two_route_total loc geodesic a b start_index Hval Hstart d
               Hplot).
  - intros Hants Hiter. unfold solve_aco.
    destruct (@two_iterations_ok loc geodesic draws fuel a b start_index
                n_ants alpha beta rho q0 Hval Hdraws Hstart Hfuel Hrho
                n_iterations (initial [a; b]) Hants Hinit eq_refl)
      as [st [Hr [_ [Hb Hsome]]]].
    rewrite Hr. cbn [bind]. unfold best_ok in Hb.
    destruct (best_route st) as [t|].
    + now rewrite (tour_of_two Hstart Hb).
    + exfalso. now apply Hsome.
Qed.

Lemma two_locations_tour_witness :
  solve_aco line greedy_draws 2 two_points 1 3 2 1 2 1 (9 # 10)
  = Ok (Some [1; 0; 1]).
Proof.
  apply (@two_locations_tour Q line greedy_draws 2 0%Q 5%Q 1 3 2 1%Z 2%Z
           1%Q (9 # 10)%Q 5%Q 5%Q).
  - exact two_points_within.
  - lia.
  - exact greedy_draws_unit.
  - lia.
  - vm_compute. discriminate.
  - vm_compute. discriminate.
  - unfold in_double_range; repeat apply conj; decide_order.
  - lia.
  - lia.
Defined.

(** C8 as stated fails: two locations with the same coordinates never
    yield a route, whether the ant exploits (the loop does not end) or
    explores (the sampling raises); and with no iteration or no ant
    the returned value is [None]. *)
Lemma two_locations_tour_counterexample :
  num_locations same_points = 2 /\
  solve_aco line greedy_draws 100 same_points 0 50 1000 1 2 (1 # 2) (9 # 10)
  = OutOfFuel /\
  solve_aco line (fun _ => (19 # 20)%Q) 100 same_points 0 50 1000 1 2
    (1 # 2) (9 # 10) = Raise ValueError /\
  solve_aco line greedy_draws 2 two_points 0 50 0 1 2 (1 # 2) (9 # 10)
  = Ok None /\
  solve_aco line greedy_draws 2 two_points 0 0 1000 1 2 (1 # 2) (9 # 10)
  = Ok None.
Proof.
  repeat split; vm_compute; reflexivity.
Qed.

(** * Further properties *)

(** ** Inputs outside the documented range *)

Lemma get2_ones_out (n i j : nat) :
  n <= i -> get2 (ones n) i j = Raise IndexError.
Proof.
  intro H. unfold get2, ones.
  destruct (nth_error (repeat (repeat (Fin 1) n) n) i) eqn:E; [|reflexivity].
  exfalso. assert (Hs : nth_error (repeat (repeat (Fin 1) n) n) i <> None)
    by (rewrite E; discriminate).
  apply nth_error_Some in Hs. rewrite repeat_length in Hs. lia.
Qed.

Lemma get2_distance_out (loc : Type) (geodesic : loc -> loc -> num)
  (locations : list loc) (i j : nat) :
  num_locations locations <= i ->
  get2 (distance_matrix geodesic locations) i j = Raise IndexError.
Proof.
  intro H. rewrite get2_distance.
  destruct (nth_error locations i) eqn:E; [|reflexivity].
  exfalso. assert (Hs : nth_error locations i <> None)
    by (rewrite E; discriminate).
  apply nth_error_Some in Hs. unfold num_locations in H. lia.
Qed.

(** The first ant of a run from a start index that is no index. *)
Lemma construct_route_out (loc : Type) (geodesic : loc -> loc -> num)
  (draws : nat -> Q) (fuel : nat) (locations : list loc) (start_index : nat)
  (alpha beta : Z) (q0 : Q) (pos : nat) :
  num_locations locations <= start_index -> 0 < fuel ->
  construct_route geodesic draws fuel locations start_index alpha beta q0
    (ones (num_locations locations)) pos = Raise IndexError.
Proof.
  intros Hs Hf. unfold construct_route.
  destruct fuel as [|rounds]; [lia|]. cbn [build_route length].
  destruct (1 <? num_locations locations) eqn:E.
  - apply Nat.ltb_lt in E.
    destruct (num_locations locations) as [|n] eqn:EN; [lia|].
    cbn [seq scores score last].
    destruct (set_mem Nat.eq_dec 0 [start_index]) eqn:Em.
    + apply set_mem_correct1 in Em. destruct Em as [Em|[]]. lia.
    + unfold score. rewrite Em, get2_ones_out by lia. reflexivity.
  - cbn [bind last hd]. rewrite get2_distance_out by exact Hs. reflexivity.
Qed.

(** X1: a start index that is no index of a location is not rejected
    before the run: with at least one ant and one iteration, and one
    round of the route loop allowed, the first ant raises [IndexError];
    so does every start index on an empty list of locations. *)
Theorem start_index_out_of_range (loc : Type) (geodesic : loc -> loc -> num)
  (draws : nat -> Q) (fuel : nat) (locations : list loc)
  (start_index n_ants n_iterations : nat) (alpha beta : Z) (rho q0 : Q) :
  num_locations locations <= start_index ->
  0 < fuel -> 0 < n_ants -> 0 < n_iterations ->
  solve_aco geodesic draws fuel locations start_index n_ants n_iterations
    alpha beta rho q0 = Raise IndexError.
Proof.
  intros Hs Hf Ha Hi. unfold solve_aco.
  destruct n_iterations as [|k]; [lia|]. destruct n_ants as [|m]; [lia|].
  cbn [run_iterations]. unfold run_iteration. cbn [run_ants].
  cbn [initial pheromone_matrix rng].
  rewrite construct_route_out by assumption. reflexivity.
Qed.

Lemma start_index_out_of_range_witness :
  solve_aco line greedy_draws 3 three_points 3 50 1000 1 2 (1 # 2) (9 # 10)
  = Raise IndexError /\
  solve_aco line greedy_draws 1 [] 0 50 1000 1 2 (1 # 2) (9 # 10)
  = Raise IndexError.
Proof.
  split.
  - apply (@start_index_out_of_range Q line greedy_draws 3 three_points 3 50
             1000 1%Z 2%Z (1 # 2)%Q (9 # 10)%Q); simpl; lia.
  - apply (@start_index_out_of_range Q line greedy_draws 1 [] 0 50
             1000 1%Z 2%Z (1 # 2)%Q (9 # 10)%Q); simpl; lia.
Defined.

(** ** A single location *)

Section SingleLocation.

Variable loc : Type.
Variable geodesic : loc -> loc -> num.
Variable draws : nat -> Q.
Variable fuel : nat.
Variable a : loc.
Variable n_ants : nat.
Variables alpha beta : Z.
Variables rho q0 : Q.

Hypothesis self_finite : is_finite (geodesic a a) = true.

Local Abbreviation total := (add (Fin 0) (geodesic a a)).

Lemma single_total_lt : ltb total PInf = true /\ ltb total total = false.
Proof.
  destruct (geodesic a a) as [q| | |]; try discriminate self_finite.
  simpl. split; [reflexivity|]. apply Qltb_ge. apply Qle_refl.
Qed.

Lemma single_construct_route (P : matrix) (pos : nat) :
  construct_route geodesic draws fuel [a] 0 alpha beta q0 P pos
  = Ok ([0; 0], total, pos).
Proof.
  unfold construct_route. destruct fuel; reflexivity.
Qed.

Lemma single_run_ants (n : nat) (st : colony) (rs : list (list nat))
  (ds : list num) :
  single_best total st ->
  exists st',
    run_ants geodesic draws fuel [a] 0 alpha beta q0 n st rs ds
    = Ok (st', rs ++ repeat [0; 0] n, ds ++ repeat total n) /\
    pheromone_matrix st' = pheromone_matrix st /\
    single_best total st' /\
    (best_route st = Some [0; 0] \/ 0 < n -> best_route st' = Some [0; 0]).
Proof.
  revert st rs ds. induction n as [|n IH]; intros st rs ds Hb.
  - exists st. cbn [run_ants repeat]. rewrite !app_nil_r.
    repeat split; auto. intros [H|H]; [exact H | lia].
  - cbn [run_ants]. rewrite single_construct_route. cbn [bind].
    destruct single_total_lt as [Hinf Hsame].
    assert (Hu : best_route (update_best st [0; 0] total (rng st))
                 = Some [0; 0] /\
                 best_distance (update_best st [0; 0] total (rng st))
                 = total).
    { unfold update_best. destruct Hb as [[Hr Hd]|[Hr Hd]]; rewrite Hd.
      - rewrite Hinf. split; reflexivity.
      - rewrite Hsame. cbn [best_route best_distance]. auto. }
    destruct (IH (update_best st [0; 0] total (rng st)) (rs ++ [[0; 0]])
                (ds ++ [total])) as [st' [Hr [HP [Hb' Hn]]]].
    { right. exact Hu. }
    exists st'. rewrite Hr, <- !app_assoc. cbn [repeat app].
    split; [reflexivity|]. split.
    { rewrite HP. apply update_best_fields. }
    split; [exact Hb'|]. intros _. apply Hn. left. apply Hu.
Qed.

Lemma single_iteration (st : colony) :
  square 1 (pheromone_matrix st) -> single_best total st ->
  exists st',
    run_iteration geodesic draws fuel [a] 0 n_ants alpha beta rho q0 st
    = Ok st' /\
    square 1 (pheromone_matrix st') /\ single_best total st' /\
    (best_route st = Some [0; 0] \/ 0 < n_ants ->
     best_route st' = Some [0; 0]).
Proof.
  intros Hsq Hb. unfold run_iteration.
  destruct (@single_run_ants n_ants st [] [] Hb) as [st1 [Hr [HP [Hb1 Hn]]]].
  rewrite Hr. cbn [bind app].
  edestruct (@deposit_all_sat 1 (fun _ _ _ => True) (fun _ => True))
    with (routes := repeat [0; 0] n_ants) (ds := repeat total n_ants)
         (pre := @nil num) (M := evaporate rho (pheromone_matrix st1))
    as [P' [HP' [Hsq' _]]].
  - auto.
  - clear. induction n_ants as [|n IH]; cbn [repeat]; constructor; auto.
    split; [|exact I]. intros x [<-|[<-|[]]]; lia.
  - apply evaporate_square. rewrite HP. exact Hsq.
  - intros i j x _. exact I.
  - cbn [length app] in HP'. rewrite HP'. cbn [bind].
    eexists. split; [reflexivity|]. cbn [pheromone_matrix best_route].
    split; [exact Hsq'|]. split; [exact Hb1|exact Hn].
Qed.

Lemma single_iterations (n : nat) (st : colony) :
  square 1 (pheromone_matrix st) -> single_best total st ->
  exists st',
    run_iterations geodesic draws fuel [a] 0 n_ants alpha beta rho q0 n st
    = Ok st' /\
    single_best total st' /\
    (best_route st = Some [0; 0] \/ (0 < n_ants /\ 0 < n) ->
     best_route st' = Some [0; 0]).
Proof.
  revert st. induction n as [|n IH]; intros st Hsq Hb.
  - exists st. cbn [run_iterations]. repeat split; auto.
    intros [H|[_ H]]; [exact H | lia].
  - cbn [run_iterations].
    destruct (single_iteration Hsq Hb) as [st1 [Hr [Hsq1 [Hb1 Hn1]]]].
    rewrite Hr. cbn [bind].
    destruct (IH st1 Hsq1 Hb1) as [st' [Hr' [Hb' Hn']]].
    exists st'. split; [exact Hr'|]. split; [exact Hb'|].
    intros [H|[Ha _]]; apply Hn'; left; apply Hn1; auto.
Qed.

End SingleLocation.

(** X2: a list of one location is accepted: every ant returns at once
    to the start, and that route, [0, 0], is the result. *)
Theorem single_location_route (loc : Type) (geodesic : loc -> loc -> num)
  (draws : nat -> Q) (fuel : nat) (a : loc) (n_ants n_iterations : nat)
  (alpha beta : Z) (rho q0 : Q) :
  is_finite (geodesic a a) = true ->
  0 < n_ants -> 0 < n_iterations ->
  solve_aco geodesic draws fuel [a] 0 n_ants n_iterations alpha beta rho q0
  = Ok (Some [0; 0]).
Proof.
  intros Hfin Ha Hi. unfold solve_aco.
  destruct (@single_iterations loc geodesic draws fuel a n_ants alpha beta
              rho q0 Hfin n_iterations (initial [a]))
    as [st [Hr [_ Hb]]].
  - apply square_ones.
  - left. split; reflexivity.
  - rewrite Hr. cbn [bind]. rewrite Hb by (right; split; assumption).
    reflexivity.
Qed.

Lemma single_location_route_witness :
  solve_aco line greedy_draws 0 [5%Q] 0 50 1000 1 2 (1 # 2) (9 # 10)
  = Ok (Some [0; 0]).
Proof.
  apply (@single_location_route Q line greedy_draws 0 5%Q 50 1000 1%Z 2%Z
           (1 # 2)%Q (9 # 10)%Q); [reflexivity | lia | lia].
Defined.

(** ** Every completed route holds every location *)

Section CoverFacts.

Variable loc : Type.
Variable geodesic : loc -> loc -> num.
Variable draws : nat -> Q.
Variable fuel : nat.
Variable locations : list loc.
Variable start_index : nat.
Variable n_ants : nat.
Variables alpha beta : Z.
Variables rho q0 : Q.

Local Abbreviation N := (num_locations locations).
Local Abbreviation D := (distance_matrix geodesic locations).

Lemma build_route_covers (rounds : nat) (P : matrix) (route : list nat)
  (visited : set nat) (total : num) (pos : nat) (route' : list nat)
  (total' : num) (pos' : nat) :
  build_route geodesic draws locations alpha beta q0 rounds P route visited
    total pos = Ok (route', total', pos') ->
  NoDup visited -> (forall x, In x visited <-> In x route) ->
  route <> [] ->
  (forall x, In x (tl route) -> x < N) ->
  exists visited',
    NoDup visited' /\ (forall x, In x visited' <-> In x route') /\
    N <= length visited' /\
    (forall x, In x (tl route') -> x < N) /\
    hd 0 route' = hd 0 route /\ length route <= length route'.
Proof.
  revert route visited total pos.
  induction rounds as [|rounds IH]; intros route visited total pos H Hnd Hv
    Hne Hlt; cbn [build_route] in H.
  - destruct (length visited <? N) eqn:E; [discriminate H|].
    injection H as <- <- <-. exists visited. apply Nat.ltb_ge in E.
    repeat split; auto; apply Hv.
  - destruct (length visited <? N) eqn:E.
    + inv_bind H. inv_bind H. destruct a0 as [next p]. inv_bind H.
      apply get2_distance_Ok in E2.
      destruct E2 as [_ [_ [_ [_ [_ [_ Hnext]]]]]].
      apply IH in H.
      * destruct H as [v' [H1 [H2 [H3 [H4 [H5 H6]]]]]].
        exists v'. repeat split; auto; try apply H2.
        -- rewrite H5. destruct route; [contradiction|reflexivity].
        -- rewrite length_app in H6. simpl in H6. lia.
      * apply set_add_nodup. exact Hnd.
      * intro x. rewrite set_add_iff, in_app_iff, Hv. simpl.
        intuition congruence.
      * destruct route; discriminate.
      * intros x Hx. destruct route as [|r0 rt]; [contradiction|].
        simpl in Hx. apply in_app_or in Hx.
        destruct Hx as [Hx|[<-|[]]]; [apply Hlt; exact Hx | exact Hnext].
    + injection H as <- <- <-. exists visited. apply Nat.ltb_ge in E.
      repeat split; auto; apply Hv.
Qed.

(** Whatever the pheromone matrix and the distances are, a route that an
    ant completes starts and ends at the start index, holds indices of
    locations only, and holds each of them before it closes. *)
Lemma construct_route_covers (P : matrix) (pos : nat) (route : list nat)
  (total : num) (pos' : nat) :
  construct_route geodesic draws fuel locations start_index alpha beta q0 P
    pos = Ok (route, total, pos') ->
  covers N start_index route.
Proof.
  intro H.
  destruct (construct_route_closed _ _ _ _ _ _ _ _ _ _ H) as [Hhd Hlast].
  unfold construct_route in H.
  inv_bind H. destruct a as [[r t] p]. inv_bind H.
  injection H as <- <- <-.
  apply get2_distance_Ok in E0.
  destruct E0 as [_ [_ [_ [_ [_ [Hl Hs]]]]]].
  edestruct build_route_covers as [v [Hnd [Hv [Hlen [Hlt [Hh Hle]]]]]];
    [exact E | | | | |].
  - constructor; [intros []|constructor].
  - intro x. tauto.
  - discriminate.
  - intros x [].
  - assert (Hr : forall x, In x r -> x < N).
    { intros x Hx. destruct r as [|r0 rt]; [contradiction|].
      destruct Hx as [<-|Hx]; [exact Hs | apply Hlt; exact Hx]. }
    assert (Hall : incl (seq 0 N) v).
    { apply NoDup_length_incl; [exact Hnd | rewrite length_seq; exact Hlen|].
      intros x Hx. apply in_seq. apply Hv in Hx. apply Hr in Hx. lia. }
    unfold covers. split; [exact Hhd|]. split; [exact Hlast|].
    split; [|split].
    + apply Forall_forall. intros x Hx. apply in_app_or in Hx.
      destruct Hx as [Hx|[<-|[]]]; [apply Hr; exact Hx | exact Hs].
    + intros j Hj. rewrite removelast_last. apply Hv. apply Hall.
      apply in_seq. lia.
    + rewrite length_app. simpl.
      assert (Hvl : length v <= length r).
      { apply NoDup_incl_length; [exact Hnd|]. intros x Hx. apply Hv.
        exact Hx. }
      lia.
Qed.

Lemma run_ants_covers (n : nat) (st st' : colony) (rs rs' : list (list nat))
  (ds ds' : list num) :
  run_ants geodesic draws fuel locations start_index alpha beta q0 n st rs
    ds = Ok (st', rs', ds') ->
  (forall r, best_route st = Some r -> covers N start_index r) ->
  forall r, best_route st' = Some r -> covers N start_index r.
Proof.
  revert st rs ds. induction n as [|n IH]; intros st rs ds H Hb;
    cbn [run_ants] in H.
  - injection H as <- <- <-. exact Hb.
  - inv_bind H. destruct a as [[route total] pos].
    intros r' Hr'. eapply IH; [exact H | | exact Hr'].
    intros r Hr. unfold update_best in Hr.
    destruct (ltb total (best_distance st)); cbn [best_route] in Hr.
    + injection Hr as <-. eapply construct_route_covers. exact E.
    + apply Hb. exact Hr.
Qed.

Lemma run_iterations_covers (n : nat) (st st' : colony) :
  run_iterations geodesic draws fuel locations start_index n_ants alpha
    beta rho q0 n st = Ok st' ->
  (forall r, best_route st = Some r -> covers N start_index r) ->
  forall r, best_route st' = Some r -> covers N start_index r.
Proof.
  revert st. induction n as [|n IH]; intros st H Hb;
    cbn [run_iterations] in H.
  - injection H as <-. exact Hb.
  - inv_bind H. intros r' Hr'. eapply IH; [exact H | | exact Hr'].
    unfold run_iteration in E. inv_bind E. destruct a0 as [[st1 rs] ds].
    inv_bind E. injection E as <-. cbn [best_route].
    eapply run_ants_covers; eassumption.
Qed.

End CoverFacts.

(** X3: whatever the inputs are (distances that are zero, an
    evaporation rate of 1 or more, any exponents), a route that
    [solve_aco] returns starts and ends at the start index, holds
    indices of locations only, and holds every location before it
    closes.  It may hold a location twice, as the run below shows. *)
Theorem returned_route_covers (loc : Type) (geodesic : loc -> loc -> num)
  (draws : nat -> Q) (fuel : nat) (locations : list loc)
  (start_index n_ants n_iterations : nat) (alpha beta : Z) (rho q0 : Q)
  (route : list nat) :
  solve_aco geodesic draws fuel locations start_index n_ants n_iterations
    alpha beta rho q0 = Ok (Some route) ->
  covers (num_locations locations) start_index route.
Proof.
  unfold solve_aco. intro H. inv_bind H. injection H as H.
  eapply run_iterations_covers; [exact E | | exact H].
  intros r Hr. discriminate Hr.
Qed.

Lemma returned_route_covers_witness :
  solve_aco line revisit_draws 5 shuffled_points 1 2 2 1 2 1 (9 # 10)
  = Ok (Some [1; 0; 4; 0; 3; 2; 1]) /\
  covers (num_locations shuffled_points) 1 [1; 0; 4; 0; 3; 2; 1].
Proof.
  assert (H : solve_aco line revisit_draws 5 shuffled_points 1 2 2 1 2 1
                (9 # 10) = Ok (Some [1; 0; 4; 0; 3; 2; 1]))
    by (vm_compute; reflexivity).
  split; [exact H|].
  exact (@returned_route_covers Q line revisit_draws 5 shuffled_points 1 2 2
           1%Z 2%Z 1%Q (9 # 10)%Q [1; 0; 4; 0; 3; 2; 1] H).
Defined.

(** ** The distance that is reported with the returned route *)

Section ReportFacts.

Variable loc : Type.
Variable geodesic : loc -> loc -> num.
Variable draws : nat -> Q.
Variable fuel : nat.
Variable locations : list loc.
Variable start_index : nat.
Variable n_ants : nat.
Variables alpha beta : Z.
Variables rho q0 : Q.

Lemma construct_route_recomputed (P : matrix) (pos : nat) (route : list nat)
  (total : num) (pos' : nat) :
  construct_route geodesic draws fuel locations start_index alpha beta q0 P
    pos = Ok (route, total, pos') ->
  plot_route_total geodesic locations route (Fin 0) = Ok total.
Proof.
  unfold construct_route. intro H.
  inv_bind H. destruct a as [[r t] p]. inv_bind H.
  injection H as <- <- <-.
  edestruct build_route_total as [Hne [_ Hp]];
    [exact E | discriminate | reflexivity |].
  apply plot_route_total_snoc; assumption.
Qed.

Lemma run_ants_recomputed (n : nat) (st st' : colony)
  (rs rs' : list (list nat)) (ds ds' : list num) :
  run_ants geodesic draws fuel locations start_index alpha beta q0 n st rs
    ds = Ok (st', rs', ds') ->
  best_recomputed geodesic locations st ->
  best_recomputed geodesic locations st' /\ printed st' = printed st.
Proof.
  revert st rs ds. induction n as [|n IH]; intros st rs ds H Hb;
    cbn [run_ants] in H.
  - injection H as <- <- <-. auto.
  - inv_bind H. destruct a as [[route total] pos].
    apply IH in H.
    + destruct H as [H1 H2]. split; [exact H1|]. rewrite H2.
      apply update_best_fields.
    + unfold best_recomputed, update_best in *.
      destruct (ltb total (best_distance st));
        cbn [best_route best_distance].
      * eapply construct_route_recomputed. exact E.
      * exact Hb.
Qed.

Lemma run_iterations_recomputed (n : nat) (st st' : colony) :
  run_iterations geodesic draws fuel locations start_index n_ants alpha
    beta rho q0 n st = Ok st' ->
  best_recomputed geodesic locations st ->
  best_recomputed geodesic locations st' /\
  length (printed st') = length (printed st) + n /\
  (0 < n \/ last (printed st) NaN = best_distance st ->
   last (printed st') NaN = best_distance st').
Proof.
  revert st. induction n as [|n IH]; intros st H Hb;
    cbn [run_iterations] in H.
  - injection H as <-. split; [exact Hb|]. split; [lia|].
    intros [Hn|Hl]; [lia | exact Hl].
  - inv_bind H. rename a into st1.
    unfold run_iteration in E. inv_bind E. destruct a as [[st2 rs] ds].
    inv_bind E. injection E as <-.
    destruct (run_ants_recomputed _ _ _ _ E0 Hb) as [Hb2 Hp2].
    apply IH in H; [|exact Hb2].
    cbn [printed best_distance] in H. destruct H as [H1 [H2 H3]].
    split; [exact H1|]. split.
    + rewrite H2, length_app, Hp2. simpl. lia.
    + intros _. apply H3. right. apply last_last.
Qed.

End ReportFacts.

(** X5: [solve_aco] prints one best distance per iteration, and the last
    one is the total distance that [plot_route] recomputes and prints
    for the returned route. *)
Theorem reported_distance (loc : Type) (geodesic : loc -> loc -> num)
  (draws : nat -> Q) (fuel : nat) (locations : list loc)
  (start_index n_ants n_iterations : nat) (alpha beta : Z) (rho q0 : Q)
  (st : colony) :
  run_iterations geodesic draws fuel locations start_index n_ants alpha
    beta rho q0 n_iterations (initial locations) = Ok st ->
  length (printed st) = n_iterations /\
  (0 < n_iterations -> last (printed st) NaN = best_distance st) /\
  match best_route st with
  | Some route =>
      plot_route_total geodesic locations route (Fin 0)
      = Ok (best_distance st)
  | None => best_distance st = PInf
  end.
Proof.
  intro H. apply run_iterations_recomputed in H; [|reflexivity].
  destruct H as [H1 [H2 H3]]. split; [exact H2|]. split; [|exact H1].
  intro Hn. apply H3. left. exact Hn.
Qed.

Lemma reported_distance_witness :
  run_iterations line greedy_draws 3 three_points 0 2 1 2 (1 # 2) (9 # 10)
    1 (initial three_points) = Ok demo_state1 /\
  length (printed demo_state1) = 1 /\
  (0 < 1 -> last (printed demo_state1) NaN = best_distance demo_state1) /\
  match best_route demo_state1 with
  | Some route =>
      plot_route_total line three_points route (Fin 0)
      = Ok (best_distance demo_state1)
  | None => best_distance demo_state1 = PInf
  end.
Proof.
  assert (H : run_iterations line greedy_draws 3 three_points 0 2 1 2
                (1 # 2) (9 # 10) 1 (initial three_points) = Ok demo_state1)
    by (vm_compute; reflexivity).
  split; [exact H|].
  exact (@reported_distance Q line greedy_draws 3 three_points 0 2 1 1%Z 2%Z
           (1 # 2)%Q (9 # 10)%Q demo_state1 H).
Defined.

(** ** The returned route is the first of the shortest ones *)



(** ** Ants that always exploit *)

Lemma result_rel_bind (A B A' B' : Type) (R : A -> B -> Prop)
  (S : A' -> B' -> Prop) (m1 : result A) (m2 : result B)
  (k1 : A -> result A') (k2 : B -> result B') :
  result_rel R m1 m2 ->
  (forall a b, R a b -> result_rel S (k1 a) (k2 b)) ->
  result_rel S (bind m1 k1) (bind m2 k2).
Proof.
  destruct m1, m2; simpl; try contradiction; auto.
Qed.

Lemma result_rel_refl (A : Type) (R : A -> A -> Prop) (m : result A) :
  (forall a, R a a) -> result_rel R m m.
Proof. destruct m; simpl; auto. Qed.

Lemma result_rel_eq (A : Type) (m1 m2 : result A) :
  result_rel eq m1 m2 -> m1 = m2.
Proof.
  destruct m1, m2; simpl; try contradiction; congruence.
Qed.

Section Exploit.

Variable loc : Type.
Variable geodesic : loc -> loc -> num.
Variables draws1 draws2 : nat -> Q.
Variable fuel : nat.
Variable locations : list loc.
Variable start_index : nat.
Variable n_ants : nat.
Variables alpha beta : Z.
Variables rho q0 : Q.

Hypothesis draws1_unit : unit_draws draws1.
Hypothesis draws2_unit : unit_draws draws2.
Hypothesis q0_one : (1 <= q0)%Q.

Lemma choose_next_exploits (draws : nat -> Q) (probabilities : list num)
  (pos : nat) :
  unit_draws draws ->
  choose_next draws locations q0 probabilities pos
  = (next_location <- index_of_max probabilities ;;
     Ok (next_location, S pos)).
Proof.
  intro Hu. unfold choose_next.
  assert (E : Qltb (draws pos) q0 = true).
  { apply Qltb_lt. destruct (Hu pos) as [_ H].
    eapply Qlt_le_trans; eassumption. }
  rewrite E. reflexivity.
Qed.

Lemma build_route_exploit (rounds : nat) (P : matrix) (route : list nat)
  (visited : set nat) (total : num) (pos1 pos2 : nat) :
  result_rel (same_route pos1 pos2)
    (build_route geodesic draws1 locations alpha beta q0 rounds P route
       visited total pos1)
    (build_route geodesic draws2 locations alpha beta q0 rounds P route
       visited total pos2).
Proof.
  revert route visited total pos1 pos2.
  induction rounds as [|rounds IH]; intros route visited total pos1 pos2;
    cbn [build_route].
  - destruct (length visited <? num_locations locations); simpl; auto.
    unfold same_route. simpl. repeat split; lia.
  - destruct (length visited <? num_locations locations).
    + destruct (scores geodesic locations alpha beta P (last route 0)
                  visited (seq 0 (num_locations locations)))
        as [probabilities| |]; cbn [bind]; simpl; auto.
      rewrite !choose_next_exploits by assumption.
      destruct (index_of_max (normalize probabilities)) as [next| |];
        cbn [bind]; simpl; auto.
      destruct (get2 (distance_matrix geodesic locations) (last route 0)
                  next) as [d| |]; cbn [bind]; simpl; auto.
      specialize (IH (route ++ [next]) (set_add Nat.eq_dec next visited)
                    (add total d) (S pos1) (S pos2)).
      destruct (build_route geodesic draws1 locations alpha beta q0 rounds P
                  (route ++ [next]) (set_add Nat.eq_dec next visited)
                  (add total d) (S pos1)) as [[[r1 t1] p1]| |],
               (build_route geodesic draws2 locations alpha beta q0 rounds P
                  (route ++ [next]) (set_add Nat.eq_dec next visited)
                  (add total d) (S pos2)) as [[[r2 t2] p2]| |];
        simpl in *; auto.
      unfold same_route in *. simpl in *. intuition lia.
    + simpl. unfold same_route. simpl. repeat split; lia.
Qed.

Lemma construct_route_exploit (P : matrix) (pos1 pos2 : nat) :
  result_rel (same_route pos1 pos2)
    (construct_route geodesic draws1 fuel locations start_index alpha beta
       q0 P pos1)
    (construct_route geodesic draws2 fuel locations start_index alpha beta
       q0 P pos2).
Proof.
  unfold construct_route.
  eapply result_rel_bind; [apply build_route_exploit|].
  intros [[r1 t1] p1] [[r2 t2] p2] [Hr [Ht Hp]]. simpl in Hr, Ht, Hp.
  subst r2 t2.
  destruct (get2 (distance_matrix geodesic locations) (last r1 0) (hd 0 r1));
    simpl; auto.
  unfold same_route. simpl. auto.
Qed.

Lemma update_best_same (st1 st2 : colony) (route : list nat) (total : num)
  (pos1 pos2 : nat) :
  same_solution st1 st2 ->
  same_solution (update_best st1 route total pos1)
    (update_best st2 route total pos2).
Proof.
  intros [HP [Hr [Hd Hp]]]. unfold update_best. rewrite Hd.
  destruct (ltb total (best_distance st2)); unfold same_solution; simpl;
    auto.
Qed.

Lemma run_ants_exploit (n : nat) (st1 st2 : colony) (rs : list (list nat))
  (ds : list num) :
  same_solution st1 st2 ->
  result_rel
    (fun x y => same_solution (fst (fst x)) (fst (fst y)) /\
                snd (fst x) = snd (fst y) /\ snd x = snd y)
    (run_ants geodesic draws1 fuel locations start_index alpha beta q0 n st1
       rs ds)
    (run_ants geodesic draws2 fuel locations start_index alpha beta q0 n st2
       rs ds).
Proof.
  revert st1 st2 rs ds. induction n as [|n IH]; intros st1 st2 rs ds Hs;
    cbn [run_ants].
  - simpl. auto.
  - eapply result_rel_bind.
    + destruct Hs as [HP _]. rewrite HP. apply construct_route_exploit.
    + intros [[r1 t1] p1] [[r2 t2] p2] [Hr [Ht _]]. simpl in Hr, Ht.
      subst r2 t2. apply IH. apply update_best_same. exact Hs.
Qed.

Lemma run_iteration_exploit (st1 st2 : colony) :
  same_solution st1 st2 ->
  result_rel same_solution
    (run_iteration geodesic draws1 fuel locations start_index n_ants alpha
       beta rho q0 st1)
    (run_iteration geodesic draws2 fuel locations start_index n_ants alpha
       beta rho q0 st2).
Proof.
  intro Hs. unfold run_iteration.
  eapply result_rel_bind; [apply run_ants_exploit; exact Hs|].
  intros [[s1 r1] d1] [[s2 r2] d2] [[HP [Hr [Hd Hp]]] [Hrs Hds]].
  simpl in HP, Hr, Hd, Hp, Hrs, Hds. subst r2 d2. rewrite HP.
  destruct (deposit_all (evaporate rho (pheromone_matrix s2)) r1 0 d1);
    simpl; auto.
  unfold same_solution. simpl. rewrite Hr, Hd, Hp. auto.
Qed.

Lemma run_iterations_exploit (n : nat) (st1 st2 : colony) :
  same_solution st1 st2 ->
  result_rel same_solution
    (run_iterations geodesic draws1 fuel locations start_index n_ants alpha
       beta rho q0 n st1)
    (run_iterations geodesic draws2 fuel locations start_index n_ants alpha
       beta rho q0 n st2).
Proof.
  revert st1 st2. induction n as [|n IH]; intros st1 st2 Hs;
    cbn [run_iterations].
  - exact Hs.
  - eapply result_rel_bind; [apply run_iteration_exploit; exact Hs|].
    intros a b Hab. apply IH. exact Hab.
Qed.

End Exploit.

(** X8: with an exploitation threshold of 1 or more no step explores,
    and the result of [solve_aco] does not depend on the random
    draws. *)
Theorem exploiting_run_ignores_draws (loc : Type)
  (geodesic : loc -> loc -> num) (draws1 draws2 : nat -> Q) (fuel : nat)
  (locations : list loc) (start_index n_ants n_iterations : nat)
  (alpha beta : Z) (rho q0 : Q) :
  unit_draws draws1 -> unit_draws draws2 -> (1 <= q0)%Q ->
  solve_aco geodesic draws1 fuel locations start_index n_ants n_iterations
    alpha beta rho q0
  = solve_aco geodesic draws2 fuel locations start_index n_ants
      n_iterations alpha beta rho q0.
Proof.
  intros H1 H2 Hq. unfold solve_aco. apply result_rel_eq.
  eapply result_rel_bind.
  - apply run_iterations_exploit with (st1 := initial locations)
      (st2 := initial locations); try assumption.
    unfold same_solution. auto.
  - intros a b [_ [Hr _]]. simpl. exact Hr.
Qed.

Lemma exploiting_run_ignores_draws_witness :
  solve_aco line exploring_draws 4 four_points 0 2 2 1 2 (1 # 2) 1
  = solve_aco line greedy_draws 4 four_points 0 2 2 1 2 (1 # 2) 1.
Proof.
  apply (@exploiting_run_ignores_draws Q line exploring_draws greedy_draws 4
           four_points 0 2 2 1%Z 2%Z (1 # 2)%Q 1%Q).
  - exact exploring_draws_unit.
  - exact greedy_draws_unit.
  - discriminate.
Defined.

(** X7: with an exploitation threshold of 1 or more all ants of an
    iteration build the same route, of the same total distance. *)
Theorem exploiting_ants_agree (loc : Type) (geodesic : loc -> loc -> num)
  (draws : nat -> Q) (fuel : nat) (locations : list loc)
  (start_index : nat) (alpha beta : Z) (q0 : Q) (n : nat)
  (st st' : colony) (all_routes : list (list nat))
  (all_distances : list num) :
  unit_draws draws -> (1 <= q0)%Q ->
  run_ants geodesic draws fuel locations start_index alpha beta q0 n st []
    [] = Ok (st', all_routes, all_distances) ->
  exists route total,
    all_routes = repeat route n /\ all_distances = repeat total n.
Proof.
  intros Hu Hq H.
  destruct (run_ants_snapshot _ _ _ _ _ _ _ _ _ _ _ _ H)
    as [rs [ds [-> [-> [Hlen Hall]]]]]. simpl.
  destruct Hall as [|r t rs ds [p [p' Hc]] Hrest].
  - simpl in Hlen. subst n. exists [], NaN. auto.
  - exists r, t. subst n. simpl. 
    assert (Hsame : Forall2 (fun r' t' => r' = r /\ t' = t) rs ds).
    { eapply Forall2_impl; [|exact Hrest].
      intros r' t' [q [q' Hc']].
      pose proof (@construct_route_exploit loc geodesic draws draws fuel
                    locations start_index alpha beta q0 Hu Hu Hq
                    (pheromone_matrix st) p q) as Hrel.
      rewrite Hc, Hc' in Hrel. destruct Hrel as [Hr [Ht _]]. simpl in *.
      auto. }
    clear - Hsame. induction Hsame as [|r' t' rs ds [-> ->] _ IH].
    + auto.
    + simpl. destruct IH as [IH1 IH2].
      injection IH1 as IH1. injection IH2 as IH2.
      rewrite <- IH1, <- IH2. auto.
Qed.

Lemma exploiting_ants_agree_witness :
  run_ants line exploring_draws 4 four_points 0 1 2 1 3
    (initial four_points) [] []
  = Ok (fst (fst exploiting_ants), snd (fst exploiting_ants),
        snd exploiting_ants) /\
  exists route total,
    snd (fst exploiting_ants) = repeat route 3 /\
    snd exploiting_ants = repeat total 3.
Proof.
  assert (H : run_ants line exploring_draws 4 four_points 0 1 2 1 3
                (initial four_points) [] []
              = Ok (fst (fst exploiting_ants), snd (fst exploiting_ants),
                    snd exploiting_ants))
    by (vm_compute; reflexivity).
  split; [exact H|].
  apply (@exploiting_ants_agree Q line exploring_draws 4 four_points 0 1%Z
           2%Z 1%Q 3 (initial four_points) (fst (fst exploiting_ants))
           (snd (fst exploiting_ants)) (snd exploiting_ants)).
  - exact exploring_draws_unit.
  - discriminate.
  - exact H.
Defined.

(** ** The diagonal of the pheromone matrix *)

Section Diagonal.

Variable loc : Type.
Variable geodesic : loc -> loc -> num.
Variable draws : nat -> Q.
Variable fuel : nat.
Variable locations : list loc.
Variable start_index : nat.
Variables alpha beta : Z.
Variable q0 : Q.
Variables P P' : matrix.

Hypothesis same_offdiag : forall i j, i <> j -> get2 P i j = get2 P' i j.

Lemma scores_offdiag (current : nat) (visited : set nat)
  (candidates : list nat) :
  In current visited ->
  scores geodesic locations alpha beta P current visited candidates
  = scores geodesic locations alpha beta P' current visited candidates.
Proof.
  intro Hc. induction candidates as [|j rest IH]; cbn [scores].
  - reflexivity.
  - rewrite IH. f_equal. unfold score.
    destruct (set_mem Nat.eq_dec j visited) eqn:E; [reflexivity|].
    rewrite same_offdiag; [reflexivity|].
    intros ->. apply set_mem_complete1 in E. contradiction.
Qed.

Lemma build_route_offdiag (rounds : nat) (route : list nat)
  (visited : set nat) (total : num) (pos : nat) :
  In (last route 0) visited ->
  build_route geodesic draws locations alpha beta q0 rounds P route visited
    total pos
  = build_route geodesic draws locations alpha beta q0 rounds P' route
      visited total pos.
Proof.
  revert route visited total pos.
  induction rounds as [|rounds IH]; intros route visited total pos Hc;
    cbn [build_route].
  - reflexivity.
  - destruct (length visited <? num_locations locations); [|reflexivity].
    rewrite scores_offdiag by exact Hc.
    destruct (scores geodesic locations alpha beta P' (last route 0) visited
                (seq 0 (num_locations locations))) as [ps| |];
      cbn [bind]; try reflexivity.
    destruct (choose_next draws locations q0 (normalize ps) pos)
      as [[next p]| |]; cbn [bind]; try reflexivity.
    destruct (get2 (distance_matrix geodesic locations) (last route 0) next);
      cbn [bind]; try reflexivity.
    apply IH. rewrite last_snoc. apply set_add_intro2. reflexivity.
Qed.

Lemma construct_route_offdiag (pos : nat) :
  construct_route geodesic draws fuel locations start_index alpha beta q0 P
    pos
  = construct_route geodesic draws fuel locations start_index alpha beta q0
      P' pos.
Proof.
  unfold construct_route. rewrite build_route_offdiag; [reflexivity|].
  simpl. auto.
Qed.

End Diagonal.

(** X10: the diagonal of the pheromone matrix is never read: on two
    matrices with the same cells off the diagonal an ant does the
    same. *)
Theorem pheromone_diagonal_unread (loc : Type)
  (geodesic : loc -> loc -> num) (draws : nat -> Q) (fuel : nat)
  (locations : list loc) (start_index : nat) (alpha beta : Z) (q0 : Q)
  (P P' : matrix) (pos : nat) :
  (forall i j, i <> j -> get2 P i j = get2 P' i j) ->
  construct_route geodesic draws fuel locations start_index alpha beta q0 P
    pos
  = construct_route geodesic draws fuel locations start_index alpha beta q0
      P' pos.
Proof.
  intro H. apply construct_route_offdiag. exact H.
Qed.

Lemma pheromone_diagonal_unread_witness :
  construct_route line greedy_draws 3 three_points 0 1 2 (9 # 10) (ones 3) 0
  = construct_route line greedy_draws 3 three_points 0 1 2 (9 # 10)
      marked_ones 0.
Proof.
  apply (@pheromone_diagonal_unread Q line greedy_draws 3 three_points 0 1%Z
           2%Z (9 # 10)%Q (ones 3) marked_ones 0).
  intros i j Hne.
  destruct i as [|[|[|i]]]; destruct j as [|[|[|j]]];
    try reflexivity; exfalso; apply Hne; reflexivity.
Defined.

(** ** The random draws that an ant consumes *)

Section Draws.

Local Open Scope Q_scope.

Variable loc : Type.
Variable geodesic : loc -> loc -> num.
Variable draws : nat -> Q.
Variable fuel : nat.
Variable locations : list loc.
Variable start_index : nat.
Variables alpha beta : Z.
Variable q0 : Q.

Lemma choose_next_draws (probabilities : list num) (pos next pos' : nat) :
  choose_next draws locations q0 probabilities pos = Ok (next, pos') ->
  (draws pos < q0 /\ pos' = S pos) \/ (q0 <= draws pos /\ pos' = S (S pos)).
Proof.
  unfold choose_next. intro H.
  destruct (Qltb (draws pos) q0) eqn:E.
  - apply Qltb_lt in E. inv_bind H. injection H as _ <-. auto.
  - apply Qltb_ge in E. inv_bind H. injection H as _ <-. auto.
Qed.

Lemma build_route_draws (rounds : nat) (P : matrix) (route : list nat)
  (visited : set nat) (total : num) (pos : nat) (route' : list nat)
  (total' : num) (pos' : nat) :
  build_route geodesic draws locations alpha beta q0 rounds P route visited
    total pos = Ok (route', total', pos') ->
  exists steps,
    length route' = (length route + steps)%nat /\
    (pos + steps <= pos')%nat /\ (pos' <= pos + 2 * steps)%nat /\
    (unit_draws draws -> 1 <= q0 -> pos' = (pos + steps)%nat) /\
    (unit_draws draws -> q0 <= 0 -> pos' = (pos + 2 * steps)%nat).
Proof.
  revert route visited total pos.
  induction rounds as [|rounds IH]; intros route visited total pos H;
    cbn [build_route] in H.
  - destruct (length visited <? num_locations locations);
      [discriminate H|].
    injection H as <- <- <-. exists 0%nat. repeat split; lia.
  - destruct (length visited <? num_locations locations).
    + inv_bind H. inv_bind H. destruct a0 as [next p]. inv_bind H.
      apply IH in H. destruct H as [steps [Hl [Hlo [Hhi [H1 H0]]]]].
      rewrite length_app in Hl. simpl in Hl.
      exists (S steps). split; [lia|].
      destruct (choose_next_draws _ _ E0) as [[Hd ->]|[Hd ->]].
      * split; [lia|]. split; [lia|]. split.
        -- intros Hu Hq. rewrite H1 by assumption. lia.
        -- intros Hu Hq. exfalso. destruct (Hu pos) as [Hge _]. lra.
      * split; [lia|]. split; [lia|]. split.
        -- intros Hu Hq. exfalso. destruct (Hu pos) as [_ Hlt]. lra.
        -- intros Hu Hq. rewrite H0 by assumption. lia.
    + injection H as <- <- <-. exists 0%nat. repeat split; lia.
Qed.

End Draws.

(** X9: an ant that completes a route of [k] steps before it closes it
    (N - 1 steps on a tour) takes between [k] and [2 * k] values from
    the random draws, one for a step that exploits and two for a step
    that explores: [k] if the threshold is 1 or more, [2 * k] if it is
    0 or less. *)
Theorem draws_of_a_route (loc : Type) (geodesic : loc -> loc -> num)
  (draws : nat -> Q) (fuel : nat) (locations : list loc)
  (start_index : nat) (alpha beta : Z) (q0 : Q) (P : matrix) (pos : nat)
  (route : list nat) (total : num) (pos' : nat) :
  construct_route geodesic draws fuel locations start_index alpha beta q0 P
    pos = Ok (route, total, pos') ->
  pos + (length route - 2) <= pos' /\
  pos' <= pos + 2 * (length route - 2) /\
  (unit_draws draws -> (1 <= q0)%Q -> pos' = pos + (length route - 2)) /\
  (unit_draws draws -> (q0 <= 0)%Q -> pos' = pos + 2 * (length route - 2)).
Proof.
  unfold construct_route. intro H.
  inv_bind H. destruct a as [[r t] p]. inv_bind H.
  injection H as <- <- <-.
  apply build_route_draws in E.
  destruct E as [steps [Hl [Hlo [Hhi [H1 H0]]]]].
  rewrite length_app, Hl. cbn [length].
  replace (1 + steps + 1 - 2) with steps by lia.
  split; [exact Hlo|]. split; [exact Hhi|]. split; assumption.
Qed.

Lemma draws_of_a_route_witness :
  construct_route line exploring_draws 4 four_points 0 1 2 (9 # 10) (ones 4)
    3 = Ok ([0; 2; 1; 3; 0], Fin 8, 7) /\
  3 + (length [0; 2; 1; 3; 0] - 2) <= 7 /\
  7 <= 3 + 2 * (length [0; 2; 1; 3; 0] - 2) /\
  (unit_draws exploring_draws -> (1 <= 9 # 10)%Q ->
   7 = 3 + (length [0; 2; 1; 3; 0] - 2)) /\
  (unit_draws exploring_draws -> (9 # 10 <= 0)%Q ->
   7 = 3 + 2 * (length [0; 2; 1; 3; 0] - 2)).
Proof.
  assert (H : construct_route line exploring_draws 4 four_points 0 1 2
                (9 # 10) (ones 4) 3 = Ok ([0; 2; 1; 3; 0], Fin 8, 7))
    by (vm_compute; reflexivity).
  split; [exact H|].
  exact (@draws_of_a_route Q line exploring_draws 4 four_points 0 1%Z 2%Z
           (9 # 10)%Q (ones 4) 3 [0; 2; 1; 3; 0] (Fin 8) 7 H).
Defined.

(** ** The first iteration goes to the nearest location *)

Section PowerOrder.

Local Open Scope Q_scope.

Lemma Qpower_positive_lt (a b : Q) (p : BinNums.positive) :
  0 < a -> a < b -> Qpower_positive a p < Qpower_positive b p.
Proof.
  intros Ha Hab. induction p as [|p IH] using Pos.peano_ind.
  - simpl. exact Hab.
  - rewrite <- !Pos.add_1_l, !Qpower_plus_positive. simpl.
    assert (Hp : 0 < Qpower_positive a p)
      by (apply (Qpower_0_lt a (Z.pos p)); exact Ha).
    apply Qlt_trans with (b * Qpower_positive a p).
    + apply Qmult_lt_compat_r; assumption.
    + apply Qmult_lt_l; [lra | exact IH].
Qed.

(** A greater distance has a smaller power of a negative exponent. *)
Lemma Qpower_negative_lt (a b : Q) (z : Z) :
  (0 < z)%Z -> 0 < a -> a < b -> b ^ (- z) < a ^ (- z).
Proof.
  intros Hz Ha Hab. destruct z as [|p|p]; try lia. simpl.
  assert (Hpa : 0 < Qpower_positive a p)
    by (apply (Qpower_0_lt a (Z.pos p)); exact Ha).
  assert (Hpb : 0 < Qpower_positive b p)
    by (apply (Qpower_0_lt b (Z.pos p)); lra).
  apply (proj1 (Qinv_lt_contravar _ _ Hpa Hpb)).
  apply Qpower_positive_lt; assumption.
Qed.

Lemma Qpower_negative_le (a b : Q) (z : Z) :
  (0 < z)%Z -> 0 < a -> a <= b -> b ^ (- z) <= a ^ (- z).
Proof.
  intros Hz Ha Hab. destruct (Qlt_le_dec a b) as [Hlt|Hge].
  - apply Qlt_le_weak. apply Qpower_negative_lt; assumption.
  - assert (E : a == b) by lra. rewrite E. apply Qle_refl.
Qed.

End PowerOrder.

Section Nearest.

Local Open Scope Q_scope.

Variable loc : Type.
Variable geodesic : loc -> loc -> num.
Variable draws : nat -> Q.
Variable locations : list loc.
Variables alpha beta : Z.
Variable q0 : Q.

Local Abbreviation N := (num_locations locations).
Local Abbreviation D := (distance_matrix geodesic locations).

Hypothesis D_valid : valid_distances geodesic locations.
Hypothesis beta_positive : (0 < beta)%Z.

(** The scores on the initial pheromone matrix: a positive constant
    times the power of the distance. *)
Lemma scores_ones (current : nat) (visited : set nat)
  (candidates : list nat) :
  (current < N)%nat -> In current visited ->
  Forall (fun j => (j < N)%nat) candidates ->
  exists A qs,
    0 < A /\
    scores geodesic locations alpha beta (ones N) current visited candidates
    = Ok (map Fin qs) /\
    Forall2
      (fun j q =>
         (In j visited -> q == 0) /\
         (~ In j visited ->
          exists d, get2 D current j = Ok (Fin d) /\ 0 < d /\
            q = A * d ^ (- beta)))
      candidates qs.
Proof.
  intros Hcur Hin Hc.
  assert (HA : positive (pow (Fin 1) alpha)).
  { apply positive_pow. apply positive_Fin. lra. }
  destruct HA as [A [EA HA]]. exists A.
  induction candidates as [|j rest IH].
  - exists []. split; [exact HA|]. split; [reflexivity | constructor].
  - inversion Hc as [|? ? Hj Hrest]; subst.
    destruct (IH Hrest) as [qs [_ [Hs Hw]]].
    cbn [scores]. unfold score.
    destruct (set_mem Nat.eq_dec j visited) eqn:Em.
    + apply set_mem_In in Em. cbn [bind]. rewrite Hs. cbn [bind].
      exists (0 :: qs). split; [exact HA|]. split; [reflexivity|].
      constructor; [|exact Hw]. split; [reflexivity | contradiction].
    + assert (Hnin : ~ In j visited).
      { intro Hj'. apply set_mem_In in Hj'. congruence. }
      assert (Hne : current <> j) by congruence.
      destruct (get2_square (square_ones N) Hcur Hj) as [p Hp].
      assert (p = Fin 1) by (eapply get2_ones; exact Hp). subst p.
      destruct (get2_distance_lt geodesic locations Hcur Hj)
        as [a [b [Ha [Hb Hd]]]].
      rewrite Hp, Hd. cbn [bind]. rewrite Hs. cbn [bind].
      destruct (D_valid Ha Hb Hne) as [d [Ed Hdpos]].
      rewrite EA, Ed. unfold pow.
      assert (E0 : (- beta =? 0)%Z = false) by (apply Z.eqb_neq; lia).
      rewrite E0, (Qeq_bool_pos Hdpos). cbn [andb mul].
      exists (A * d ^ (- beta) :: qs).
      split; [exact HA|]. split; [reflexivity|].
      constructor; [|exact Hw]. split; [contradiction|].
      intros _. exists d. rewrite Hd, Ed. auto.
Qed.

Lemma nth_normalized (qs : list Q) (t : Q) (j : nat) :
  (j < length qs)%nat ->
  nth j (map (fun q => q / t) qs) 0 = nth j qs 0 / t.
Proof.
  intro Hj. set (f := fun q : Q => q / t).
  rewrite (nth_indep _ 0 (f 0)) by (rewrite length_map; exact Hj).
  rewrite map_nth. reflexivity.
Qed.

Lemma nearest_step (current : nat) (visited : set nat) (pos : nat) :
  (current < N)%nat -> In current visited ->
  (exists j, (j < N)%nat /\ ~ In j visited) ->
  draws pos < q0 ->
  exists probabilities next dn,
    scores geodesic locations alpha beta (ones N) current visited (seq 0 N)
    = Ok probabilities /\
    choose_next draws locations q0 (normalize probabilities) pos
    = Ok (next, S pos) /\
    (next < N)%nat /\ ~ In next visited /\
    get2 D current next = Ok (Fin dn) /\
    forall j, (j < N)%nat -> ~ In j visited ->
      exists dj, get2 D current j = Ok (Fin dj) /\ 0 < dj /\
        dn <= dj /\ ((j < next)%nat -> dn < dj).
Proof.
  intros Hcur Hin [j0 [Hj0 Hn0]] Hdraw.
  destruct (@scores_ones current visited (seq 0 N) Hcur Hin)
    as [A [qs [HA [Hs Hw]]]].
  { apply Forall_forall. intros j Hj. apply in_seq in Hj. lia. }
  apply Forall2_seq_nth in Hw. destruct Hw as [Hlen Hw]. simpl in Hw.
  assert (Hweights : forall j, (j < N)%nat ->
            weight_of visited j (nth j qs 0)).
  { intros j Hj. destruct (Hw j Hj) as [Hv Hu]. split; [exact Hv|].
    intro Hnin. destruct (Hu Hnin) as [d [_ [Hd ->]]].
    apply Qmult_lt_0_compat; [exact HA|]. apply Qpower_0_lt. exact Hd. }
  set (t := fold_left Qplus qs 0).
  assert (Ht : 0 < t).
  { apply fold_Qplus_gt.
    - exact (weights_nonneg locations qs Hlen Hweights).
    - exact (weights_exists locations qs Hlen Hweights Hj0 Hn0). }
  assert (Hne : map (fun q => q / t) qs <> []).
  { intro E. apply (f_equal (@length Q)) in E. rewrite length_map in E.
    simpl in E. lia. }
  destruct (index_of_max_Fin Hne) as [r [Hr [Hlt [Hmax Hfirst]]]].
  rewrite length_map in Hlt, Hmax. rewrite Hlen in Hlt, Hmax.
  assert (Hnth : forall j, (j < N)%nat ->
            nth j (map (fun q => q / t) qs) 0 = nth j qs 0 / t).
  { intros j Hj. apply nth_normalized. lia. }
  assert (Hle : forall j, (j < N)%nat -> nth j qs 0 <= nth r qs 0).
  { intros j Hj. pose proof (Hmax j Hj) as H.
    rewrite !Hnth in H by assumption. unfold Qdiv in H.
    apply Qmult_le_r in H; [exact H|]. apply Qinv_lt_0_compat. exact Ht. }
  assert (Hlow : forall j, (j < r)%nat -> nth j qs 0 < nth r qs 0).
  { intros j Hj. pose proof (Hfirst j Hj) as H.
    rewrite !Hnth in H by lia. unfold Qdiv in H.
    apply Qmult_lt_r in H; [exact H|]. apply Qinv_lt_0_compat. exact Ht. }
  assert (Hrpos : 0 < nth r qs 0).
  { destruct (Hweights j0 Hj0) as [_ Hp]. specialize (Hp Hn0).
    pose proof (Hle j0 Hj0). lra. }
  assert (Hrnin : ~ In r visited).
  { intro Hv. destruct (Hweights r Hlt) as [Hz _]. specialize (Hz Hv). lra. }
  destruct (Hw r Hlt) as [_ Hru]. destruct (Hru Hrnin) as [dn [Hdn [Hnpos En]]].
  exists (map Fin qs), r, dn. split; [exact Hs|]. split.
  { unfold choose_next.
    rewrite (proj2 (Qltb_lt (draws pos) q0) Hdraw).
    rewrite normalize_Fin by exact Ht. fold t. rewrite Hr. reflexivity. }
  split; [exact Hlt|]. split; [exact Hrnin|]. split; [exact Hdn|].
  intros j Hj Hjnin.
  destruct (Hw j Hj) as [_ Hju]. destruct (Hju Hjnin) as [dj [Hdj [Hjpos Ej]]].
  exists dj. split; [exact Hdj|]. split; [exact Hjpos|]. split.
  - destruct (Qlt_le_dec dj dn) as [Hlt'|Hge]; [|exact Hge]. exfalso.
    pose proof (Hle j Hj) as H. rewrite Ej, En in H.
    pose proof (Qpower_negative_lt beta_positive Hjpos Hlt') as Hp.
    apply Qmult_le_l in H; [lra | exact HA].
  - intro Hjr. destruct (Qlt_le_dec dn dj) as [Hlt'|Hge]; [exact Hlt'|].
    exfalso. pose proof (Hlow j Hjr) as H. rewrite Ej, En in H.
    pose proof (Qpower_negative_le beta_positive Hjpos Hge) as Hp.
    apply Qmult_lt_l in H; [lra | exact HA].
Qed.

End Nearest.

(** X6: in the first iteration, where every trail is 1, a step that
    exploits goes to a nearest location that is not visited yet, as far
    as rounding lets the program tell: for distances between
    [dmin > 0] and [dmax] whose powers stay inside the range of a
    double and a positive exponent [beta], no unvisited location is
    nearer than the chosen one by more than the factor
    [rounding_margin], and none of a smaller index is at the same
    distance. *)
Theorem first_iteration_nearest (loc : Type) (geodesic : loc -> loc -> num)
  (draws : nat -> Q) (locations : list loc) (alpha beta : Z) (q0 : Q)
  (dmin dmax : Q)
  (current : nat) (visited : set nat) (pos : nat) :
  distances_within geodesic locations dmin dmax ->
  in_double_range 1 1 dmin dmax alpha beta (num_locations locations) ->
  (0 < beta)%Z ->
  current < num_locations locations -> In current visited ->
  (exists j, j < num_locations locations /\ ~ In j visited) ->
  (draws pos < q0)%Q ->
  exists probabilities next dn,
    scores geodesic locations alpha beta (ones (num_locations locations))
      current visited (seq 0 (num_locations locations))
    = Ok probabilities /\
    choose_next draws locations q0 (normalize probabilities) pos
    = Ok (next, S pos) /\
    next < num_locations locations /\ ~ In next visited /\
    get2 (distance_matrix geodesic locations) current next = Ok (Fin dn) /\
    forall j, j < num_locations locations -> ~ In j visited ->
      exists dj,
        get2 (distance_matrix geodesic locations) current j = Ok (Fin dj) /\
        (dn <= dj * rounding_margin)%Q /\ (j < next -> ~ (dn == dj)%Q).
Proof.
  intros Hin Hrange Hbeta Hcur Hvis Hex Hdraw.
  assert (Hval : valid_distances geodesic locations).
  { eapply distances_within_valid; [|exact Hin].
    eapply in_double_range_distance. exact Hrange. }
  destruct (@nearest_step loc geodesic draws locations alpha beta q0 Hval
              Hbeta current visited pos Hcur Hvis Hex Hdraw)
    as [probabilities [next [dn [Hs [Hc [Hlt [Hnew [Hdn Hall]]]]]]]].
  exists probabilities, next, dn.
  split; [exact Hs|]. split; [exact Hc|]. split; [exact Hlt|].
  split; [exact Hnew|]. split; [exact Hdn|].
  intros j Hj Hjnew.
  destruct (Hall j Hj Hjnew) as [dj [Hdj [Hpos [Hle Hfirst]]]].
  exists dj. split; [exact Hdj|]. split.
  - apply Qle_trans with dj; [exact Hle|].
    assert (Hm : (1 <= rounding_margin)%Q) by (vm_compute; discriminate).
    rewrite <- (Qmult_1_r dj) at 1.
    apply Qmult_le_l; assumption.
  - intros Hjn E. specialize (Hfirst Hjn). rewrite E in Hfirst.
    exact (Qlt_irrefl dj Hfirst).
Qed.

Lemma first_iteration_nearest_witness :
  exists probabilities next dn,
    scores line four_points 1 2 (ones (num_locations four_points)) 2 [0; 2]
      (seq 0 (num_locations four_points)) = Ok probabilities /\
    choose_next greedy_draws four_points (9 # 10) (normalize probabilities)
      0 = Ok (next, 1) /\
    next < num_locations four_points /\ ~ In next [0; 2] /\
    get2 (distance_matrix line four_points) 2 next = Ok (Fin dn) /\
    forall j, j < num_locations four_points -> ~ In j [0; 2] ->
      exists dj,
        get2 (distance_matrix line four_points) 2 j = Ok (Fin dj) /\
        (dn <= dj * rounding_margin)%Q /\ (j < next -> ~ (dn == dj)%Q).
Proof.
  apply (@first_iteration_nearest Q line greedy_draws four_points 1%Z 2%Z
           (9 # 10)%Q 1%Q 3%Q 2 [0; 2] 0).
  - exact four_points_within.
  - unfold in_double_range; repeat apply conj; decide_order.
  - reflexivity.
  - simpl. lia.
  - simpl. auto.
  - exists 1. split; [simpl; lia|]. simpl. intros [H|[H|[]]]; discriminate.
  - reflexivity.
Defined.

(** ** Deposits leave the diagonal alone *)

Lemma edges_NoDup (l : list nat) (a b : nat) :
  NoDup l -> In (a, b) (edges l) -> a <> b.
Proof.
  induction l as [|x [|y t] IH]; intros Hnd Hin.
  - destruct Hin.
  - destruct Hin.
  - rewrite edges_cons in Hin. inversion Hnd as [|? ? Hx Hnd']; subst.
    destruct Hin as [E|Hin].
    + injection E as <- <-. intros ->. apply Hx. now left.
    + apply IH; assumption.
Qed.

Lemma edges_snoc (l : list nat) (x : nat) :
  l <> [] -> edges (l ++ [x]) = edges l ++ [(last l 0, x)].
Proof.
  induction l as [|a [|b t] IH]; intro Hne.
  - congruence.
  - reflexivity.
  - change ((a :: b :: t) ++ [x]) with (a :: b :: (t ++ [x])).
    rewrite !edges_cons.
    change (b :: t ++ [x]) with ((b :: t) ++ [x]).
    rewrite IH by discriminate. reflexivity.
Qed.

Lemma last_differs (l : list nat) :
  NoDup l -> 2 <= length l -> last l 0 <> hd 0 l.
Proof.
  intros Hnd Hlen. destruct l as [|h [|y t]]; simpl in Hlen; try lia.
  inversion Hnd as [|? ? Hh _]; subst. intro E. apply Hh.
  change (last (h :: y :: t) 0) with (last (y :: t) 0) in E.
  cbn [hd] in E. rewrite <- E. apply last_In. discriminate.
Qed.

(** A tour of two or more locations has no edge from a location to
    itself. *)
Lemma tour_edges (n start : nat) (tour : list nat) (a b : nat) :
  2 <= n -> is_tour n start tour -> In (a, b) (edges tour) -> a <> b.
Proof.
  intros Hn [Hlen [Hhd [Hlast Hperm]]] Hin.
  assert (Hne : tour <> []) by (destruct tour; [discriminate | congruence]).
  destruct (exists_last Hne) as [l [y E]]. subst tour.
  rewrite last_last in Hlast. rewrite removelast_last in Hperm. subst y.
  assert (Hnd : NoDup l).
  { apply (Permutation_NoDup (Permutation_sym Hperm)). apply seq_NoDup. }
  assert (Hl : length l = n).
  { rewrite (Permutation_length Hperm). apply length_seq. }
  assert (Hl' : l <> []) by (destruct l; [simpl in Hl; lia | discriminate]).
  rewrite edges_snoc in Hin by exact Hl'.
  apply in_app_or in Hin. destruct Hin as [Hin|[E|[]]].
  - eapply edges_NoDup; eassumption.
  - injection E as <- <-. rewrite hd_snoc in Hhd by exact Hl'.
    rewrite <- Hhd. apply last_differs; [exact Hnd | lia].
Qed.

Lemma route_amounts_diagonal (n start : nat) (tour : list nat) (i : nat)
  (d : num) :
  2 <= n -> is_tour n start tour -> route_amounts i i tour d = [].
Proof.
  intros Hn Ht. unfold route_amounts.
  assert (E : filter (is_edge i i) (edges tour) = []).
  { 
    assert (H : forall e, In e (edges tour) -> is_edge i i e = false).
    { intros [a b] Hin. unfold is_edge. simpl.
      pose proof (tour_edges Hn Ht Hin) as Hab.
      destruct (a =? i) eqn:Ea; [|reflexivity].
      destruct (b =? i) eqn:Eb; [|reflexivity].
      apply Nat.eqb_eq in Ea, Eb. congruence. }
    induction (edges tour) as [|e es IH]; [reflexivity|].
    simpl. rewrite H by (now left). apply IH. intros e' He'. apply H.
    now right. }
  rewrite E. reflexivity.
Qed.

Lemma amounts_on_diagonal (n start : nat) (routes : list (list nat))
  (ds : list num) (i k : nat) (dists : list num) :
  2 <= n ->
  Forall2 (fun r d => is_tour n start r /\ positive d) routes ds ->
  amounts_on i i routes k dists = [].
Proof.
  intros Hn Hall. revert k.
  induction Hall as [|r d rs ds' [Ht _] _ IH]; intro k; cbn [amounts_on].
  - reflexivity.
  - rewrite (route_amounts_diagonal i _ Hn Ht), IH. reflexivity.
Qed.

Section DiagonalRun.

Local Open Scope Q_scope.

Variable loc : Type.
Variable geodesic : loc -> loc -> num.
Variable draws : nat -> Q.
Variable fuel : nat.
Variable locations : list loc.
Variable start_index : nat.
Variable n_ants : nat.
Variables alpha beta : Z.
Variables rho q0 : Q.

Local Abbreviation N := (num_locations locations).

Hypothesis D_valid : valid_distances geodesic locations.
Hypothesis draws_unit : unit_draws draws.
Hypothesis N_ge_2 : (2 <= N)%nat.
Hypothesis start_lt : (start_index < N)%nat.
Hypothesis fuel_ge : (N <= fuel)%nat.
Hypothesis rho_range : rho < 1.

Lemma run_iteration_diagonal (st st' : colony) :
  good_pheromone N (pheromone_matrix st) ->
  best_ok N start_index st ->
  run_iteration geodesic draws fuel locations start_index n_ants alpha beta
    rho q0 st = Ok st' ->
  forall i x, get2 (pheromone_matrix st') i i = Ok x ->
    exists x0, get2 (pheromone_matrix st) i i = Ok x0 /\
      x = mul x0 (Fin (1 - rho)).
Proof.
  intros HP Hb H i x Hx. unfold run_iteration in H.
  destruct (run_ants_ok alpha beta q0 D_valid draws_unit N_ge_2 start_lt
              fuel_ge n_ants st [] [] HP Hb)
    as [st1 [nr [nd [Hr [HP1 [_ [_ [Hall _]]]]]]]].
  simpl in Hr. rewrite Hr in H. cbn [bind] in H.
  inv_bind H. injection H as <-. cbn [pheromone_matrix] in Hx.
  edestruct deposit_all_get as [x1 [Hx1 Hfold]]; [exact E | exact Hx |].
  rewrite (amounts_on_diagonal i 0%nat nd N_ge_2 Hall) in Hfold.
  simpl in Hfold. subst x1.
  unfold evaporate in Hx1. rewrite get2_map, HP1 in Hx1.
  inv_bind Hx1. injection Hx1 as <-. exists a0. auto.
Qed.

Lemma run_iterations_diagonal (n : nat) (st : colony) (c : num) :
  good_pheromone N (pheromone_matrix st) ->
  best_ok N start_index st ->
  (forall i, (i < N)%nat -> get2 (pheromone_matrix st) i i = Ok c) ->
  exists st',
    run_iterations geodesic draws fuel locations start_index n_ants alpha
      beta rho q0 n st = Ok st' /\
    forall i, (i < N)%nat ->
      get2 (pheromone_matrix st') i i
      = Ok (Nat.iter n (fun x => mul x (Fin (1 - rho))) c).
Proof.
  revert st c. induction n as [|n IH]; intros st c HP Hb Hd;
    cbn [run_iterations].
  - exists st. split; [reflexivity|]. exact Hd.
  - destruct (run_iteration_ok n_ants alpha beta q0 D_valid draws_unit
                N_ge_2 start_lt fuel_ge rho_range st HP Hb)
      as [st1 [Hr [HP1 [Hb1 _]]]].
    rewrite Hr. cbn [bind].
    destruct (IH st1 (mul c (Fin (1 - rho))) HP1 Hb1) as [st' [Hr' Hd']].
    + intros i Hi. destruct HP1 as [Hsq _].
      destruct (get2_square Hsq Hi Hi) as [x Hx].
      destruct (@run_iteration_diagonal st st1 HP Hb Hr i x Hx)
        as [x0 [Hx0 ->]].
      rewrite (Hd i Hi) in Hx0. injection Hx0 as <-. exact Hx.
    + exists st'. split; [exact Hr'|]. intros i Hi.
      rewrite (Hd' i Hi). rewrite Nat.iter_succ_r. reflexivity.
Qed.

End DiagonalRun.

(** X11: no deposit falls on the diagonal of the pheromone matrix.  For
    at least 2 locations at pairwise distances between [dmin > 0] and
    [dmax], an evaporation rate of [0, 1) and parameters under which
    the trails of [n_iterations] iterations and the scores made of them
    stay inside the range of a double, the run succeeds and every
    diagonal cell is then the initial 1 multiplied [n_iterations] times
    by [1 - rho]. *)
Theorem diagonal_only_evaporates (loc : Type) (geodesic : loc -> loc -> num)
  (draws : nat -> Q) (fuel : nat) (locations : list loc)
  (start_index n_ants n_iterations : nat) (alpha beta : Z) (rho q0 : Q)
  (dmin dmax : Q) :
  distances_within geodesic locations dmin dmax ->
  2 <= num_locations locations ->
  start_index < num_locations locations ->
  unit_draws draws ->
  num_locations locations <= fuel ->
  (0 <= rho)%Q -> (rho < 1)%Q ->
  in_double_range (least_trail rho n_iterations)
    (greatest_trail n_ants n_iterations dmin) dmin dmax alpha beta
    (num_locations locations) ->
  exists st,
    run_iterations geodesic draws fuel locations start_index n_ants alpha
      beta rho q0 n_iterations (initial locations) = Ok st /\
    forall i, i < num_locations locations ->
      get2 (pheromone_matrix st) i i
      = Ok (Nat.iter n_iterations (fun x => mul x (Fin (1 - rho)))
              (Fin 1)).
Proof.
  intros Hin HN Hstart Hdraws Hfuel _ Hrho Hrange.
  assert (Hval : valid_distances geodesic locations).
  { eapply distances_within_valid; [|exact Hin].
    eapply in_double_range_distance. exact Hrange. }
  destruct (@run_iterations_diagonal loc geodesic draws fuel locations
              start_index n_ants alpha beta rho q0 Hval Hdraws HN Hstart
              Hfuel Hrho n_iterations (initial locations) (Fin 1))
    as [st [Hr Hd]].
  - apply initial_good.
  - reflexivity.
  - intros i Hi.
    destruct (get2_square (square_ones (num_locations locations)) Hi Hi)
      as [x Hx].
    cbn [initial pheromone_matrix]. rewrite Hx. f_equal.
    eapply get2_ones. exact Hx.
  - exists st. split; [exact Hr | exact Hd].
Qed.

Lemma diagonal_only_evaporates_witness :
  exists st,
    run_iterations line greedy_draws 3 three_points 0 2 1 2 (1 # 2)
      (9 # 10) 3 (initial three_points) = Ok st /\
    forall i, i < num_locations three_points ->
      get2 (pheromone_matrix st) i i
      = Ok (Nat.iter 3 (fun x => mul x (Fin (1 - (1 # 2)))) (Fin 1)).
Proof.
  apply (@diagonal_only_evaporates Q line greedy_draws 3 three_points 0 2 3
           1%Z 2%Z (1 # 2)%Q (9 # 10)%Q 1%Q 3%Q).
  - exact three_points_within.
  - simpl. lia.
  - simpl. lia.
  - exact greedy_draws_unit.
  - simpl. lia.
  - vm_compute. discriminate.
  - reflexivity.
  - unfold in_double_range; repeat apply conj; decide_order.
Defined.

(** ** Geocoding the addresses *)

Section GeocodeFacts.

Variable geocoder : nat -> String.string -> reply.

Lemma geocode_address_eq (address : String.string) (w : world) :
  geocode_address geocoder address w =
  match geocoder (calls w) address with
  | Found latitude longitude found_address =>
      (Done (Some (latitude, longitude, found_address)),
       World (S (calls w))
         (output w ++ [Geocoded address latitude longitude]))
  | NoMatch =>
      (Done None, World (S (calls w)) (output w ++ [CouldNotGeocode address]))
  | TimedOut =>
      (Done None,
       World (S (calls w)) (output w ++ [GeocodingTimedOut address]))
  | ServiceError =>
      (Uncaught GeocoderError, World (S (calls w)) (output w))
  end.
Proof.
  unfold geocode_address, and_then, geocode, print, ret, raise.
  destruct (geocoder (calls w) address); reflexivity.
Qed.

(** What a call returns and what it costs. *)
Lemma geocode_address_done (address : String.string) (w w' : world)
  (r : option place) :
  geocode_address geocoder address w = (Done r, w') ->
  r = found (geocoder (calls w) address) /\ calls w' = S (calls w) /\
  geocoder (calls w) address <> ServiceError.
Proof.
  rewrite geocode_address_eq.
  destruct (geocoder (calls w) address); intro H; inversion H; subst;
    simpl; repeat split; discriminate.
Qed.

Lemma geocode_addresses_calls (addresses : list String.string)
  (w w' : world) (locations : list (option place)) :
  geocode_addresses geocoder addresses w = (Done locations, w') ->
  calls w' = calls w + length addresses + length locations /\
  length locations <= length addresses.
Proof.
  revert w locations. induction addresses as [|a rest IH];
    intros w locations H; cbn [geocode_addresses] in H.
  - inversion H; subst. simpl. lia.
  - unfold and_then in H at 1.
    destruct (geocode_address geocoder a w) as [[tested| | |] w1] eqn:E1;
      try discriminate H.
    apply geocode_address_done in E1. destruct E1 as [_ [Hc1 _]].
    destruct tested as [p|].
    + unfold and_then in H at 1.
      destruct (geocode_address geocoder a w1) as [[element| | |] w2] eqn:E2;
        try discriminate H.
      apply geocode_address_done in E2. destruct E2 as [_ [Hc2 _]].
      unfold and_then in H at 1.
      destruct (geocode_addresses geocoder rest w2)
        as [[later| | |] w3] eqn:E3; try discriminate H.
      unfold ret in H. inversion H; subst.
      apply IH in E3. simpl. lia.
    + apply IH in H. simpl. lia.
Qed.

Lemma geocode_addresses_stable (addresses : list String.string)
  (w : world) :
  stable geocoder addresses ->
  exists w',
    geocode_addresses geocoder addresses w
    = (Done (map Some (known_places geocoder addresses)), w').
Proof.
  revert w. induction addresses as [|a rest IH]; intros w Hs;
    cbn [geocode_addresses known_places].
  - exists w. reflexivity.
  - destruct (Hs a (or_introl eq_refl)) as [Hk Hne].
    assert (Hrest : stable geocoder rest).
    { intros x Hx. apply Hs. now right. }
    unfold and_then at 1. rewrite geocode_address_eq, Hk.
    destruct (geocoder 0 a) as [lat lon f| | |] eqn:E; cbn [found];
      try (apply IH; exact Hrest); [|congruence].
    unfold and_then at 1. rewrite geocode_address_eq. cbn [calls].
    rewrite Hk. unfold and_then.
    match goal with
    | |- context [geocode_addresses geocoder rest ?w1] =>
        destruct (IH w1 Hrest) as [w' Hw']
    end.
    rewrite Hw'. unfold ret. exists w'. reflexivity.
Qed.

End GeocodeFacts.

(** X12: the comprehension of line 173 consults the geocoder once for
    every address and once more for every element of its result, which
    holds at most one element for an address. *)
Theorem geocoder_calls (geocoder : nat -> String.string -> reply)
  (addresses : list String.string) (w w' : world)
  (locations : list (option place)) :
  geocode_addresses geocoder addresses w = (Done locations, w') ->
  calls w' = calls w + length addresses + length locations /\
  length locations <= length addresses.
Proof. apply geocode_addresses_calls. Qed.

(** ** Listing and plotting *)

Section ScriptFacts.

Variable geocoder : nat -> String.string -> reply.
Variable geodesic : Q * Q -> Q * Q -> num.
Variable draws : nat -> Q.
Variable fuel : nat.

Lemma list_locations_places (places : list place) (idx : nat) (w : world) :
  exists w',
    list_locations (map Some places) idx w = (Done places, w') /\
    calls w' = calls w.
Proof.
  revert idx w. induction places as [|[[lat lon] address] rest IH];
    intros idx w; cbn [map list_locations].
  - exists w. split; reflexivity.
  - unfold and_then at 1. unfold print at 1. unfold and_then.
    match goal with
    | |- context [list_locations (map Some rest) ?i ?w1] =>
        destruct (IH i w1) as [w' [Hw' Hc]]
    end.
    rewrite Hw'. exists w'. split; [reflexivity | exact Hc].
Qed.

Lemma list_locations_none (locations : list (option place)) (idx : nat)
  (w : world) :
  In None locations ->
  exists w', list_locations locations idx w = (Uncaught TypeError, w').
Proof.
  revert idx w. induction locations as [|[[[lat lon] address]|] rest IH];
    intros idx w Hin; cbn [list_locations].
  - destruct Hin.
  - destruct Hin as [Hin|Hin]; [discriminate|].
    unfold and_then at 1. unfold print at 1. unfold and_then.
    match goal with
    | |- context [list_locations rest ?i ?w1] =>
        destruct (IH i w1 Hin) as [w' Hw']
    end.
    rewrite Hw'. exists w'. reflexivity.
  - exists w. reflexivity.
Qed.

Lemma no_none (locations : list (option place)) :
  ~ In None locations -> exists places, locations = map Some places.
Proof.
  induction locations as [|[p|] rest IH]; intro H.
  - exists []. reflexivity.
  - destruct IH as [ps ->]; [intro Hin; apply H; now right|].
    exists (p :: ps). reflexivity.
  - exfalso. apply H. now left.
Qed.

(** The loop of [plot_route] computes the total of [plot_route_total]
    and draws one line for each edge. *)
Lemma plot_lines_total (locations : list place) (route : list nat)
  (total : num) (lines : list ((Q * Q) * (Q * Q))) :
  match plot_lines geodesic locations route total lines with
  | Ok (t, ls) =>
      plot_route_total (between geodesic) locations route total = Ok t /\
      ls = lines ++ map (ends locations) (edges route)
  | Raise e =>
      plot_route_total (between geodesic) locations route total = Raise e
  | OutOfFuel => False
  end.
Proof.
  revert total lines. induction route as [|a [|b t] IH]; intros total lines.
  - simpl. rewrite app_nil_r. auto.
  - simpl. rewrite app_nil_r. auto.
  - rewrite plot_route_total_cons, edges_cons.
    change (plot_lines geodesic locations (a :: b :: t) total lines) with
      (match nth_error locations a, nth_error locations b with
       | Some start, Some finish =>
           plot_lines geodesic locations (b :: t)
             (add total (geodesic (fst start) (fst finish)))
             (lines ++ [(fst start, fst finish)])
       | _, _ => Raise IndexError
       end).
    destruct (nth_error locations a) as [pa|] eqn:Ea; [|reflexivity].
    destruct (nth_error locations b) as [pb|] eqn:Eb; [|reflexivity].
    specialize (IH (add total (geodesic (fst pa) (fst pb)))
                  (lines ++ [(fst pa, fst pb)])).
    destruct (plot_lines geodesic locations (b :: t)
                (add total (geodesic (fst pa) (fst pb)))
                (lines ++ [(fst pa, fst pb)])) as [[t' ls]| |];
      [|exact IH|exact IH].
    destruct IH as [IH1 IH2]. split; [exact IH1|].
    rewrite IH2, <- app_assoc. cbn [map app]. unfold ends at 2.
    cbn [fst snd].
    rewrite (nth_error_nth _ _ _ Ea), (nth_error_nth _ _ _ Eb).
    reflexivity.
Qed.

Lemma length_edges (route : list nat) :
  length (edges route) = length route - 1.
Proof.
  induction route as [|a [|b t] IH]; try reflexivity.
  rewrite edges_cons. cbn [length] in *. lia.
Qed.

(** The total of a route whose indices are indices of locations. *)
Lemma plot_route_total_defined (locations : list place) (route : list nat)
  (total : num) :
  Forall (fun j => j < length locations) route ->
  exists t,
    plot_route_total (between geodesic) locations route total = Ok t.
Proof.
  revert total. induction route as [|a [|b t] IH]; intros total H.
  - exists total. reflexivity.
  - exists total. reflexivity.
  - rewrite plot_route_total_cons.
    inversion H as [|? ? Ha H']; subst.
    inversion H' as [|? ? Hb _]; subst.
    destruct (nth_error locations a) as [pa|] eqn:Ea;
      [|apply nth_error_None in Ea; lia].
    destruct (nth_error locations b) as [pb|] eqn:Eb;
      [|apply nth_error_None in Eb; lia].
    apply IH. exact H'.
Qed.

Lemma plot_route_defined (locations : list place) (route : list nat)
  (w : world) :
  locations <> [] ->
  Forall (fun j => j < length locations) route ->
  exists total,
    plot_route geodesic locations (Some route) w
    = (Done (Map (fst (hd (0%Q, 0%Q, String.EmptyString) locations))
               locations (map (ends locations) (edges route)) total),
       World (calls w)
         (output w ++ [Plotting; TotalRouteDistance total])) /\
    plot_route_total (between geodesic) locations route (Fin 0) = Ok total.
Proof.
  intros Hne Hall.
  destruct (@plot_route_total_defined locations route (Fin 0) Hall)
    as [total Ht].
  exists total. split; [|exact Ht].
  pose proof (plot_lines_total locations route (Fin 0) []) as Hl.
  rewrite Ht in Hl.
  unfold plot_route. destruct locations as [|first rest]; [congruence|].
  unfold and_then at 1. unfold print at 1. unfold and_then at 1.
  unfold lift.
  destruct (plot_lines geodesic (first :: rest) route (Fin 0) [])
    as [[t ls]| |]; [|discriminate Hl|contradiction].
  destruct Hl as [Et ->]. injection Et as <-.
  unfold and_then, print, ret. cbn [calls output hd app].
  rewrite <- app_assoc. reflexivity.
Qed.

End ScriptFacts.

(** ** The script *)

Section MainFacts.

Variable geocoder : nat -> String.string -> reply.
Variable geodesic : Q * Q -> Q * Q -> num.
Variable draws : nat -> Q.
Variable fuel : nat.
Variable addresses : list String.string.
Variable answer : option Z.
Variable locations : list (option place).
Variable w0 w : world.

Hypothesis geocoded :
  geocode_addresses geocoder addresses w0 = (Done locations, w).

Lemma main_few :
  length locations < 2 ->
  main geocoder geodesic draws fuel addresses answer w0
  = (Exit, World (calls w) (output w ++ [NotEnoughLocations])).
Proof.
  intro H. unfold main. unfold and_then at 1. rewrite geocoded.
  apply Nat.ltb_lt in H. rewrite H. reflexivity.
Qed.

Lemma main_none :
  2 <= length locations -> In None locations ->
  exists w',
    main geocoder geodesic draws fuel addresses answer w0
    = (Uncaught TypeError, w').
Proof.
  intros H Hin. unfold main. unfold and_then at 1. rewrite geocoded.
  apply Nat.ltb_ge in H. rewrite H.
  unfold and_then at 1. unfold print at 1. unfold and_then at 1.
  match goal with
  | |- context [list_locations locations 0 ?w1] =>
      destruct (@list_locations_none locations 0 w1 Hin) as [w' Hw']
  end.
  rewrite Hw'. exists w'. reflexivity.
Qed.

Lemma main_answer (places : list place) :
  2 <= length locations -> locations = map Some places ->
  exists w1,
    main geocoder geodesic draws fuel addresses answer w0 =
    match answer with
    | None => (Uncaught (Builtin ValueError), w1)
    | Some number =>
        if ((number - 1 <? 0)%Z
            || (Z.of_nat (length locations) <=? number - 1)%Z)%bool
        then (Exit, World (calls w1) (output w1 ++ [InvalidNumber]))
        else
          (route <~ lift (solve_aco (between geodesic) draws fuel places
                            (Z.to_nat (number - 1)) 50 1000 1 2 (1 # 2)
                            (9 # 10)) ;;
           plot_route geodesic places route) w1
    end /\ calls w1 = calls w.
Proof.
  intros H ->. unfold main. unfold and_then at 1. rewrite geocoded.
  apply Nat.ltb_ge in H. rewrite H.
  unfold and_then at 1. unfold print at 1. unfold and_then at 1.
  match goal with
  | |- context [list_locations (map Some places) 0 ?w1] =>
      destruct (list_locations_places places 0 w1) as [w' [Hw' Hc]]
  end.
  rewrite Hw'. exists w'. split; [|exact Hc].
  destruct answer as [number|]; [|reflexivity].
  destruct ((number - 1 <? 0)%Z
            || (Z.of_nat (length (map Some places)) <=? number - 1)%Z)%bool;
    reflexivity.
Qed.

End MainFacts.

(** X14: before it calls the solver, the script stops if fewer than two
    locations are found; with two or more, it raises [ValueError] from
    [int] on an answer that is no number and stops on a number that is
    not one of the list. *)
Theorem script_checks (geocoder : nat -> String.string -> reply)
  (geodesic : Q * Q -> Q * Q -> num) (draws : nat -> Q) (fuel : nat)
  (addresses : list String.string) (answer : option Z)
  (locations : list (option place)) (w : world) :
  geocode_addresses geocoder addresses (World 0 []) = (Done locations, w) ->
  (length locations < 2 ->
   main geocoder geodesic draws fuel addresses answer (World 0 [])
   = (Exit, World (calls w) (output w ++ [NotEnoughLocations]))) /\
  (2 <= length locations -> ~ In None locations ->
   exists w1,
     (answer = None ->
      main geocoder geodesic draws fuel addresses answer (World 0 [])
      = (Uncaught (Builtin ValueError), w1)) /\
     (forall number,
        answer = Some number ->
        (number < 1 \/ Z.of_nat (length locations) < number)%Z ->
        main geocoder geodesic draws fuel addresses answer (World 0 [])
        = (Exit, World (calls w1) (output w1 ++ [InvalidNumber])))).
Proof.
  intro H. split.
  - intro Hfew. eapply main_few; eassumption.
  - intros Hlen Hnone. destruct (@no_none locations Hnone) as [places Hp].
    destruct (@main_answer geocoder geodesic draws fuel addresses answer
                locations (World 0 []) w H places Hlen Hp)
      as [w1 [Hm _]].
    exists w1. split.
    + intros ->. exact Hm.
    + intros number -> Hout. rewrite Hm.
      assert (E : ((number - 1 <? 0)%Z
                   || (Z.of_nat (length locations) <=? number - 1)%Z)%bool
                  = true).
      { apply orb_true_iff. destruct Hout as [Hlow|Hhigh].
        - left. apply Z.ltb_lt. lia.
        - right. apply Z.leb_le. lia. }
      rewrite E. reflexivity.
Qed.

(** X15: an element of the list of locations is the answer to a second
    request, which the test of the comprehension does not see; when the
    list of two or more locations holds [None] (as with the geocoder of
    the example below, whose second answer is a timeout), the script
    raises [TypeError] when it lists the locations. *)
Theorem script_unpacks_none (geocoder : nat -> String.string -> reply)
  (geodesic : Q * Q -> Q * Q -> num) (draws : nat -> Q) (fuel : nat)
  (addresses : list String.string) (answer : option Z)
  (locations : list (option place)) (w : world) :
  geocode_addresses geocoder addresses (World 0 []) = (Done locations, w) ->
  2 <= length locations -> In None locations ->
  exists w',
    main geocoder geodesic draws fuel addresses answer (World 0 [])
    = (Uncaught TypeError, w').
Proof.
  intros H Hlen Hin. eapply main_none; eassumption.
Qed.

(** X16: with a geocoder that answers every request for an address
    alike, two or more locations found at positive distances from each
    other and the number of one of them as the answer, the script draws
    a tour: the solver returns a tour of the found locations from the
    chosen one, and the map holds a marker for every location, a line
    for every edge of the tour, and the total distance of the tour. *)
Theorem script_draws_tour (geocoder : nat -> String.string -> reply)
  (geodesic : Q * Q -> Q * Q -> num) (draws : nat -> Q) (fuel : nat)
  (addresses : list String.string) (number : Z) :
  stable geocoder addresses ->
  2 <= length (known_places geocoder addresses) ->
  valid_distances (between geodesic) (known_places geocoder addresses) ->
  unit_draws draws ->
  length (known_places geocoder addresses) <= fuel ->
  (1 <= number <= Z.of_nat (length (known_places geocoder addresses)))%Z ->
  exists tour total w',
    main geocoder geodesic draws fuel addresses (Some number) (World 0 [])
    = (Done (Map (fst (hd (0%Q, 0%Q, String.EmptyString)
                         (known_places geocoder addresses)))
               (known_places geocoder addresses)
               (map (ends (known_places geocoder addresses)) (edges tour))
               total), w') /\
    is_tour (length (known_places geocoder addresses))
      (Z.to_nat (number - 1)) tour /\
    plot_route_total (between geodesic) (known_places geocoder addresses)
      tour (Fin 0) = Ok total /\
    calls w' = length addresses + length (known_places geocoder addresses).
Proof.
  intros Hst Hlen Hval Hdraws Hfuel Hnum.
  set (places := known_places geocoder addresses) in *.
  destruct (@geocode_addresses_stable geocoder addresses (World 0 []) Hst)
    as [w Hg].
  fold places in Hg.
  assert (Hl : length (map Some places) = length places)
    by apply length_map.
  destruct (@main_answer geocoder geodesic draws fuel addresses
              (Some number) (map Some places) (World 0 []) w Hg places)
    as [w1 [Hm Hc]]; [lia | reflexivity |].
  rewrite Hl in Hm.
  assert (E : ((number - 1 <? 0)%Z
               || (Z.of_nat (length places) <=? number - 1)%Z)%bool
              = false).
  { apply orb_false_iff. split; [apply Z.ltb_ge | apply Z.leb_gt]; lia. }
  rewrite E in Hm.
  assert (Hstart : Z.to_nat (number - 1) < length places) by lia.
  destruct (@run_iterations_ok place (between geodesic) draws fuel places
              (Z.to_nat (number - 1)) 50 1%Z 2%Z (1 # 2)%Q (9 # 10)%Q
              Hval Hdraws Hlen Hstart Hfuel eq_refl 1000 (initial places))
    as [st [Hr [_ [Hb Hbest]]]].
  { apply initial_good. }
  { reflexivity. }
  assert (Hsolve : exists tour,
            solve_aco (between geodesic) draws fuel places
              (Z.to_nat (number - 1)) 50 1000 1 2 (1 # 2) (9 # 10)
            = Ok (Some tour) /\
            is_tour (length places) (Z.to_nat (number - 1)) tour).
  { unfold solve_aco. rewrite Hr. cbn [bind]. unfold best_ok in Hb.
    destruct (best_route st) as [tour|].
    - exists tour. auto.
    - exfalso. apply Hbest; [right; split; lia | reflexivity]. }
  destruct Hsolve as [tour [Hs Ht]].
  assert (Hne : places <> []).
  { intro E0. rewrite E0 in Hlen. simpl in Hlen. lia. }
  assert (Hall : Forall (fun j => j < length places) tour).
  { apply Forall_forall. apply (is_tour_lt Hstart Ht). }
  unfold and_then at 1 in Hm. rewrite Hs in Hm. unfold lift at 1 in Hm.
  destruct (@plot_route_defined geodesic places tour w1 Hne Hall)
    as [total [Hp Htot]].
  rewrite Hp in Hm.
  exists tour, total. eexists. split; [exact Hm|].
  split; [exact Ht|]. split; [exact Htot|]. cbn [calls]. rewrite Hc.
  destruct (@geocode_addresses_calls geocoder addresses (World 0 []) w
              (map Some places) Hg) as [Hcalls _].
  rewrite Hcalls, Hl. reflexivity.
Qed.

Lemma geocoder_calls_witness :
  geocode_addresses flaky_geocoder demo_addresses (World 0 [])
  = (Done [None; Some (1%Q, 9%Q, "Sunds, Danmark"%string);
           Some (3%Q, 9%Q, "Ikast, Danmark"%string)],
     World 7
       [Geocoded "Herning"%string 0 9;
        GeocodingTimedOut "Herning"%string;
        CouldNotGeocode "Nowhere"%string;
        Geocoded "Sunds"%string 1 9;
        Geocoded "Sunds"%string 1 9;
        Geocoded "Ikast"%string 3 9;
        Geocoded "Ikast"%string 3 9]) /\
  7 = 0 + length demo_addresses + 3 /\ 3 <= length demo_addresses.
Proof.
  assert (H : geocode_addresses flaky_geocoder demo_addresses (World 0 [])
              = (Done [None; Some (1%Q, 9%Q, "Sunds, Danmark"%string);
                       Some (3%Q, 9%Q, "Ikast, Danmark"%string)],
                 World 7
                   [Geocoded "Herning"%string 0 9;
                    GeocodingTimedOut "Herning"%string;
                    CouldNotGeocode "Nowhere"%string;
                    Geocoded "Sunds"%string 1 9;
                    Geocoded "Sunds"%string 1 9;
                    Geocoded "Ikast"%string 3 9;
                    Geocoded "Ikast"%string 3 9]))
    by (vm_compute; reflexivity).
  split; [exact H|].
  exact (@geocoder_calls flaky_geocoder demo_addresses (World 0 []) _ _ H).
Defined.

Lemma demo_geocoder_stable : stable demo_geocoder demo_addresses.
Proof.
  intros address Hin. split; [reflexivity|].
  unfold demo_addresses in Hin. simpl in Hin.
  destruct Hin as [<-|[<-|[<-|[<-|[]]]]]; vm_compute; discriminate.
Qed.

Lemma demo_places_known :
  known_places demo_geocoder demo_addresses = demo_places.
Proof. vm_compute. reflexivity. Qed.

Lemma demo_places_valid : valid_distances (between meridian) demo_places.
Proof.
  intros i j a b Ha Hb Hne.
  repeat (destruct i as [|i]; simpl in Ha; try discriminate Ha);
  repeat (destruct j as [|j]; simpl in Hb; try discriminate Hb);
  try (exfalso; apply Hne; reflexivity);
  injection Ha as <-; injection Hb as <-;
  apply positive_Fin; reflexivity.
Qed.

(** X13: with a geocoder that answers every request for an address
    alike, the list of locations holds the locations of the addresses
    that are found, in the order of the addresses, each one requested
    twice. *)
Theorem stable_geocoder_locations
  (geocoder : nat -> String.string -> reply)
  (addresses : list String.string) (w : world) :
  stable geocoder addresses ->
  exists w',
    geocode_addresses geocoder addresses w
    = (Done (map Some (known_places geocoder addresses)), w') /\
    calls w' = calls w + length addresses
               + length (known_places geocoder addresses).
Proof.
  intro Hs.
  destruct (@geocode_addresses_stable geocoder addresses w Hs) as [w' Hg].
  exists w'. split; [exact Hg|].
  destruct (@geocode_addresses_calls geocoder addresses w w' _ Hg)
    as [Hc _].
  rewrite Hc, length_map. reflexivity.
Qed.

Lemma stable_geocoder_locations_witness :
  exists w',
    geocode_addresses demo_geocoder demo_addresses (World 0 [])
    = (Done (map Some (known_places demo_geocoder demo_addresses)), w') /\
    calls w' = calls (World 0 []) + length demo_addresses
               + length (known_places demo_geocoder demo_addresses).
Proof.
  apply (@stable_geocoder_locations demo_geocoder demo_addresses
           (World 0 [])).
  exact demo_geocoder_stable.
Defined.

Lemma script_unpacks_none_witness :
  exists w',
    main flaky_geocoder meridian greedy_draws 3 demo_addresses (Some 1%Z)
      (World 0 []) = (Uncaught TypeError, w').
Proof.
  assert (H : geocode_addresses flaky_geocoder demo_addresses (World 0 [])
              = (Done [None; Some (1%Q, 9%Q, "Sunds, Danmark"%string);
                       Some (3%Q, 9%Q, "Ikast, Danmark"%string)],
                 World 7
                   [Geocoded "Herning"%string 0 9;
                    GeocodingTimedOut "Herning"%string;
                    CouldNotGeocode "Nowhere"%string;
                    Geocoded "Sunds"%string 1 9;
                    Geocoded "Sunds"%string 1 9;
                    Geocoded "Ikast"%string 3 9;
                    Geocoded "Ikast"%string 3 9]))
    by (vm_compute; reflexivity).
  apply (@script_unpacks_none flaky_geocoder meridian greedy_draws 3
           demo_addresses (Some 1%Z) _ _ H).
  - simpl. lia.
  - left. reflexivity.
Defined.

Lemma script_draws_tour_witness :
  exists tour total w',
    main demo_geocoder meridian greedy_draws 3 demo_addresses (Some 2%Z)
      (World 0 [])
    = (Done (Map (fst (hd (0%Q, 0%Q, String.EmptyString)
                         (known_places demo_geocoder demo_addresses)))
               (known_places demo_geocoder demo_addresses)
               (map (ends (known_places demo_geocoder demo_addresses))
                  (edges tour))
               total), w') /\
    is_tour (length (known_places demo_geocoder demo_addresses))
      (Z.to_nat (2 - 1)) tour /\
    plot_route_total (between meridian)
      (known_places demo_geocoder demo_addresses) tour (Fin 0) = Ok total /\
    calls w' = length demo_addresses
               + length (known_places demo_geocoder demo_addresses).
Proof.
  apply (@script_draws_tour demo_geocoder meridian greedy_draws 3
           demo_addresses 2%Z).
  - exact demo_geocoder_stable.
  - rewrite demo_places_known. simpl. lia.
  - rewrite demo_places_known. exact demo_places_valid.
  - exact greedy_draws_unit.
  - rewrite demo_places_known. simpl. lia.
  - rewrite demo_places_known. simpl. lia.
Defined.

Lemma plot_lines_out (geodesic : Q * Q -> Q * Q -> num)
  (locations : list place) (route : list nat) (total : num)
  (lines : list ((Q * Q) * (Q * Q))) :
  2 <= length route ->
  Exists (fun j => length locations <= j) route ->
  plot_lines geodesic locations route total lines = Raise IndexError.
Proof.
  revert total lines. induction route as [|a [|b t] IH];
    intros total lines Hlen Hex; simpl in Hlen; try lia.
  change (plot_lines geodesic locations (a :: b :: t) total lines) with
    (match nth_error locations a, nth_error locations b with
     | Some start, Some finish =>
         plot_lines geodesic locations (b :: t)
           (add total (geodesic (fst start) (fst finish)))
           (lines ++ [(fst start, fst finish)])
     | _, _ => Raise IndexError
     end).
  destruct (nth_error locations a) as [pa|] eqn:Ea; [|reflexivity].
  destruct (nth_error locations b) as [pb|] eqn:Eb; [|reflexivity].
  assert (Ha : a < length locations)
    by (apply nth_error_Some; rewrite Ea; discriminate).
  assert (Hb : b < length locations)
    by (apply nth_error_Some; rewrite Eb; discriminate).
  inversion Hex as [? ? Hbad|? ? Hex']; subst; [lia|].
  destruct t as [|c t'].
  - inversion Hex' as [? ? Hbad|? ? Hnil]; subst; [lia | inversion Hnil].
  - apply IH; [simpl; lia | exact Hex'].
Qed.

(** X17: [plot_route] on a route of indices of locations: a marker for
    every location, a line for every edge of the route from the one
    location to the other, and the total distance of the edges. *)
Theorem plot_route_draws (geodesic : Q * Q -> Q * Q -> num)
  (locations : list place) (route : list nat) (w : world) :
  locations <> [] ->
  Forall (fun j => j < length locations) route ->
  exists total,
    plot_route geodesic locations (Some route) w
    = (Done (Map (fst (hd (0%Q, 0%Q, String.EmptyString) locations))
               locations (map (ends locations) (edges route)) total),
       World (calls w)
         (output w ++ [Plotting; TotalRouteDistance total])) /\
    plot_route_total (between geodesic) locations route (Fin 0) = Ok total /\
    length (edges route) = length route - 1.
Proof.
  intros Hne Hall.
  destruct (@plot_route_defined geodesic locations route w Hne Hall)
    as [total [Hp Ht]].
  exists total. split; [exact Hp|]. split; [exact Ht|]. apply length_edges.
Qed.

Lemma plot_route_draws_witness :
  exists total,
    plot_route meridian demo_places (Some [1; 0; 2; 1]) (World 7 [])
    = (Done (Map (fst (hd (0%Q, 0%Q, String.EmptyString) demo_places))
               demo_places (map (ends demo_places) (edges [1; 0; 2; 1]))
               total),
       World (calls (World 7 []))
         (output (World 7 []) ++ [Plotting; TotalRouteDistance total])) /\
    plot_route_total (between meridian) demo_places [1; 0; 2; 1] (Fin 0)
    = Ok total /\
    length (edges [1; 0; 2; 1]) = length [1; 0; 2; 1] - 1.
Proof.
  apply (@plot_route_draws meridian demo_places [1; 0; 2; 1] (World 7 [])).
  - discriminate.
  - repeat constructor.
Defined.

(** X18: [plot_route] raises [IndexError] on an empty list of
    locations, [TypeError] on the route [None] that [solve_aco] returns
    when no ant runs, and [IndexError] on a route of two or more
    indices one of which is no index of a location. *)
Theorem plot_route_raises (geodesic : Q * Q -> Q * Q -> num)
  (locations : list place) (route : option (list nat)) (w : world) :
  (locations = [] ->
   fst (plot_route geodesic locations route w)
   = Uncaught (Builtin IndexError)) /\
  (locations <> [] -> route = None ->
   fst (plot_route geodesic locations route w) = Uncaught TypeError) /\
  (locations <> [] ->
   forall r, route = Some r -> 2 <= length r ->
     Exists (fun j => length locations <= j) r ->
     fst (plot_route geodesic locations route w)
     = Uncaught (Builtin IndexError)).
Proof.
  split; [|split].
  - intros ->. reflexivity.
  - intros Hne ->. destruct locations; [congruence | reflexivity].
  - intros Hne r -> Hlen Hex. destruct locations as [|p ps]; [congruence|].
    unfold plot_route, and_then, print, lift.
    rewrite plot_lines_out by assumption. reflexivity.
Qed.

Lemma script_checks_witness :
  geocode_addresses demo_geocoder demo_addresses (World 0 [])
  = (Done (map Some demo_places),
     World 7
       [Geocoded "Herning"%string 0 9;
        Geocoded "Herning"%string 0 9;
        CouldNotGeocode "Nowhere"%string;
        Geocoded "Sunds"%string 1 9;
        Geocoded "Sunds"%string 1 9;
        Geocoded "Ikast"%string 3 9;
        Geocoded "Ikast"%string 3 9]) /\
  exists w1,
    main demo_geocoder meridian greedy_draws 3 demo_addresses (Some 4%Z)
      (World 0 [])
    = (Exit, World (calls w1) (output w1 ++ [InvalidNumber])).
Proof.
  assert (H : geocode_addresses demo_geocoder demo_addresses (World 0 [])
              = (Done (map Some demo_places),
                 World 7
                   [Geocoded "Herning"%string 0 9;
                    Geocoded "Herning"%string 0 9;
                    CouldNotGeocode "Nowhere"%string;
                    Geocoded "Sunds"%string 1 9;
                    Geocoded "Sunds"%string 1 9;
                    Geocoded "Ikast"%string 3 9;
                    Geocoded "Ikast"%string 3 9]))
    by (vm_compute; reflexivity).
  split; [exact H|].
  destruct (@script_checks demo_geocoder meridian greedy_draws 3
              demo_addresses (Some 4%Z) _ _ H) as [_ Hc].
  destruct Hc as [w1 [_ Hout]].
  - simpl. lia.
  - simpl. intros [E|[E|[E|[]]]]; discriminate E.
  - exists w1. apply (Hout 4%Z); [reflexivity | right; simpl; lia].
Defined.

Lemma plot_route_raises_witness :
  fst (plot_route meridian [] (Some [0; 1; 0]) (World 0 []))
  = Uncaught (Builtin IndexError) /\
  fst (plot_route meridian demo_places None (World 0 []))
  = Uncaught TypeError /\
  fst (plot_route meridian demo_places (Some [0; 3; 0]) (World 0 []))
  = Uncaught (Builtin IndexError).
Proof.
  split; [|split].
  - apply (proj1 (plot_route_raises meridian [] (Some [0; 1; 0])
                    (World 0 []))).
    reflexivity.
  - apply (proj1 (proj2 (plot_route_raises meridian demo_places None
                           (World 0 [])))).
    + discriminate.
    + reflexivity.
  - apply (proj2 (proj2 (plot_route_raises meridian demo_places
                           (Some [0; 3; 0]) (World 0 []))))
      with (r := [0; 3; 0]).
    + discriminate.
    + reflexivity.
    + simpl. lia.
    + right. left. simpl. lia.
Defined.
